(** * Levanter: torch-style state-dict interchange (compat/torch_serialization.py)

    A shallow embedding of the state-dict codec, the linear-layer flattening
    adapter and the stack/unstack adapter, with the properties the
    specification states about them. *)

From Stdlib Require Import String Ascii List Bool Arith ZArith Lia.
From Stdlib Require Import DecimalString DecimalNat.
Import ListNotations.
Local Open Scope string_scope.
Local Open Scope list_scope.
Local Open Scope nat_scope.

Set Warnings "-register-all".

(* ===================================================================== *)
(** * Python values: exceptions, dictionaries, tensors                   *)
(* ===================================================================== *)

(** The exceptions the module can raise. *)
Inductive exn : Type :=
| KeyError
| ValueError
| AssertionError
| TypeError
| AttributeError.

Inductive result (A : Type) : Type :=
| OK (a : A)
| Raise (e : exn).
Arguments OK {A} a.
Arguments Raise {A} e.

Definition bind {A B} (r : result A) (f : A -> result B) : result B :=
  match r with
  | OK a => f a
  | Raise e => Raise e
  end.

Declare Scope py_scope.
Delimit Scope py_scope with py.
Notation "x <- c1 ;; c2" := (bind c1 (fun x => c2))
  (at level 61, c1 at next level, right associativity) : py_scope.
Local Open Scope py_scope.


(** A Python [dict] with string keys: an association list in insertion
    order.  Assigning to a present key keeps its position; assigning to a
    new key appends. *)
Definition dict (V : Type) := list (string * V).

Fixpoint dict_get {V} (d : dict V) (k : string) : option V :=
  match d with
  | [] => None
  | (k', v) :: r => if String.eqb k' k then Some v else dict_get r k
  end.

Fixpoint dict_set {V} (d : dict V) (k : string) (v : V) : dict V :=
  match d with
  | [] => [(k, v)]
  | (k', v') :: r =>
      if String.eqb k' k then (k', v) :: r else (k', v') :: dict_set r k v
  end.

Definition dict_keys {V} (d : dict V) : list string := map fst d.

(** [d[k]]: a missing key raises [KeyError]. *)
Definition dict_index {V} (d : dict V) (k : string) : result V :=
  match dict_get d k with
  | Some v => OK v
  | None => Raise KeyError
  end.

(** Python's [==] on dictionaries ignores the insertion order. *)
Definition dict_equiv {V} (d1 d2 : dict V) : Prop :=
  forall k, dict_get d1 k = dict_get d2 k.

(** ** Tensors *)

(** An array element: an integer (the tensors of the model hold signed
    integers), the float [nan], or Python's [None] inside an object array
    (what [numpy.asanyarray(None)] holds). *)
Inductive scalar : Type :=
| Num (z : Z)
| NaN
| NoneObj.

(** A host array ([numpy.ndarray]) or a device array (what [jnp.array]
    returns). *)
Inductive array_kind : Type := Numpy | Jax.

(** A dense array: its shape and its elements in row-major order. *)
Record ndarray : Type := mkArr {
  kind : array_kind;
  shape : list nat;
  data : list scalar
}.

Definition prod_shape (s : list nat) : nat := fold_right Nat.mul 1 s.

Definition wf_array (a : ndarray) : Prop :=
  length (data a) = prod_shape (shape a).

Definition scalar_is_num (x : scalar) : bool :=
  match x with Num _ => true | NaN => true | NoneObj => false end.

Definition numeric (a : ndarray) : bool := forallb scalar_is_num (data a).

(** Numeric equality of arrays: same shape, same elements. *)
Definition num_eq (a b : ndarray) : Prop :=
  shape a = shape b /\ data a = data b.

(** What a state dict holds under a key: a tensor or [None]. *)
Inductive value : Type :=
| VNone
| VArr (a : ndarray).

Definition StateDict := dict value.

Definition with_kind (k : array_kind) (a : ndarray) : ndarray :=
  mkArr k (shape a) (data a).

(** JAX keeps 32 bits of an integer (its 64-bit types are off unless
    they are asked for): a wider element wraps around. *)
Definition wrap32 (z : Z) : Z := ((z + 2 ^ 31) mod 2 ^ 32 - 2 ^ 31)%Z.

Definition narrow (x : scalar) : scalar :=
  match x with
  | Num z => Num (wrap32 z)
  | NaN => NaN
  | NoneObj => NoneObj
  end.

(** [jnp.array(x)]: a device array with the elements of [x], narrowed to
    32 bits; [None] becomes the 0-dimensional array that holds [nan]; an
    object array is rejected. *)
Definition jnp_array (v : value) : result ndarray :=
  match v with
  | VNone => OK (mkArr Jax [] [NaN])
  | VArr a =>
      if numeric a then OK (mkArr Jax (shape a) (map narrow (data a)))
      else Raise TypeError
  end.

(** [str(i)] and [int(s)] on non-negative integers. *)
Definition str (i : nat) : string := NilEmpty.string_of_uint (Nat.to_uint i).

(* ===================================================================== *)
(** * The state-dict codec                                               *)
(* ===================================================================== *)

Definition apply_prefix (prefix leaf : option string) : option string :=
  match prefix with
  | None => leaf
  | Some p =>
      match leaf with
      | None => Some p
      | Some l => Some (p ++ "." ++ l)%string
      end
  end.

(** [apply_prefix(prefix, leaf)] for a leaf that is a string: the result is
    a string too. *)
Definition key_of (prefix : option string) (leaf : string) : string :=
  match apply_prefix prefix (Some leaf) with
  | Some k => k
  | None => leaf
  end.

Record Axis : Type := mkAxis { axis_name : string; axis_size : nat }.

(** A [NamedArray]: a raw array (or [None]) and its named axes. *)
Record NamedArray : Type := mkNamed { array : value; axes : list Axis }.

(** The check that the constructor of [NamedArray] makes: the shape of the
    raw array is the sizes of the axes. *)
Fixpoint same_sizes (s : list nat) (axs : list Axis) : bool :=
  match s, axs with
  | [], [] => true
  | n :: s', ax :: axs' => (n =? axis_size ax) && same_sizes s' axs'
  | _, _ => false
  end.

(** A module tree.  [Named] is a [NamedArray] leaf; [Leaf] is any other
    non-[None] leaf; a module carries the result of
    [_state_dict_key_map()] and its dataclass fields in declaration order,
    each with the [static] flag of its metadata. *)
Inductive tree : Type :=
| TNone
| Leaf (a : ndarray)
| Named (a : NamedArray)
| TList (items : list tree)
| TDict (items : list (string * tree))
| TModule (key_map : dict (option string)) (fields : list (string * bool * tree)).

(** [key_map.get(name, name)] *)
Definition key_map_get (key_map : dict (option string)) (name : string)
  : option string :=
  match dict_get key_map name with
  | Some key => key
  | None => Some name
  end.

(** [[f(i, x) for i, x in enumerate(l)]], stopping at the first exception. *)
Fixpoint traverse {A B} (f : nat -> A -> result B) (i : nat) (l : list A)
  : result (list B) :=
  match l with
  | [] => OK []
  | x :: rest =>
      y <- f i x ;;
      rest' <- traverse f (S i) rest ;;
      OK (y :: rest')
  end.

Fixpoint jax_tree_from_state_dict (t : tree) (state_dict : StateDict)
    (prefix : option string) {struct t} : result tree :=
  match t with
  | TModule key_map fields =>
      (* default_eqx_module_from_state_dict: the static fields are skipped
         and [eqx.tree_at] puts the new values in place of the others *)
      fields' <- traverse
        (fun _ (field : string * bool * tree) =>
           let '(name, static, value) := field in
           if static then OK (name, static, value)
           else
             let key := key_map_get key_map name in
             new <- jax_tree_from_state_dict value state_dict
                      (apply_prefix prefix key) ;;
             OK (name, static, new))
        0 fields ;;
      OK (TModule key_map fields')
  | TList items =>
      items' <- traverse
        (fun i item =>
           jax_tree_from_state_dict item state_dict
             (apply_prefix prefix (Some (str i))))
        0 items ;;
      OK (TList items')
  | TDict items =>
      items' <- traverse
        (fun _ (kv : string * tree) =>
           let (k, v) := kv in
           x <- jax_tree_from_state_dict v state_dict
                  (apply_prefix prefix (Some k)) ;;
           OK (k, x))
        0 items ;;
      OK (TDict items')
  | Named na =>
      match prefix with
      | None => Raise ValueError
      | Some p =>
          v <- dict_index state_dict p ;;
          a <- jnp_array v ;;
          if same_sizes (shape a) (axes na)
          then OK (Named (mkNamed (VArr a) (axes na)))
          else Raise ValueError
      end
  | TNone =>
      match prefix with
      | None => OK TNone
      | Some p =>
          match dict_get state_dict p with
          | None | Some VNone => OK TNone
          | Some (VArr a) => OK (Leaf a)
          end
      end
  | Leaf _ =>
      match prefix with
      | None => Raise ValueError
      | Some p =>
          v <- dict_index state_dict p ;;
          a <- jnp_array v ;;
          OK (Leaf a)
      end
  end.

(** The destination dictionary is mutated in place: a step returns the
    dictionary as it stands when the step ends, together with the exception
    that ended it, if any. *)
Definition upd : Type := (StateDict * option exn)%type.

(** [for i, x in enumerate(l): f(i, x)] on the shared dictionary. *)
Fixpoint for_each {A} (f : nat -> A -> StateDict -> upd) (i : nat) (l : list A)
    (sd : StateDict) : upd :=
  match l with
  | [] => (sd, None)
  | x :: rest =>
      match f i x sd with
      | (sd', None) => for_each f (S i) rest sd'
      | (sd', Some e) => (sd', Some e)
      end
  end.

Fixpoint update_state_dict_with_jax_tree (t : tree) (state_dict : StateDict)
    (prefix : option string) {struct t} : upd :=
  match t with
  | TModule key_map fields =>
      (* default_update_state_dict_with_eqx_module *)
      for_each
        (fun _ (field : string * bool * tree) sd =>
           let '(name, static, value) := field in
           if static then (sd, None)
           else
             let key := key_map_get key_map name in
             update_state_dict_with_jax_tree value sd (apply_prefix prefix key))
        0 fields state_dict
  | TList items =>
      for_each
        (fun i item sd =>
           update_state_dict_with_jax_tree item sd
             (apply_prefix prefix (Some (str i))))
        0 items state_dict
  | TDict items =>
      for_each
        (fun _ (kv : string * tree) sd =>
           let (k, v) := kv in
           update_state_dict_with_jax_tree v sd (apply_prefix prefix (Some k)))
        0 items state_dict
  | Named na =>
      match prefix with
      | None => (state_dict, Some AssertionError)
      | Some p => (dict_set state_dict p (array na), None)
      end
  | Leaf a =>
      match prefix with
      | Some p => (dict_set state_dict p (VArr a), None)
      | None => (state_dict, Some ValueError)
      end
  | TNone =>
      match prefix with
      | Some p => (state_dict, None)
      | None => (state_dict, Some ValueError)
      end
  end.

Definition jax_tree_to_state_dict (t : tree) (prefix : option string)
  : result StateDict :=
  match update_state_dict_with_jax_tree t [] prefix with
  | (sd, None) => OK sd
  | (_, Some e) => Raise e
  end.

(** ** Vocabulary for the codec's properties *)


(** [[y for i, x in enumerate(l) for y in f(i, x)]] *)
Fixpoint flat_mapi {A B} (f : nat -> A -> list B) (i : nat) (l : list A) : list B :=
  match l with
  | [] => []
  | x :: rest => f i x ++ flat_mapi f (S i) rest
  end.

(** The tensor leaves of a tree in traversal order, each with the prefix
    it is reached with and the raw value serialization stores for it. *)
Fixpoint leaves (t : tree) (p : option string) : list (option string * value) :=
  match t with
  | TNone => []
  | Leaf a => [(p, VArr a)]
  | Named na => [(p, array na)]
  | TList items =>
      flat_mapi (fun i c => leaves c (apply_prefix p (Some (str i)))) 0 items
  | TDict items =>
      flat_mapi (fun _ (kv : string * tree) =>
                   leaves (snd kv) (apply_prefix p (Some (fst kv)))) 0 items
  | TModule key_map fields =>
      flat_mapi (fun _ (f : string * bool * tree) =>
                   if snd (fst f) then []
                   else leaves (snd f)
                          (apply_prefix p (key_map_get key_map (fst (fst f)))))
                0 fields
  end.

(** [leaf_at t p k v]: under prefix [p], the tree [t] has a tensor leaf
    whose key is [k] and whose raw value is [v]. *)
Definition leaf_at (t : tree) (p : option string) (k : string) (v : value) : Prop :=
  In (Some k, v) (leaves t p).








(** A donor has the shape of a tree: the same nesting, keys, field names,
    key maps, static fields and axes; only the tensors may differ. *)
Inductive same_shape : tree -> tree -> Prop :=
| ss_none : same_shape TNone TNone
| ss_leaf : forall a b, same_shape (Leaf a) (Leaf b)
| ss_named : forall na nb, axes na = axes nb -> same_shape (Named na) (Named nb)
| ss_list : forall l1 l2, Forall2 same_shape l1 l2 -> same_shape (TList l1) (TList l2)
| ss_dict : forall l1 l2,
    Forall2 (fun x y : string * tree => fst x = fst y /\ same_shape (snd x) (snd y)) l1 l2 ->
    same_shape (TDict l1) (TDict l2)
| ss_module : forall km l1 l2,
    Forall2 (fun x y : string * bool * tree =>
               fst x = fst y /\
               (snd (fst x) = true -> snd x = snd y) /\
               (snd (fst x) = false -> same_shape (snd x) (snd y))) l1 l2 ->
    same_shape (TModule km l1) (TModule km l2).


(* ===================================================================== *)
(** * Named-axis operations used by the linear-layer adapter             *)
(* ===================================================================== *)

Definition axis_names (l : list Axis) : list string := map axis_name l.
Definition axis_sizes (l : list Axis) : list nat := map axis_size l.

Definition axis_eqb (a b : Axis) : bool :=
  String.eqb (axis_name a) (axis_name b) && (axis_size a =? axis_size b).

(** [ax in axes] *)
Definition axis_in (ax : Axis) (l : list Axis) : bool := existsb (axis_eqb ax) l.

Definition name_in (n : string) (l : list string) : bool := existsb (String.eqb n) l.

(** All the multi-indices of a shape, in row-major order. *)
Fixpoint indices (s : list nat) : list (list nat) :=
  match s with
  | [] => [[]]
  | n :: s' => flat_map (fun i => map (cons i) (indices s')) (seq 0 n)
  end.

(** The row-major position of a multi-index. *)
Fixpoint ravel (s idx : list nat) : nat :=
  match s, idx with
  | _ :: s', i :: idx' => i * prod_shape s' + ravel s' idx'
  | _, _ => 0
  end.

(** The component of a multi-index along the axis of a given name. *)
Fixpoint index_along (axs : list Axis) (idx : list nat) (name : string) : nat :=
  match axs, idx with
  | a :: axs', i :: idx' =>
      if String.eqb (axis_name a) name then i else index_along axs' idx' name
  | _, _ => 0
  end.

(** Modelled from the spec: the raw transposition behind haliax's
    [rearrange] ("operations are addressed by name, not position"): the
    element at a multi-index of the new axis order is the element the old
    array holds at the same named coordinates. *)
Definition transpose (a : ndarray) (old new : list Axis) : ndarray :=
  mkArr (kind a) (axis_sizes new)
    (map (fun idx' =>
            nth (ravel (axis_sizes old)
                   (map (index_along new idx') (axis_names old)))
                (data a) NoneObj)
         (indices (axis_sizes new))).

(** [jnp.reshape]: the row-major elements are kept, the shape changes. *)
Definition reshape (a : ndarray) (s : list nat) : result ndarray :=
  if prod_shape s =? length (data a) then OK (mkArr (kind a) s (data a))
  else Raise TypeError.

Definition raw (a : NamedArray) : result ndarray :=
  match array a with
  | VArr x => OK x
  | VNone => Raise AttributeError
  end.

(** Modelled from the spec: haliax's [NamedArray.rearrange] to a full axis
    order, which must name every axis of the array exactly once. *)
Definition rearrange (a : NamedArray) (new : list Axis) : result NamedArray :=
  x <- raw a ;;
  if (length new =? length (axes a))
     && forallb (fun ax => axis_in ax (axes a)) new
     && forallb (fun ax => axis_in ax new) (axes a)
  then OK (mkNamed (VArr (transpose x (axes a) new)) new)
  else Raise ValueError.

Definition find_axis (l : list Axis) (name : string) : option Axis :=
  find (fun ax => String.eqb (axis_name ax) name) l.

Fixpoint find_axes (l : list Axis) (names : list string) : result (list Axis) :=
  match names with
  | [] => OK []
  | n :: names' =>
      match find_axis l n with
      | Some ax => rest <- find_axes l names' ;; OK (ax :: rest)
      | None => Raise ValueError
      end
  end.

(** Modelled from the spec: [rearrange((..., n1, n2))], which moves the
    named axes to the end in the order given and leaves the other axes in
    front, in the order they have. *)
Definition rearrange_last (a : NamedArray) (names : list string)
  : result NamedArray :=
  last_axes <- find_axes (axes a) names ;;
  rearrange a
    (filter (fun ax => negb (name_in (axis_name ax) names)) (axes a) ++ last_axes).

(** The axes of an array after a group is collapsed: [into] takes the
    place of the first axis of the group that the array has, the other
    axes of the group go, and the axes outside the group stay where they
    are. *)
Fixpoint collapse (l group into : list Axis) (seen : bool) : list Axis :=
  match l with
  | [] => []
  | ax :: l' =>
      if axis_in ax group
      then (if seen then collapse l' group into true
            else into ++ collapse l' group into true)
      else ax :: collapse l' group into seen
  end.

(** Modelled from the spec: haliax's [flatten_axes], which collapses a
    group of axes of the array into one synthetic axis of the product
    size.  The collapse is in place: the group is brought together, in the
    order given, where its first axis stands, and the synthetic axis stands
    there afterwards; the other axes keep their places.  This is the
    reading under which [out_dims_first_in_dict = None] leaves "the
    weight's axes ... as-is" (docstring of [flatten_linear_layers]) and
    under which [_unflatten_linear] is right to read such a weight in the
    layer's own orientation, [layer.out_first]. *)
Definition flatten_axes (a : NamedArray) (old_axes : list Axis) (new_axis : string)
  : result NamedArray :=
  match old_axes with
  | [] => Raise ValueError
  | _ =>
      if forallb (fun ax => axis_in ax (axes a)) old_axes then
        b <- rearrange a (collapse (axes a) old_axes old_axes false) ;;
        x <- raw b ;;
        let new_axes :=
          collapse (axes a) old_axes
            [mkAxis new_axis (prod_shape (axis_sizes old_axes))] false in
        y <- reshape x (axis_sizes new_axes) ;;
        OK (mkNamed (VArr y) new_axes)
      else Raise ValueError
  end.

Fixpoint replace_axis (l : list Axis) (name : string) (new_axes : list Axis)
  : option (nat * list Axis) :=
  match l with
  | [] => None
  | ax :: l' =>
      if String.eqb (axis_name ax) name then Some (axis_size ax, new_axes ++ l')
      else
        match replace_axis l' name new_axes with
        | Some (n, r) => Some (n, ax :: r)
        | None => None
        end
  end.

(** Modelled from the spec: haliax's [unflatten_axis], which re-expands a
    synthetic axis, in place, into a group of axes of the same total
    size. *)
Definition unflatten_axis (a : NamedArray) (axis : string) (new_axes : list Axis)
  : result NamedArray :=
  match replace_axis (axes a) axis new_axes with
  | None => Raise ValueError
  | Some (size, resolved) =>
      if size =? prod_shape (axis_sizes new_axes) then
        x <- raw a ;;
        y <- reshape x (axis_sizes resolved) ;;
        OK (mkNamed (VArr y) resolved)
      else Raise ValueError
  end.

(** An entry of an axis specification: an axis with its size, or a bare
    name whose size is read off the array. *)
Inductive AxisSelector : Type :=
| SelAxis (ax : Axis)
| SelName (name : string).

Fixpoint check_shape (s : list nat) (spec : list AxisSelector) : result (list Axis) :=
  match s, spec with
  | [], [] => OK []
  | n :: s', SelAxis ax :: spec' =>
      if axis_size ax =? n then rest <- check_shape s' spec' ;; OK (ax :: rest)
      else Raise ValueError
  | n :: s', SelName name :: spec' =>
      rest <- check_shape s' spec' ;; OK (mkAxis name n :: rest)
  | _, _ => Raise ValueError
  end.

(** Modelled from the spec: [hax.named(array, axes)], which gives names to
    the axes of a raw array ("reconstruct named synthetic axes"). *)
Definition named (v : value) (spec : list AxisSelector) : result NamedArray :=
  match v with
  | VNone => Raise AttributeError
  | VArr x => axs <- check_shape (shape x) spec ;; OK (mkNamed v axs)
  end.

(* ===================================================================== *)
(** * The linear-layer flattening adapter                                *)
(* ===================================================================== *)

Module LinearAdapter.

(** Modelled from the spec: haliax's [nn.Linear] (section 3, "Linear
    Layer"): a weight, an optional bias, the input and output axis groups
    and the stored orientation flag [out_first]. *)
Record Linear : Type := mkLinear {
  weight : NamedArray;
  bias : option NamedArray;
  In : list Axis;
  Out : list Axis;
  out_first : bool
}.

Definition OUT : string := "__OUT__".
Definition IN : string := "__IN__".

(** Step 2 of [_flatten_linear]: the two collapses, which do not look at
    [out_dims_first_in_dict]. *)
Definition collapse_linear (layer : Linear)
  : result (NamedArray * option NamedArray) :=
  w1 <- flatten_axes (weight layer) (Out layer) OUT ;;
  w2 <- flatten_axes w1 (In layer) IN ;;
  match bias layer with
  | Some b => b' <- flatten_axes b (Out layer) OUT ;; OK (w2, Some b')
  | None => OK (w2, None)
  end.

(** Step 3 of [_flatten_linear]. *)
Definition orient (weight : NamedArray) (out_dims_first_in_dict : option bool)
  : result NamedArray :=
  match out_dims_first_in_dict with
  | Some true => rearrange_last weight [OUT; IN]
  | Some false => rearrange_last weight [IN; OUT]
  | None => OK weight
  end.

Definition _flatten_linear (out_dims_first_in_dict : option bool)
    (layer : Linear) (prefix : option string) (ret_dict : StateDict)
  : result StateDict :=
  wb <- match array (weight layer) with
        | VArr _ =>
            c <- collapse_linear layer ;;
            w <- orient (fst c) out_dims_first_in_dict ;;
            OK (w, snd c)
        | VNone => OK (weight layer, bias layer)
        end ;;
  let ret_dict := dict_set ret_dict (key_of prefix "weight") (array (fst wb)) in
  match snd wb with
  | Some b => OK (dict_set ret_dict (key_of prefix "bias") (array b))
  | None => OK ret_dict
  end.

(** [flatten_linear_layers] on a tree that is a linear layer:
    [leaf_key_paths] gives the prefix itself and [tree_map] applies
    [_flatten_linear] to the layer once. *)
Definition flatten_linear_layers (prefix : option string) (tree : Linear)
    (out_dims_first_in_dict : option bool) : result StateDict :=
  _flatten_linear out_dims_first_in_dict tree prefix [].

Definition _unflatten_linear (statedict : StateDict)
    (out_dims_first_in_dict : option bool)
    (layer : Linear) (prefix : option string) (ret_dict : StateDict)
  : result StateDict :=
  weight0 <- dict_index statedict (key_of prefix "weight") ;;
  let bias0 := dict_get statedict (key_of prefix "bias") in
  let InOut := In layer ++ Out layer in
  let extra_dims :=
    filter (fun ax => negb (axis_in ax InOut)) (axes (weight layer)) in
  let out_dims_first_in_dict :=
    match out_dims_first_in_dict with
    | None => out_first layer
    | Some b => b
    end in
  w <- (if out_dims_first_in_dict
        then named weight0 (map SelAxis extra_dims ++ [SelName OUT; SelName IN])
        else named weight0 (map SelAxis extra_dims ++ [SelName IN; SelName OUT])) ;;
  w <- (if out_first layer
        then rearrange_last w [OUT; IN]
        else rearrange_last w [IN; OUT]) ;;
  w <- unflatten_axis w OUT (Out layer) ;;
  w <- unflatten_axis w IN (In layer) ;;
  b <- match bias0 with
       | Some (VArr _ as bias1) =>
           b1 <- named bias1 (map SelAxis extra_dims ++ [SelName OUT]) ;;
           b2 <- unflatten_axis b1 OUT (Out layer) ;;
           OK (Some b2)
       | _ => OK None
       end ;;
  let ret_dict := dict_set ret_dict (key_of prefix "weight") (array w) in
  match b with
  | Some b2 => OK (dict_set ret_dict (key_of prefix "bias") (array b2))
  | None => OK ret_dict
  end.

Definition unflatten_linear_layers (prefix : option string) (statedict : StateDict)
    (layer : Linear) (out_dims_first_in_dict : option bool) : result StateDict :=
  _unflatten_linear statedict out_dims_first_in_dict layer prefix [].

End LinearAdapter.

(** ** Vocabulary for the linear-layer adapter's properties *)

(** The element of a named array at named coordinates. *)
Definition nget (a : NamedArray) (rho : string -> nat) : scalar :=
  match array a with
  | VArr x =>
      nth (ravel (axis_sizes (axes a)) (map rho (axis_names (axes a))))
          (data x) NoneObj
  | VNone => NoneObj
  end.

(** Named coordinates within the sizes of a list of axes. *)
Definition inb (rho : string -> nat) (A : list Axis) : Prop :=
  Forall (fun ax => rho (axis_name ax) < axis_size ax) A.

(** A named array of kind [k] whose raw array has the shape its axes
    announce. *)
Definition wf_named (k : array_kind) (a : NamedArray) : Prop :=
  exists x, array a = VArr x /\ kind x = k /\
            shape x = axis_sizes (axes a) /\ wf_array x.

(** The layout [Linear.init] gives a layer, possibly behind extra leading
    axes [E]: the weight holds the output and input groups in the order the
    orientation flag tells, the bias holds the output group, the axis names
    are distinct and none is a synthetic name. *)
Definition linear_wf (k : array_kind) (E : list Axis) (layer : LinearAdapter.Linear)
  : Prop :=
  let I := LinearAdapter.In layer in
  let O := LinearAdapter.Out layer in
  wf_named k (LinearAdapter.weight layer) /\
  axes (LinearAdapter.weight layer) =
    E ++ (if LinearAdapter.out_first layer then O ++ I else I ++ O) /\
  (forall b, LinearAdapter.bias layer = Some b -> wf_named k b /\ axes b = E ++ O) /\
  I <> [] /\ O <> [] /\
  NoDup (LinearAdapter.OUT :: LinearAdapter.IN :: axis_names (E ++ I ++ O)).

(* ===================================================================== *)
(** * The stack/unstack adapter                                          *)
(* ===================================================================== *)

(** [k[n:]] *)
Fixpoint string_drop (n : nat) (s : string) : string :=
  match n, s with
  | O, _ => s
  | S n', EmptyString => EmptyString
  | S n', String _ s' => string_drop n' s'
  end.

(** [k.startswith(p)] *)
Definition startswith (k p : string) : bool := String.prefix p k.

(** Iterating an array walks its leading axis; a 0-d array cannot be
    iterated. *)
Fixpoint rows (n len : nat) (l : list scalar) : list (list scalar) :=
  match n with
  | O => []
  | S n' => firstn len l :: rows n' len (skipn len l)
  end.

Definition iterate (a : ndarray) : result (list ndarray) :=
  match shape a with
  | [] => Raise TypeError
  | n :: s => OK (map (mkArr (kind a) s) (rows n (prod_shape s) (data a)))
  end.

(** [for i, v_i in enumerate(v): new_dict[f"{prefix}{i}.{rest}"] = v_i] *)
Fixpoint unstack_rows (prefix rest : string) (i : nat) (vs : list ndarray)
    (new_dict : StateDict) : StateDict :=
  match vs with
  | [] => new_dict
  | v_i :: vs' =>
      unstack_rows prefix rest (S i) vs'
        (dict_set new_dict (prefix ++ str i ++ "." ++ rest)%string (VArr v_i))
  end.

Fixpoint unstack_loop (prefix : string) (items : StateDict) (new_dict : StateDict)
  : result StateDict :=
  match items with
  | [] => OK new_dict
  | (k, v) :: items' =>
      match v with
      | VArr a =>
          if startswith k prefix then
            vs <- iterate a ;;
            unstack_loop prefix items'
              (unstack_rows prefix (string_drop (String.length prefix) k) 0 vs new_dict)
          else unstack_loop prefix items' (dict_set new_dict k v)
      | VNone => unstack_loop prefix items' (dict_set new_dict k v)
      end
  end.

Definition unstack_state_dict (state_dict : StateDict) (prefix : option string)
  : result StateDict :=
  match apply_prefix prefix (Some "") with
  | None => Raise AssertionError
  | Some prefix' => unstack_loop prefix' state_dict []
  end.

(** ** The key pattern of [stack_state_dict] *)

(** [\d] on the characters of an ASCII key. *)
Definition is_digit (c : ascii) : bool :=
  let n := nat_of_ascii c in (48 <=? n) && (n <=? 57).

Definition newline : ascii := ascii_of_nat 10.

(** The longest run of digits at the head of a string, and what follows. *)
Fixpoint span_digits (s : string) : string * string :=
  match s with
  | EmptyString => (EmptyString, EmptyString)
  | String c s' =>
      if is_digit c then
        (let (d, r) := span_digits s' in (String c d, r))
      else (EmptyString, s)
  end.

(** What the second group captures: everything up to the first newline. *)
Fixpoint upto_newline (s : string) : string :=
  match s with
  | EmptyString => EmptyString
  | String c s' =>
      if Ascii.eqb c newline then EmptyString else String c (upto_newline s')
  end.

(** [pattern.match(k)] for the pattern [escaped \. (\d+) \. (. star)],
    giving groups 1 and 2.  The literal prefix and a dot must open the key; [\d+] is followed by
    a literal dot, so it can only capture the whole run of digits; [.]
    stops at a newline and [match] does not have to reach the end of the
    key. *)
Definition pattern_match (escaped k : string) : option (string * string) :=
  if startswith k (escaped ++ ".")%string then
    let (digits, after) := span_digits (string_drop (String.length escaped + 1) k) in
    match digits, after with
    | String _ _, String "." rest => Some (digits, upto_newline rest)
    | _, _ => None
    end
  else None.

(** [int(s)] for a string of decimal digits. *)
Definition int (s : string) : nat :=
  match NilEmpty.uint_of_string s with
  | Some d => Nat.of_uint d
  | None => 0
  end.

(** [tensors[i] = v] for [i] in range. *)
Fixpoint list_set {A} (l : list A) (i : nat) (v : A) : list A :=
  match l, i with
  | [], _ => []
  | _ :: r, O => v :: r
  | x :: r, S i' => x :: list_set r i' v
  end.

Definition is_VNone (v : value) : bool :=
  match v with VNone => true | VArr _ => false end.

(** ** [numpy.stack(tensors, axis=0)] *)

Definition asanyarray (v : value) : ndarray :=
  match v with
  | VNone => mkArr Numpy [] [NoneObj]
  | VArr a => with_kind Numpy a
  end.

Definition shape_eqb (s1 s2 : list nat) : bool :=
  (length s1 =? length s2) && forallb (fun p => fst p =? snd p) (combine s1 s2).

Definition numpy_stack (tensors : list value) : result ndarray :=
  match map asanyarray tensors with
  | [] => Raise ValueError
  | (a0 :: _) as arrays =>
      if forallb (fun a => shape_eqb (shape a) (shape a0)) arrays then
        OK (mkArr Numpy (length arrays :: shape a0) (concat (map data arrays)))
      else Raise ValueError
  end.

(** One turn of the first loop of [stack_state_dict].  Building the list
    [[None] * n] is taken to succeed: the memory of the interpreter, which
    an index beyond its reach exhausts, is not modelled. *)
Definition stack_step (escaped : string) (k : string) (v : value)
    (st : StateDict * dict (list value)) : result (StateDict * dict (list value)) :=
  let (vectorized_dict, tensors_to_vectorize) := st in
  match pattern_match escaped k with
  | Some (g1, block_key) =>
      let block_idx := int g1 in
      let tensors :=
        match dict_get tensors_to_vectorize block_key with
        | Some l => l
        | None => []
        end in
      let tensors :=
        if length tensors <=? block_idx
        then tensors ++ repeat VNone (block_idx - length tensors + 1)
        else tensors in
      if is_VNone (nth block_idx tensors VNone) then
        OK (vectorized_dict,
            dict_set tensors_to_vectorize block_key (list_set tensors block_idx v))
      else Raise AssertionError
  | None => OK (dict_set vectorized_dict k v, tensors_to_vectorize)
  end.

Fixpoint stack_loop (escaped : string) (items : StateDict)
    (st : StateDict * dict (list value)) : result (StateDict * dict (list value)) :=
  match items with
  | [] => OK st
  | (k, v) :: items' =>
      st' <- stack_step escaped k v st ;;
      stack_loop escaped items' st'
  end.

(** The second loop: stack every group and store it under the prefix. *)
Fixpoint vectorize (prefix : option string) (groups : dict (list value))
    (vectorized_dict : StateDict) : result StateDict :=
  match groups with
  | [] => OK vectorized_dict
  | (k, tensors) :: groups' =>
      a <- numpy_stack tensors ;;
      vectorize prefix groups' (dict_set vectorized_dict (key_of prefix k) (VArr a))
  end.

(** [prefix or ""], which [re.escape] turns into a pattern for exactly
    that text. *)
Definition escaped (prefix : option string) : string :=
  match prefix with
  | Some p => p
  | None => ""
  end.

Definition stack_state_dict (state_dict : StateDict) (prefix : option string)
  : result StateDict :=
  st <- stack_loop (escaped prefix) state_dict ([], []) ;;
  vectorize prefix (snd st) (fst st).

(** ** Vocabulary for the adapter's properties *)

Fixpoint all_digits (s : string) : bool :=
  match s with
  | EmptyString => true
  | String c s' => is_digit c && all_digits s'
  end.

Fixpoint no_newline (s : string) : bool :=
  match s with
  | EmptyString => true
  | String c s' => negb (Ascii.eqb c newline) && no_newline s'
  end.

(** A key of ASCII characters, as the keys of torch state dicts are.  On
    such a key the class [\d] of the pattern is the digits 0 to 9 and
    [int] reads them in base ten; beyond ASCII, Python's [\d] and [int]
    also take the decimal digits of other scripts, which [is_digit] does
    not. *)
Fixpoint ascii_only (s : string) : bool :=
  match s with
  | EmptyString => true
  | String c s' => (nat_of_ascii c <? 128) && ascii_only s'
  end.

Definition ascii_keys (d : StateDict) : Prop :=
  forall k v, In (k, v) d -> ascii_only k = true.

(** A key names the slot [i] of the block key [bk]. *)
Definition names_slot (esc : string) (k : string) (bk : string) (i : nat) : Prop :=
  exists g1, pattern_match esc k = Some (g1, bk) /\ int g1 = i.

(** The value as a host array, which is what [numpy.stack] returns. *)
Definition as_host (v : value) : value :=
  match v with
  | VArr a => VArr (with_kind Numpy a)
  | VNone => VNone
  end.

Definition value_num_eq (v1 v2 : value) : Prop :=
  match v1, v2 with
  | VNone, VNone => True
  | VArr a, VArr b => num_eq a b
  | _, _ => False
  end.

(** The same keys, with numerically equal values. *)
Definition dict_num_eq (d1 d2 : StateDict) : Prop :=
  forall k,
    match dict_get d1 k, dict_get d2 k with
    | Some v1, Some v2 => value_num_eq v1 v2
    | None, None => True
    | _, _ => False
    end.

(** The keys that are not under the prefix keep their values. *)
Definition passes_through (p : string) (d r : StateDict) : Prop :=
  forall k v, In (k, v) d -> startswith k (p ++ ".") = false -> dict_get r k = Some v.

(** Every tensor under the prefix is a host array. *)
Definition host_arrays (p : string) (d : StateDict) : Prop :=
  forall k a, In (k, VArr a) d -> startswith k (p ++ ".") = true -> kind a = Numpy.

(** A stacked dictionary: under the prefix, every key is free of newlines
    and holds a tensor with a leading axis of size one or more. *)
Definition stacked_form (p : string) (d : StateDict) : Prop :=
  NoDup (dict_keys d) /\
  forall k v, In (k, v) d -> startswith k (p ++ ".") = true ->
    no_newline (string_drop (String.length (p ++ ".")) k) = true /\
    exists a n s, v = VArr a /\ shape a = S n :: s /\ wf_array a.

(** An unstacked dictionary: under the prefix, every key reads
    [prefix.i.rest] with [i] in canonical decimal and no newline in [rest],
    and holds a tensor; the indices of a [rest] are a dense run from 0 and
    its tensors have one shape. *)
Definition unstacked_form (p : string) (d : StateDict) : Prop :=
  NoDup (dict_keys d) /\
  (forall k v, In (k, v) d -> startswith k (p ++ ".") = true ->
     exists i bk a,
       k = ((p ++ ".") ++ str i ++ "." ++ bk)%string /\ no_newline bk = true /\
       v = VArr a /\ wf_array a) /\
  (forall i bk v,
     In (((p ++ ".") ++ str i ++ "." ++ bk)%string, v) d ->
     forall j, j < i -> exists v', In (((p ++ ".") ++ str j ++ "." ++ bk)%string, v') d) /\
  (forall i j bk a a',
     In (((p ++ ".") ++ str i ++ "." ++ bk)%string, VArr a) d ->
     In (((p ++ ".") ++ str j ++ "." ++ bk)%string, VArr a') d ->
     shape a = shape a').

(** * Notions the proofs are stated with, and the examples *)

(** What a serialization step does to the dictionary, given the set [W] of
    (key, value) pairs it is to write: every key either keeps its entry or
    holds a value of [W], and every key of [W] ends up holding a value of
    [W]. *)
Definition writes (W : string -> value -> Prop) (sd sd' : StateDict) : Prop :=
  (forall k, dict_get sd' k = dict_get sd k \/
             exists v, W k v /\ dict_get sd' k = Some v) /\
  (forall k v, W k v -> exists v', W k v' /\ dict_get sd' k = Some v').

Fixpoint tree_ind' (P : tree -> Prop)
    (HNone : P TNone)
    (HLeaf : forall a, P (Leaf a))
    (HNamed : forall na, P (Named na))
    (HList : forall items, Forall P items -> P (TList items))
    (HDict : forall items, Forall (fun kv => P (snd kv)) items -> P (TDict items))
    (HModule : forall km fields, Forall (fun f => P (snd f)) fields -> P (TModule km fields))
    (t : tree) {struct t} : P t :=
  let rec := tree_ind' P HNone HLeaf HNamed HList HDict HModule in
  match t with
  | TNone => HNone
  | Leaf a => HLeaf a
  | Named na => HNamed na
  | TList items =>
      HList items
        ((fix go (l : list tree) : Forall P l :=
            match l with
            | [] => Forall_nil _
            | x :: r => Forall_cons _ (rec x) (go r)
            end) items)
  | TDict items =>
      HDict items
        ((fix go (l : list (string * tree)) : Forall (fun kv => P (snd kv)) l :=
            match l with
            | [] => Forall_nil _
            | x :: r => Forall_cons _ (rec (snd x)) (go r)
            end) items)
  | TModule km fields =>
      HModule km fields
        ((fix go (l : list (string * bool * tree)) : Forall (fun f => P (snd f)) l :=
            match l with
            | [] => Forall_nil _
            | x :: r => Forall_cons _ (rec (snd x)) (go r)
            end) fields)
  end.



(** The list gathered so far for a block key, and one of its slots. *)
Definition group (ttv : dict (list value)) (bk : string) : list value :=
  match dict_get ttv bk with
  | Some l => l
  | None => []
  end.

Definition slot (ttv : dict (list value)) (bk : string) (i : nat) : value :=
  nth i (group ttv bk) VNone.

(** The list after the [extend] of a step. *)
Definition extended (tensors : list value) (block_idx : nat) : list value :=
  if length tensors <=? block_idx
  then tensors ++ repeat VNone (block_idx - length tensors + 1)
  else tensors.

Definition assign (d : StateDict) (kv : string * value) : StateDict :=
  dict_set d (fst kv) (snd kv).

(** No key is bound to two different values. *)
Definition functional (L : list (string * value)) : Prop :=
  forall k v v', In (k, v) L -> In (k, v') L -> v = v'.

(** The rows an iteration over an array yields. *)
Definition rows_of (a : ndarray) : list ndarray :=
  match shape a with
  | [] => []
  | n :: s => map (mkArr (kind a) s) (rows n (prod_shape s) (data a))
  end.

(** What [numpy.stack] gives when it succeeds. *)
Definition stacked (l : list value) : ndarray :=
  mkArr Numpy
    (length l :: match l with v :: _ => shape (asanyarray v) | [] => [] end)
    (concat (map data (map asanyarray l))).

(** The assignments one entry of the dictionary gives rise to. *)
Definition expand (prefix : string) (kv : string * value) : list (string * value) :=
  match snd kv with
  | VArr a =>
      if startswith (fst kv) prefix then
        flat_mapi
          (fun i row =>
             [((prefix ++ str i ++ "." ++
                string_drop (String.length prefix) (fst kv))%string, VArr row)])
          0 (rows_of a)
      else [kv]
  | VNone => [kv]
  end.

Definition passes (esc : string) (kv : string * value) : bool :=
  match pattern_match esc (fst kv) with
  | None => true
  | Some _ => false
  end.

Definition unwrap (v : value) : ndarray :=
  match v with
  | VArr a => a
  | VNone => mkArr Numpy [] [NoneObj]
  end.

Definition vec (l : list Z) : ndarray := mkArr Numpy [length l] (map Num l).


(** A small model: a module with a renamed field, a static field, a list
    and a mapping. *)
Definition sample_tree (x y z w : Z) : tree :=
  TModule [("wte", Some "embed")]
    [("wte", false, Named (mkNamed (VArr (vec [x; y])) [mkAxis "vocab" 2]));
     ("config", true, TNone);
     ("blocks", false, TList [Leaf (vec [z]); TDict [("ln", Leaf (vec [w]))]])].



(** A module whose renamed field meets a field that bears the foreign
    name itself. *)
Definition shadowing_module : tree :=
  TModule [("field_a", Some "foreign_name")]
    [("field_a", false, Leaf (vec [1%Z])); ("foreign_name", false, Leaf (vec [2%Z]))].


Definition newline_key (c : string) : string :=
  ("p.0.a" ++ String newline c)%string.

Definition three_blocks : StateDict :=
  [("blocks.0.w", VArr (vec [1%Z])); ("other", VNone);
   ("blocks.1.w", VArr (vec [2%Z])); ("blocks.2.w", VArr (vec [3%Z]))].

Definition ragged_blocks : StateDict :=
  [("blocks.0.w", VArr (vec [1%Z; 2%Z])); ("blocks.1.w", VArr (vec [3%Z]))].

Definition empty_block : StateDict := [("blocks.w", VArr (mkArr Numpy [0; 2] []))].

Definition newline_block : StateDict :=
  [(("blocks.a" ++ String newline "b")%string, VArr (vec [1%Z]))].

Definition mat (n m : nat) (l : list Z) : ndarray := mkArr Numpy [n; m] (map Num l).

(** The specification's examples: [blocks.w] with a leading axis of size
    4, and [blocks.0.w] to [blocks.3.w]. *)
Definition stacked_example : StateDict :=
  [("blocks.w", VArr (mat 4 2 [1; 2; 3; 4; 5; 6; 7; 8]%Z)); ("wte", VArr (vec [9%Z]))].

Definition unstacked_example : StateDict :=
  [("blocks.0.w", VArr (vec [1; 2]%Z)); ("blocks.1.w", VArr (vec [3; 4]%Z));
   ("wte", VArr (vec [9%Z]));
   ("blocks.2.w", VArr (vec [5; 6]%Z)); ("blocks.3.w", VArr (vec [7; 8]%Z))].

(** A multi-index within the bounds of a shape. *)
Definition in_bounds (idx s : list nat) : Prop := Forall2 lt idx s.

(** * The linear adapter: notions of its proofs, and example layers *)

Module LinearAdapterSpec.
Import LinearAdapter.

(** The coordinates the proofs follow an element with: the two synthetic
    coordinates are what the group coordinates ravel to. *)
Definition good (E : list Axis) (layer : Linear) (sigma : string -> nat) : Prop :=
  inb sigma E /\ inb sigma (In layer) /\ inb sigma (Out layer) /\
  sigma OUT = ravel (axis_sizes (Out layer)) (map sigma (axis_names (Out layer))) /\
  sigma IN = ravel (axis_sizes (In layer)) (map sigma (axis_names (In layer))).

(** The synthetic axes in the order a flag asks for. *)
Definition synthetic (layer : Linear) (out_major : bool) : list Axis :=
  let OUTa := mkAxis OUT (prod_shape (axis_sizes (Out layer))) in
  let INa := mkAxis IN (prod_shape (axis_sizes (In layer))) in
  if out_major then [OUTa; INa] else [INa; OUTa].

Definition emit (prefix : option string) (w : NamedArray) (b : option NamedArray)
  : StateDict :=
  let ret_dict := dict_set [] (key_of prefix "weight") (array w) in
  match b with
  | Some b' => dict_set ret_dict (key_of prefix "bias") (array b')
  | None => ret_dict
  end.

Definition A2 : Axis := mkAxis "A" 2.
Definition B3 : Axis := mkAxis "B" 3.
Definition C2 : Axis := mkAxis "C" 2.

Definition count (n : nat) : list scalar := map (fun i => Num (Z.of_nat i)) (seq 0 n).

(** The layer of the specification's example, [In = (A, B)], [Out = (C,)],
    input-major, with a bias. *)
Definition example_layer : Linear :=
  mkLinear (mkNamed (VArr (mkArr Jax [2; 3; 2] (count 12))) [A2; B3; C2])
           (Some (mkNamed (VArr (mkArr Jax [2] (count 2))) [C2]))
           [A2; B3] [C2] false.


Definition B2 : Axis := mkAxis "B" 2.

(** A layer whose weight holds the output axis between the two input
    axes. *)
Definition interleaved_layer : Linear :=
  mkLinear (mkNamed (VArr (mkArr Jax [2; 2; 2] (count 8))) [A2; C2; B2])
           None [A2; B2] [C2] false.

End LinearAdapterSpec.

(* ===================================================================== *)
(** * Further notions and examples                                       *)
(* ===================================================================== *)



(** No leaf of the tree is [None] (static fields apart). *)
Fixpoint none_free (t : tree) : bool :=
  match t with
  | TNone => false
  | Leaf _ => true
  | Named _ => true
  | TList items => forallb none_free items
  | TDict items => forallb (fun kv : string * tree => none_free (snd kv)) items
  | TModule _ fields =>
      forallb (fun f : string * bool * tree => snd (fst f) || none_free (snd f)) fields
  end.

(** A dictionary that already holds entries, and one that holds what
    [sample_tree] reads under the prefix [m], besides a foreign key. *)
Definition old_entries : StateDict :=
  [("old", VArr (vec [5%Z])); ("m.embed", VNone)].

Definition sample_dict : StateDict :=
  [("m.embed", VArr (vec [1%Z; 2%Z])); ("m.blocks.0", VArr (vec [3%Z]));
   ("foreign", VNone); ("m.blocks.1.ln", VArr (vec [4%Z]))].

(* ===================================================================== *)
(** * Patching the vocabulary size (examples/convert_gpt2_to_hf.py)      *)
(* ===================================================================== *)

(** [next(i for i, ax in enumerate(axes) if ax.name == "vocab")]; [None]
    when [any(ax.name == "vocab" for ax in axes)] is false. *)
Fixpoint index_of_vocab (axs : list Axis) : option nat :=
  match axs with
  | [] => None
  | ax :: rest =>
      if String.eqb (axis_name ax) "vocab" then Some 0
      else option_map S (index_of_vocab rest)
  end.

Section PatchVocab.

(** The element [jnp.take] yields at an index past the end of the axis: a
    fill value or the clipped element, as its mode decides. *)
Variable out_of_bounds : ndarray -> list nat -> scalar.

(** [jnp.take(inner, jnp.arange(n), axis=ax)]: a device array in which
    the axis [ax] has size [n] and holds the entries [0 .. n-1] of that
    axis. *)
Definition take_arange (inner : ndarray) (n ax : nat) : ndarray :=
  let new_shape := list_set (shape inner) ax n in
  mkArr Jax new_shape
    (map (fun idx =>
            if nth ax idx 0 <? nth ax (shape inner) 0
            then nth (ravel (shape inner) idx) (data inner) NoneObj
            else out_of_bounds inner idx)
         (indices new_shape)).

(** [patch_vocab_size(inner, like)]; [None] stands for the [IndexError]
    of [inner.shape[index_of_vocab]]. *)
Definition patch_vocab_size (inner : ndarray) (like : NamedArray) : option ndarray :=
  match index_of_vocab (axes like) with
  | Some index_of_vocab =>
      let desired_vocab_size :=
        axis_size (nth index_of_vocab (axes like) (mkAxis "" 0)) in
      match nth_error (shape inner) index_of_vocab with
      | Some vocab_size =>
          if vocab_size =? desired_vocab_size then Some inner
          else Some (take_arange inner desired_vocab_size index_of_vocab)
      | None => None
      end
  | None => Some inner
  end.

End PatchVocab.

(** An embedding matrix whose vocabulary axis was rounded up from 3 to 4,
    and the named array that tells its true size. *)
Definition rounded_embedding : ndarray :=
  mkArr Jax [4; 2] (map Num [1; 2; 3; 4; 5; 6; 0; 0]%Z).

Definition embedding_like : NamedArray :=
  mkNamed VNone [mkAxis "vocab" 3; mkAxis "embed" 2].

Definition fill_none (_ : ndarray) (_ : list nat) : scalar := NoneObj.

(* ===================================================================== *)
(** * Saving a state dict (compat/torch_serialization.py)                *)
(* ===================================================================== *)


Section Save.

(** The two library calls either return or raise: [save_file] on a path it
    cannot write or a value it cannot serialise, [sync_global_devices]
    when the processes disagree.  Which of the two happens is theirs to
    say: [Some e] stands for the exception [e]. *)
Variable save_file : StateDict -> string -> dict string -> option exn.
Variable sync_global_devices : string -> option exn.



End Save.

(* ===================================================================== *)
(** * Building the attention module (models/nomlp_gpt2.py)               *)
(* ===================================================================== *)

Module NoMlpGpt2.

Section Init.

(** JAX's random keys, and [jrandom.split(key, num)] as the sequence of
    keys that iterating its result yields. *)
Variable PRNGKey : Type.
Variable split : PRNGKey -> nat -> list PRNGKey.

(** [hnn.Linear(In=, Out=, key=, use_bias=)] and [hnn.Dropout(pdrop)]. *)
Variable Linear : Type.
Variable Dropout : Type.
Variable float : Type.
Variable Linear_init : list Axis -> list Axis -> PRNGKey -> bool -> Linear.
Variable Dropout_init : float -> Dropout.

Record NoMlpGpt2Attention : Type := mkAttention {
  c_attn : Linear;
  c_proj : Linear;
  dropout : Dropout;
  c_v_ff : Linear;
  c_v_gate : Linear;
  SeqLen : Axis;
  HeadDim : Axis;
  Heads : Axis;
  Qkv : Axis;
  KeySeqLen : Axis;
  scale_by_inverse_layer_idx : bool;
  upcast : bool
}.

(** [NoMlpGpt2Attention.__init__]: unpacking the split into four names
    raises [ValueError] unless it yields four keys. *)
Definition NoMlpGpt2Attention_init
    (SeqLen KeySeqLen Embed Heads HeadDim : Axis) (dropout_prob : float)
    (scale_by_inverse_layer_idx upcast : bool) (key : PRNGKey) (use_bias : bool)
  : result NoMlpGpt2Attention :=
  let Qkv := mkAxis "qkv" 3 in
  match split key 2 with
  | [k_c; k_proj; k_v_ff; k_v_g] =>
      let c_attn := Linear_init [Embed] [Qkv; Heads; HeadDim] k_c use_bias in
      let c_proj := Linear_init [Heads; HeadDim] [Embed] k_proj use_bias in
      let dropout := Dropout_init dropout_prob in
      let c_v_ff := Linear_init [Embed] [Embed] k_v_ff false in
      let c_v_gate := Linear_init [Embed] [Embed] k_v_g false in
      OK (mkAttention c_attn c_proj dropout c_v_ff c_v_gate
            SeqLen HeadDim Heads Qkv KeySeqLen scale_by_inverse_layer_idx upcast)
  | _ => Raise ValueError
  end.

End Init.

End NoMlpGpt2.






(** A dictionary in which a plain key has the name that stacking gives the
    layers of [blocks.0.w]. *)
Definition shadowed_blocks : StateDict :=
  [("blocks.w", VArr (vec [9%Z])); ("blocks.0.w", VArr (vec [1%Z]));
   ("wte", VArr (vec [2%Z]))].


(* ===================================================================== *)
(** * Properties                                                         *)
(* ===================================================================== *)

(** ** Dictionaries *)

Lemma dict_get_set {V} (d : dict V) k v k' :
  dict_get (dict_set d k v) k' =
  if String.eqb k k' then Some v else dict_get d k'.
Proof.
  induction d as [|[k0 v0] d IH]; simpl.
  - reflexivity.
  - destruct (String.eqb k0 k) eqn:E0; simpl.
    + apply String.eqb_eq in E0. subst k0.
      destruct (String.eqb k k'); reflexivity.
    + destruct (String.eqb k0 k') eqn:E1.
      * apply String.eqb_eq in E1. subst k0.
        rewrite String.eqb_sym, E0. reflexivity.
      * exact IH.
Qed.

Lemma dict_get_set_eq {V} (d : dict V) k v :
  dict_get (dict_set d k v) k = Some v.
Proof. rewrite dict_get_set, String.eqb_refl. reflexivity. Qed.

Lemma dict_get_set_ne {V} (d : dict V) k v k' :
  k <> k' -> dict_get (dict_set d k v) k' = dict_get d k'.
Proof.
  intros H. rewrite dict_get_set.
  destruct (String.eqb k k') eqn:E; [apply String.eqb_eq in E; contradiction | reflexivity].
Qed.

Lemma dict_get_In {V} (d : dict V) k v :
  dict_get d k = Some v -> In (k, v) d.
Proof.
  induction d as [|[k0 v0] d IH]; simpl; [discriminate|].
  destruct (String.eqb k0 k) eqn:E.
  - apply String.eqb_eq in E. intros [= <-]. left. now subst.
  - intros H. right. auto.
Qed.

Lemma dict_get_None {V} (d : dict V) k :
  dict_get d k = None <-> ~ In k (dict_keys d).
Proof.
  induction d as [|[k0 v0] d IH]; simpl.
  - tauto.
  - destruct (String.eqb k0 k) eqn:E.
    + apply String.eqb_eq in E. split; [discriminate | intros H; exfalso; auto].
    + apply String.eqb_neq in E. rewrite IH. tauto.
Qed.

Lemma dict_get_NoDup {V} (d : dict V) k v :
  NoDup (dict_keys d) -> In (k, v) d -> dict_get d k = Some v.
Proof.
  induction d as [|[k0 v0] d IH]; simpl; [tauto|].
  intros Hnd [H|H].
  - injection H as -> ->. now rewrite String.eqb_refl.
  - inversion Hnd as [|? ? Hni Hnd']; subst.
    destruct (String.eqb k0 k) eqn:E.
    + apply String.eqb_eq in E. subst k0. exfalso. apply Hni.
      change k with (fst (k, v)). now apply in_map.
    + auto.
Qed.

Lemma dict_set_fresh {V} (d : dict V) k v :
  dict_get d k = None -> dict_set d k v = d ++ [(k, v)].
Proof.
  induction d as [|[k0 v0] d IH]; simpl; [reflexivity|].
  destruct (String.eqb k0 k); [discriminate|].
  intros H. now rewrite IH.
Qed.

Lemma dict_keys_set_NoDup {V} (d : dict V) k v :
  NoDup (dict_keys d) -> NoDup (dict_keys (dict_set d k v)).
Proof.
  induction d as [|[k0 v0] d IH]; simpl; intros H.
  - constructor; [simpl; tauto | constructor].
  - inversion H as [|? ? Hni Hnd]; subst.
    destruct (String.eqb k0 k) eqn:E; simpl.
    + now constructor.
    + constructor; [|auto].
      apply String.eqb_neq in E.
      apply dict_get_None. rewrite dict_get_set_ne by auto.
      now apply dict_get_None.
Qed.

(** ** The two iterators *)


Lemma traverse_inv {A B} (f : nat -> A -> result B) (l : list A) (l' : list B) i :
  traverse f i l = OK l' ->
  length l = length l' /\
  forall j x, nth_error l j = Some x ->
    exists y, nth_error l' j = Some y /\ f (i + j) x = OK y.
Proof.
  revert l' i. induction l as [|x l IH]; intros l' i; simpl.
  - intros [= <-]. split; [reflexivity|]. intros [|j] x; discriminate.
  - destruct (f i x) as [y|] eqn:Fx; simpl; [|discriminate].
    destruct (traverse f (S i) l) as [r|] eqn:Tr; simpl; [|discriminate].
    intros [= <-]. destruct (IH _ _ Tr) as [Hlen Hn]. split; [simpl; lia|].
    intros [|j] x0; simpl.
    + intros [= <-]. exists y. now rewrite Nat.add_0_r.
    + intros Hx. destruct (Hn j x0 Hx) as [y0 [H1 H2]]. exists y0.
      now replace (i + S j) with (S i + j) by lia.
Qed.

Lemma writes_iff (W W' : string -> value -> Prop) sd sd' :
  (forall k v, W k v <-> W' k v) -> writes W sd sd' -> writes W' sd sd'.
Proof.
  intros E [Ha Hb]. split.
  - intros k. destruct (Ha k) as [H|[v [H1 H2]]]; [now left|].
    right. exists v. split; [now apply E | assumption].
  - intros k v Hw. apply E in Hw. destruct (Hb k v Hw) as [v' [H1 H2]].
    exists v'. split; [now apply E | assumption].
Qed.

Lemma writes_nothing sd : writes (fun _ _ => False) sd sd.
Proof. split; [now left | intros k v []]. Qed.

Lemma writes_one sd k v :
  writes (fun k' v' => k' = k /\ v' = v) sd (dict_set sd k v).
Proof.
  split.
  - intros k'. rewrite dict_get_set. destruct (String.eqb k k') eqn:E.
    + apply String.eqb_eq in E. right. exists v. auto.
    + now left.
  - intros k' v' [-> ->]. exists v. split; [auto | apply dict_get_set_eq].
Qed.

Lemma for_each_writes {A} (f : nat -> A -> StateDict -> upd)
    (Ws : nat -> A -> string -> value -> Prop) (l : list A) :
  forall i sd sd',
  (forall j x s s', nth_error l j = Some x ->
     f (i + j) x s = (s', None) -> writes (Ws (i + j) x) s s') ->
  for_each f i l sd = (sd', None) ->
  writes (fun k v => exists j x, nth_error l j = Some x /\ Ws (i + j) x k v) sd sd'.
Proof.
  induction l as [|x l IH]; intros i sd sd' Hstep; simpl.
  - intros [= <-]. split; [now left|].
    intros k v [[|j] [x [H _]]]; discriminate.
  - destruct (f i x sd) as [sd1 [e|]] eqn:Fx; [discriminate|].
    intros Hrest.
    assert (H1 : writes (Ws i x) sd sd1).
    { specialize (Hstep 0 x sd sd1 eq_refl). rewrite Nat.add_0_r in Hstep. auto. }
    assert (H2 := IH (S i) sd1 sd').
    assert (Hstep' : forall j x0 s s', nth_error l j = Some x0 ->
               f (S i + j) x0 s = (s', None) -> writes (Ws (S i + j) x0) s s').
    { intros j x0 s s' Hn Hf. replace (S i + j) with (i + S j) in * by lia.
      now apply Hstep. }
    specialize (H2 Hstep' Hrest). clear Hstep'.
    destruct H1 as [H1a H1b], H2 as [H2a H2b]. split.
    + intros k. destruct (H2a k) as [E|[v [[j [x0 [Hn Hw]]] Hg]]].
      * destruct (H1a k) as [E1|[v [Hw Hg]]].
        -- left. congruence.
        -- right. exists v. split; [|congruence].
           exists 0, x. rewrite Nat.add_0_r. auto.
      * right. exists v. split; [|assumption].
        exists (S j), x0. split; [exact Hn|]. now replace (i + S j) with (S i + j) by lia.
    + intros k v [[|j] [x0 [Hn Hw]]]; simpl in Hn.
      * injection Hn as <-. rewrite Nat.add_0_r in Hw.
        destruct (H1b k v Hw) as [v1 [Hw1 Hg1]].
        destruct (H2a k) as [E|[v2 [[j [x0 [Hn Hw2]]] Hg]]].
        -- exists v1. split; [|congruence]. exists 0, x. rewrite Nat.add_0_r. auto.
        -- exists v2. split; [|assumption]. exists (S j), x0.
           split; [exact Hn|]. now replace (i + S j) with (S i + j) by lia.
      * destruct (H2b k v) as [v2 [[j' [x' [Hn' Hw']]] Hg]].
        { exists j, x0. split; [exact Hn|]. now replace (S i + j) with (i + S j) by lia. }
        exists v2. split; [|assumption]. exists (S j'), x'.
        split; [exact Hn'|]. now replace (i + S j') with (S i + j') by lia.
Qed.

Lemma for_each_total {A} (f : nat -> A -> StateDict -> upd) (l : list A) :
  forall i,
  (forall j x s, nth_error l j = Some x -> exists s', f (i + j) x s = (s', None)) ->
  forall sd, exists sd', for_each f i l sd = (sd', None).
Proof.
  induction l as [|x l IH]; intros i H sd; simpl.
  - now exists sd.
  - destruct (H 0 x sd eq_refl) as [s1 E]. rewrite Nat.add_0_r in E. rewrite E.
    apply IH. intros j x0 s Hn. replace (S i + j) with (i + S j) by lia. now apply (H (S j)).
Qed.

(** ** Induction on module trees *)

(** ** The codec: what serialization writes and what deserialization reads *)

Lemma In_flat_mapi {A B} (f : nat -> A -> list B) (l : list A) : forall i y,
  In y (flat_mapi f i l) <->
  exists j x, nth_error l j = Some x /\ In y (f (i + j) x).
Proof.
  induction l as [|x l IH]; intros i y; simpl.
  - split; [tauto | intros [[|j] [x [H _]]]; discriminate].
  - rewrite in_app_iff, IH. split.
    + intros [H | [j [x0 [Hn Hy]]]].
      * exists 0, x. rewrite Nat.add_0_r. auto.
      * exists (S j), x0. replace (i + S j) with (S i + j) by lia. auto.
    + intros [[|j] [x0 [Hn Hy]]]; simpl in Hn.
      * injection Hn as <-. rewrite Nat.add_0_r in Hy. auto.
      * right. exists j, x0. replace (S i + j) with (i + S j) by lia. auto.
Qed.



Lemma update_writes : forall t sd sd' p,
  update_state_dict_with_jax_tree t sd p = (sd', None) ->
  writes (leaf_at t p) sd sd'.
Proof.
  induction t as [|a|na|items IH|items IH|km fields IH] using tree_ind';
    intros sd sd' p Hu; simpl in Hu.
  - destruct p; [|discriminate]. injection Hu as <-.
    apply writes_iff with (W := fun _ _ => False); [|apply writes_nothing].
    intros k v. unfold leaf_at. simpl. tauto.
  - destruct p as [k0|]; [|discriminate]. injection Hu as <-.
    apply writes_iff with (W := fun k' v' => k' = k0 /\ v' = VArr a);
      [|apply writes_one].
    intros k v. unfold leaf_at. simpl. split.
    + intros [-> ->]. auto.
    + intros [H|[]]. injection H as -> ->. auto.
  - destruct p as [k0|]; [|discriminate]. injection Hu as <-.
    apply writes_iff with (W := fun k' v' => k' = k0 /\ v' = array na);
      [|apply writes_one].
    intros k v. unfold leaf_at. simpl. split.
    + intros [-> ->]. auto.
    + intros [H|[]]. injection H as -> ->. auto.
  - apply for_each_writes
      with (Ws := fun i c => leaf_at c (apply_prefix p (Some (str i)))) in Hu.
    + eapply writes_iff; [|exact Hu]. intros k v. unfold leaf_at. simpl.
      now rewrite In_flat_mapi.
    + intros j x s s' Hn Hf. rewrite Forall_forall in IH.
      apply (IH x); [eapply nth_error_In; eauto | exact Hf].
  - apply for_each_writes
      with (Ws := fun _ (kv : string * tree) =>
                    leaf_at (snd kv) (apply_prefix p (Some (fst kv)))) in Hu.
    + eapply writes_iff; [|exact Hu]. intros k v. unfold leaf_at. simpl.
      now rewrite In_flat_mapi.
    + intros j [k0 c] s s' Hn Hf. rewrite Forall_forall in IH.
      apply (IH (k0, c)); [eapply nth_error_In; eauto | exact Hf].
  - apply for_each_writes
      with (Ws := fun _ (f : string * bool * tree) k v =>
                    In (Some k, v)
                      (if snd (fst f) then []
                       else leaves (snd f)
                              (apply_prefix p (key_map_get km (fst (fst f)))))) in Hu.
    + eapply writes_iff; [|exact Hu]. intros k v. unfold leaf_at. simpl.
      now rewrite In_flat_mapi.
    + intros j [[name [|]] c] s s' Hn Hf; simpl in *.
      * injection Hf as <-. apply writes_nothing.
      * rewrite Forall_forall in IH.
        apply (IH (name, false, c)); [eapply nth_error_In; eauto | exact Hf].
Qed.











Lemma for_each_fail {A} (f : nat -> A -> StateDict -> upd) (l : list A) :
  forall i j x,
  nth_error l j = Some x ->
  (forall s, exists s' e, f (i + j) x s = (s', Some e)) ->
  forall sd, exists sd' e, for_each f i l sd = (sd', Some e).
Proof.
  induction l as [|x0 l IH]; intros i [|j] x Hn Hf sd; simpl in *; try discriminate.
  - injection Hn as ->. destruct (Hf sd) as [s' [e E]].
    rewrite Nat.add_0_r in E. rewrite E. eauto.
  - destruct (f i x0 sd) as [sd1 [e|]]; [eauto|].
    apply (IH (S i) j x Hn).
    intros s. replace (S i + j) with (i + S j) by lia. apply Hf.
Qed.

Lemma traverse_fail {A B} (f : nat -> A -> result B) (l : list A) :
  forall i j x,
  nth_error l j = Some x ->
  (exists e, f (i + j) x = Raise e) ->
  exists e, traverse f i l = Raise e.
Proof.
  induction l as [|x0 l IH]; intros i [|j] x Hn Hf; simpl in *; try discriminate.
  - injection Hn as ->. destruct Hf as [e E].
    rewrite Nat.add_0_r in E. rewrite E. simpl. eauto.
  - destruct (f i x0) as [y|e]; simpl; [|eauto].
    destruct (IH (S i) j x Hn) as [e E].
    + replace (S i + j) with (i + S j) by lia. exact Hf.
    + rewrite E. simpl. eauto.
Qed.

Lemma update_null_prefix : forall t p v,
  In (None, v) (leaves t p) ->
  forall sd, exists sd' e, update_state_dict_with_jax_tree t sd p = (sd', Some e).
Proof.
  induction t as [|a|na|items IH|items IH|km fields IH] using tree_ind';
    intros p v Hin; simpl in *.
  - contradiction.
  - destruct Hin as [[= -> _]|[]]. eauto.
  - destruct Hin as [[= -> _]|[]]. eauto.
  - apply In_flat_mapi in Hin. destruct Hin as [j [x [Hn Hx]]].
    apply for_each_fail with (j := j) (x := _) (1 := Hn). rewrite Forall_forall in IH.
    apply (IH x (nth_error_In _ _ Hn) _ _ Hx).
  - apply In_flat_mapi in Hin. destruct Hin as [j [[k c] [Hn Hx]]].
    apply for_each_fail with (j := j) (x := _) (1 := Hn). rewrite Forall_forall in IH.
    apply (IH (k, c) (nth_error_In _ _ Hn) _ _ Hx).
  - apply In_flat_mapi in Hin. destruct Hin as [j [[[name [|]] c] [Hn Hx]]];
      simpl in Hx; [contradiction|].
    apply for_each_fail with (j := j) (x := _) (1 := Hn). rewrite Forall_forall in IH.
    apply (IH (name, false, c) (nth_error_In _ _ Hn) _ _ Hx).
Qed.

Lemma from_null_prefix : forall t p v sd,
  In (None, v) (leaves t p) ->
  exists e, jax_tree_from_state_dict t sd p = Raise e.
Proof.
  induction t as [|a|na|items IH|items IH|km fields IH] using tree_ind';
    intros p v sd Hin; simpl in *.
  - contradiction.
  - destruct Hin as [[= -> _]|[]]. eauto.
  - destruct Hin as [[= -> _]|[]]. eauto.
  - apply In_flat_mapi in Hin. destruct Hin as [j [x [Hn Hx]]].
    rewrite Forall_forall in IH.
    lazymatch goal with |- context [traverse ?f 0 items] =>
      destruct (@traverse_fail _ _ f items 0 j _ Hn) as [e E] end.
    + apply (IH x (nth_error_In _ _ Hn) _ _ sd Hx).
    + rewrite E. simpl. eauto.
  - apply In_flat_mapi in Hin. destruct Hin as [j [[k c] [Hn Hx]]].
    rewrite Forall_forall in IH.
    lazymatch goal with |- context [traverse ?f 0 items] =>
      destruct (@traverse_fail _ _ f items 0 j _ Hn) as [e E] end.
    + destruct (IH (k, c) (nth_error_In _ _ Hn) _ _ sd Hx) as [e E].
      simpl in E. simpl. rewrite E. simpl. eauto.
    + rewrite E. simpl. eauto.
  - apply In_flat_mapi in Hin. destruct Hin as [j [[[name [|]] c] [Hn Hx]]];
      simpl in Hx; [contradiction|].
    rewrite Forall_forall in IH.
    lazymatch goal with |- context [traverse ?f 0 fields] =>
      destruct (@traverse_fail _ _ f fields 0 j _ Hn) as [e E] end.
    + destruct (IH (name, false, c) (nth_error_In _ _ Hn) _ _ sd Hx) as [e E].
      simpl in E. simpl. rewrite E. simpl. eauto.
    + rewrite E. simpl. eauto.
Qed.

(** ** Subtrees and the prefixes they are reached with *)






(** ** Strings and the key pattern *)

Lemma append_assoc (a b c : string) : ((a ++ b) ++ c = a ++ (b ++ c))%string.
Proof. induction a as [|x a IH]; simpl; [reflexivity | now rewrite IH]. Qed.

Lemma length_append (a b : string) :
  String.length (a ++ b) = String.length a + String.length b.
Proof. induction a as [|x a IH]; simpl; [reflexivity | now rewrite IH]. Qed.

Lemma startswith_app p r : startswith (p ++ r) p = true.
Proof.
  unfold startswith. induction p as [|c p IH]; simpl.
  - now destruct r.
  - destruct (ascii_dec c c); [exact IH | contradiction].
Qed.

Lemma startswith_split k p :
  startswith k p = true -> k = (p ++ string_drop (String.length p) k)%string.
Proof.
  unfold startswith. revert k. induction p as [|c p IH]; intros k H.
  - reflexivity.
  - destruct k as [|c' k]; simpl in H; [discriminate H|].
    destruct (ascii_dec c c') as [->|]; [|discriminate H].
    simpl. now rewrite <- IH.
Qed.

Lemma startswith_iff k p : startswith k p = true <-> exists r, k = (p ++ r)%string.
Proof.
  split.
  - intros H. eexists. now apply startswith_split.
  - intros [r ->]. apply startswith_app.
Qed.

Lemma string_drop_app p r : string_drop (String.length p) (p ++ r) = r.
Proof. induction p as [|c p IH]; simpl; [now destruct r | exact IH]. Qed.

Lemma append_inv_head (p a b : string) : (p ++ a = p ++ b)%string -> a = b.
Proof. induction p as [|c p IH]; simpl; [auto | intros [= H]; auto]. Qed.

Lemma span_digits_spec s :
  s = (fst (span_digits s) ++ snd (span_digits s))%string /\
  all_digits (fst (span_digits s)) = true /\
  match snd (span_digits s) with
  | EmptyString => True
  | String c _ => is_digit c = false
  end.
Proof.
  induction s as [|c s IH]; simpl.
  - auto.
  - destruct (is_digit c) eqn:E.
    + destruct (span_digits s) as [d r]. simpl in *.
      destruct IH as [H1 [H2 H3]]. rewrite E, H2. split; [now rewrite <- H1 | auto].
    + simpl. rewrite E. auto.
Qed.

Lemma span_digits_app d c r :
  all_digits d = true -> is_digit c = false ->
  span_digits (d ++ String c r) = (d, String c r).
Proof.
  intros Hd Hc. induction d as [|x d IH]; simpl in *.
  - now rewrite Hc.
  - apply andb_true_iff in Hd. destruct Hd as [Hx Hd].
    rewrite Hx, (IH Hd). reflexivity.
Qed.

Lemma upto_newline_id s : no_newline s = true -> upto_newline s = s.
Proof.
  induction s as [|c s IH]; simpl; [reflexivity|].
  intros H. apply andb_true_iff in H. destruct H as [Hc Hs].
  apply negb_true_iff in Hc. rewrite Hc. now rewrite IH.
Qed.

Lemma no_newline_app a b :
  no_newline (a ++ b) = no_newline a && no_newline b.
Proof.
  induction a as [|c a IH]; simpl; [reflexivity|].
  rewrite IH. now rewrite andb_assoc.
Qed.

Lemma dot_not_digit : is_digit "."%char = false.
Proof. reflexivity. Qed.

(** What a match says about the key. *)
Lemma pattern_match_inv esc k g1 rest :
  pattern_match esc k = Some (g1, rest) ->
  exists tail,
    k = (esc ++ "." ++ g1 ++ "." ++ tail)%string /\
    rest = upto_newline tail /\
    all_digits g1 = true /\ g1 <> EmptyString.
Proof.
  unfold pattern_match.
  destruct (startswith k (esc ++ ".")) eqn:Hs; [|discriminate].
  apply startswith_split in Hs. rewrite length_append in Hs. simpl in Hs.
  set (r := string_drop (String.length esc + 1) k) in *.
  destruct (span_digits_spec r) as [H1 [H2 _]].
  destruct (span_digits r) as [d a]. simpl in *.
  destruct d as [|c d]; [discriminate|].
  destruct a as [|c' a]; [discriminate|].
  destruct c' as [[|] [|] [|] [|] [|] [|] [|] [|]]; try discriminate.
  intros [= <- <-]. exists a. split.
  - rewrite Hs, H1. now rewrite append_assoc.
  - split; [reflexivity|]. split; [exact H2 | discriminate].
Qed.

Lemma pattern_match_build esc g1 tail :
  all_digits g1 = true -> g1 <> EmptyString ->
  pattern_match esc (esc ++ "." ++ g1 ++ "." ++ tail) = Some (g1, upto_newline tail).
Proof.
  intros Hd Hne. unfold pattern_match.
  rewrite <- (append_assoc esc "." (g1 ++ "." ++ tail)).
  rewrite startswith_app.
  replace (String.length esc + 1) with (String.length (esc ++ "."))
    by (rewrite length_append; reflexivity).
  rewrite string_drop_app.
  change (g1 ++ "." ++ tail)%string with (g1 ++ String "." tail)%string.
  rewrite (span_digits_app g1 "."%char tail Hd dot_not_digit).
  destruct g1; [contradiction | reflexivity].
Qed.

(** ** Decimal numerals *)

Lemma string_of_uint_digits d : all_digits (NilEmpty.string_of_uint d) = true.
Proof. induction d; simpl; auto. Qed.

Lemma revapp_nonnil d d' : d' <> Decimal.Nil -> Decimal.revapp d d' <> Decimal.Nil.
Proof.
  revert d'. induction d; intros d' H; simpl; auto; apply IHd; discriminate.
Qed.

Lemma little_succ_nonnil d : Decimal.Little.succ d <> Decimal.Nil.
Proof. destruct d; simpl; discriminate. Qed.

Lemma to_little_uint_nonnil n : forall acc,
  acc <> Decimal.Nil -> Nat.to_little_uint n acc <> Decimal.Nil.
Proof.
  induction n as [|n IH]; intros acc H; simpl; [exact H|].
  apply IH. apply little_succ_nonnil.
Qed.

Lemma to_uint_nonnil n : Nat.to_uint n <> Decimal.Nil.
Proof.
  unfold Nat.to_uint, Decimal.rev.
  assert (H : Nat.to_little_uint n Decimal.zero <> Decimal.Nil)
    by (apply to_little_uint_nonnil; discriminate).
  destruct (Nat.to_little_uint n Decimal.zero); try contradiction;
    simpl; apply revapp_nonnil; discriminate.
Qed.

Lemma str_digits i : all_digits (str i) = true.
Proof. apply string_of_uint_digits. Qed.

Lemma str_nonempty i : str i <> EmptyString.
Proof.
  unfold str. assert (H := to_uint_nonnil i).
  destruct (Nat.to_uint i); try contradiction; discriminate.
Qed.

Lemma int_str i : int (str i) = i.
Proof. unfold int, str. rewrite NilEmpty.usu. apply Unsigned.of_to. Qed.

Lemma str_inj i j : str i = str j -> i = j.
Proof. intros H. rewrite <- (int_str i), <- (int_str j). now rewrite H. Qed.

(** The key [prefix.i.rest] names the slot [i] of [rest]. *)
Lemma pattern_match_key esc i rest :
  pattern_match esc (esc ++ "." ++ str i ++ "." ++ rest) = Some (str i, upto_newline rest).
Proof. apply pattern_match_build; [apply str_digits | apply str_nonempty]. Qed.

(** Two digit runs that are each followed by a dot and open the same string
    are the same run. *)
Lemma digits_dot_inj d1 d2 r1 r2 :
  all_digits d1 = true -> all_digits d2 = true ->
  (d1 ++ String "." r1 = d2 ++ String "." r2)%string -> d1 = d2 /\ r1 = r2.
Proof.
  intros H1 H2 E.
  assert (E1 := span_digits_app d1 "."%char r1 H1 dot_not_digit).
  assert (E2 := span_digits_app d2 "."%char r2 H2 dot_not_digit).
  rewrite E in E1. rewrite E1 in E2. now injection E2.
Qed.

(** ** The first loop of [stack_state_dict] *)

Arguments stack_step : simpl never.

Lemma length_list_set {A} (l : list A) i v : length (list_set l i v) = length l.
Proof.
  revert i. induction l as [|x l IH]; intros [|i]; simpl; auto.
Qed.

Lemma nth_list_set {A} (l : list A) i j v d :
  i < length l ->
  nth j (list_set l i v) d = if j =? i then v else nth j l d.
Proof.
  revert i j. induction l as [|x l IH]; intros [|i] [|j] H; simpl in *; try lia; auto.
  apply IH. lia.
Qed.

Lemma nth_app_repeat_None (l : list value) n j :
  nth j (l ++ repeat VNone n) VNone = nth j l VNone.
Proof.
  destruct (Nat.lt_ge_cases j (length l)) as [H|H].
  - now apply app_nth1.
  - rewrite app_nth2 by lia. rewrite (nth_overflow l) by lia.
    destruct (Nat.lt_ge_cases (j - length l) n) as [H'|H'].
    + now rewrite nth_repeat_lt.
    + apply nth_overflow. rewrite repeat_length. lia.
Qed.

Lemma extended_length tensors i : i < length (extended tensors i).
Proof.
  unfold extended. destruct (length tensors <=? i) eqn:E.
  - apply Nat.leb_le in E. rewrite length_app, repeat_length. lia.
  - apply Nat.leb_gt in E. exact E.
Qed.

Lemma extended_length_max tensors i :
  length (extended tensors i) = Nat.max (length tensors) (S i).
Proof.
  unfold extended. destruct (length tensors <=? i) eqn:E.
  - apply Nat.leb_le in E. rewrite length_app, repeat_length. lia.
  - apply Nat.leb_gt in E. lia.
Qed.

Lemma extended_nth tensors i j :
  nth j (extended tensors i) VNone = nth j tensors VNone.
Proof.
  unfold extended. destruct (length tensors <=? i); [|reflexivity].
  apply nth_app_repeat_None.
Qed.

Lemma is_VNone_true v : is_VNone v = true <-> v = VNone.
Proof. destruct v; simpl; split; congruence. Qed.

Lemma stack_step_unfold esc k v vd ttv :
  stack_step esc k v (vd, ttv) =
  match pattern_match esc k with
  | Some (g1, bk) =>
      if is_VNone (slot ttv bk (int g1)) then
        OK (vd, dict_set ttv bk (list_set (extended (group ttv bk) (int g1)) (int g1) v))
      else Raise AssertionError
  | None => OK (dict_set vd k v, ttv)
  end.
Proof.
  unfold stack_step, slot, group.
  destruct (pattern_match esc k) as [[g1 bk]|]; [|reflexivity].
  assert (H : forall l : list value,
    (if is_VNone
          (nth (int g1)
             (if length l <=? int g1
              then l ++ repeat VNone (int g1 - length l + 1) else l) VNone)
     then OK (vd, dict_set ttv bk
                    (list_set
                       (if length l <=? int g1
                        then l ++ repeat VNone (int g1 - length l + 1) else l)
                       (int g1) v))
     else Raise AssertionError) =
    (if is_VNone (nth (int g1) l VNone)
     then OK (vd, dict_set ttv bk (list_set (extended l (int g1)) (int g1) v))
     else Raise AssertionError)).
  { intros l. fold (extended l (int g1)). now rewrite extended_nth. }
  destruct (dict_get ttv bk) as [l|]; apply H.
Qed.

Lemma group_set ttv bk l bk' :
  group (dict_set ttv bk l) bk' = if String.eqb bk bk' then l else group ttv bk'.
Proof.
  unfold group. rewrite dict_get_set. now destruct (String.eqb bk bk').
Qed.

(** A successful step on a matching key fills its slot, which was empty,
    and touches no other slot. *)
Lemma stack_step_match esc k v vd ttv g1 bk st' :
  pattern_match esc k = Some (g1, bk) ->
  stack_step esc k v (vd, ttv) = OK st' ->
  slot ttv bk (int g1) = VNone /\
  fst st' = vd /\
  group (snd st') bk = list_set (extended (group ttv bk) (int g1)) (int g1) v /\
  (forall bk', bk' <> bk -> dict_get (snd st') bk' = dict_get ttv bk') /\
  (forall bk' j, slot (snd st') bk' j =
                 if String.eqb bk bk' && (j =? int g1) then v else slot ttv bk' j).
Proof.
  intros Hm. rewrite stack_step_unfold, Hm.
  destruct (is_VNone (slot ttv bk (int g1))) eqn:E; [|discriminate].
  intros [= <-]. simpl. apply is_VNone_true in E.
  split; [exact E|]. split; [reflexivity|]. split.
  - now rewrite group_set, String.eqb_refl.
  - split.
    + intros bk' Hne. apply dict_get_set_ne. congruence.
    + intros bk' j. unfold slot. rewrite group_set.
      destruct (String.eqb bk bk') eqn:Eb; simpl; [|reflexivity].
      apply String.eqb_eq in Eb. subst bk'.
      rewrite nth_list_set by apply extended_length.
      destruct (j =? int g1); [reflexivity | apply extended_nth].
Qed.

Lemma stack_step_nomatch esc k v vd ttv :
  pattern_match esc k = None ->
  stack_step esc k v (vd, ttv) = OK (dict_set vd k v, ttv).
Proof. intros Hm. now rewrite stack_step_unfold, Hm. Qed.



Lemma stack_loop_app esc l1 l2 st :
  stack_loop esc (l1 ++ l2) st =
  (st1 <- stack_loop esc l1 st ;; stack_loop esc l2 st1).
Proof.
  revert st. induction l1 as [|[k v] l1 IH]; intros st; simpl; [reflexivity|].
  destruct (stack_step esc k v st) as [st'|e]; simpl; [apply IH | reflexivity].
Qed.

(** A slot that holds a tensor is never written again: the next key that
    lands on it trips the assertion. *)
Lemma stack_step_keeps esc k v st st' bk i :
  stack_step esc k v st = OK st' ->
  slot (snd st) bk i <> VNone ->
  slot (snd st') bk i = slot (snd st) bk i.
Proof.
  destruct st as [vd ttv]. intros Hs Hne. simpl in *.
  destruct (pattern_match esc k) as [[g1 bk0]|] eqn:Hm.
  - destruct (stack_step_match _ _ _ _ _ _ _ _ Hm Hs) as [H0 [_ [_ [_ H]]]].
    rewrite H. destruct (String.eqb bk0 bk) eqn:Eb; simpl; [|reflexivity].
    destruct (i =? int g1) eqn:Ei; [|reflexivity].
    apply String.eqb_eq in Eb. apply Nat.eqb_eq in Ei. subst. contradiction.
  - rewrite stack_step_nomatch in Hs by exact Hm. now injection Hs as <-.
Qed.

Lemma stack_loop_keeps esc items : forall st st' bk i,
  stack_loop esc items st = OK st' ->
  slot (snd st) bk i <> VNone ->
  slot (snd st') bk i = slot (snd st) bk i.
Proof.
  induction items as [|[k v] items IH]; intros st st' bk i; simpl.
  - now intros [= <-].
  - destruct (stack_step esc k v st) as [st1|] eqn:E; simpl; [|discriminate].
    intros Hl Hne. rewrite <- (stack_step_keeps _ _ _ _ _ _ _ E Hne).
    apply IH; [exact Hl|]. now rewrite (stack_step_keeps _ _ _ _ _ _ _ E Hne).
Qed.

(** Where the content of a slot comes from: a key of the dictionary that
    names the slot. *)
Lemma stack_loop_origin esc items : forall st st',
  stack_loop esc items st = OK st' ->
  forall bk i,
    slot (snd st') bk i = slot (snd st) bk i \/
    exists k, In (k, slot (snd st') bk i) items /\ names_slot esc k bk i.
Proof.
  induction items as [|[k v] items IH]; intros st st'; simpl.
  - intros [= <-]. now left.
  - destruct (stack_step esc k v st) as [st1|] eqn:E; simpl; [|discriminate].
    intros Hl bk i. destruct (IH _ _ Hl bk i) as [H|[k' [Hin Hn]]].
    + rewrite H. destruct st as [vd ttv].
      destruct (pattern_match esc k) as [[g1 bk0]|] eqn:Hm.
      * destruct (stack_step_match _ _ _ _ _ _ _ _ Hm E) as [_ [_ [_ [_ Hs]]]].
        rewrite Hs. destruct (String.eqb bk0 bk) eqn:Eb; simpl; [|now left].
        destruct (i =? int g1) eqn:Ei; [|now left].
        apply String.eqb_eq in Eb. apply Nat.eqb_eq in Ei. subst.
        right. exists k. split; [now left|]. now exists g1.
      * rewrite stack_step_nomatch in E by exact Hm. injection E as <-. now left.
    + right. exists k'. split; [now right | exact Hn].
Qed.

(** The lists only grow. *)
Lemma stack_step_group_length esc k v st st' bk :
  stack_step esc k v st = OK st' ->
  length (group (snd st) bk) <= length (group (snd st') bk).
Proof.
  destruct st as [vd ttv]. intros Hs. simpl.
  destruct (pattern_match esc k) as [[g1 bk0]|] eqn:Hm.
  - destruct (stack_step_match _ _ _ _ _ _ _ _ Hm Hs) as [_ [_ [Hg [Ho _]]]].
    destruct (String.eqb bk0 bk) eqn:Eb.
    + apply String.eqb_eq in Eb. subst bk0.
      rewrite Hg, length_list_set, extended_length_max. lia.
    + apply String.eqb_neq in Eb. unfold group. rewrite Ho by congruence. lia.
  - rewrite stack_step_nomatch in Hs by exact Hm. now injection Hs as <-.
Qed.

(** ** [numpy.stack] and the second loop *)

Lemma shape_eqb_eq s1 s2 : shape_eqb s1 s2 = true <-> s1 = s2.
Proof.
  unfold shape_eqb. revert s2. induction s1 as [|x s1 IH]; intros [|y s2]; simpl;
    try (split; [discriminate | discriminate]).
  - split; reflexivity.
  - specialize (IH s2). split.
    + intros H. apply andb_true_iff in H. destruct H as [Hl H].
      apply andb_true_iff in H. destruct H as [Hxy H].
      apply Nat.eqb_eq in Hxy. subst y. f_equal. apply IH.
      now rewrite Hl, H.
    + intros [= -> ->]. destruct IH as [_ IH]. specialize (IH eq_refl).
      apply andb_true_iff in IH. destruct IH as [Hl H].
      now rewrite Hl, Nat.eqb_refl, H.
Qed.

Lemma numpy_stack_raise l e : numpy_stack l = Raise e -> e = ValueError.
Proof.
  unfold numpy_stack. destruct (map asanyarray l) as [|a0 r].
  - now intros [= <-].
  - destruct (forallb _ _); [discriminate | now intros [= <-]].
Qed.


Lemma vectorize_raise prefix groups : forall vd e,
  vectorize prefix groups vd = Raise e -> e = ValueError.
Proof.
  induction groups as [|[k l] groups IH]; intros vd e; simpl; [discriminate|].
  destruct (numpy_stack l) as [a|e'] eqn:E; simpl.
  - apply IH.
  - intros [= <-]. eapply numpy_stack_raise; eauto.
Qed.


Lemma stack_state_dict_assert sd prefix :
  stack_state_dict sd prefix = Raise AssertionError <->
  stack_loop (escaped prefix) sd ([], []) = Raise AssertionError.
Proof.
  unfold stack_state_dict.
  destruct (stack_loop (escaped prefix) sd ([], [])) as [st|e] eqn:E; simpl.
  - split; [|discriminate]. intros H. apply vectorize_raise in H. discriminate.
  - split; intros [= ->]; reflexivity.
Qed.

Lemma slot_empty bk i : slot [] bk i = VNone.
Proof. unfold slot, group. simpl. now destruct i. Qed.

(** A slot holds a tensor only if a key of the dictionary names it, and
    then it holds the value of such a key. *)
Lemma stack_loop_filled esc sd st bk i :
  stack_loop esc sd ([], []) = OK st ->
  slot (snd st) bk i <> VNone ->
  exists k, In (k, slot (snd st) bk i) sd /\ names_slot esc k bk i.
Proof.
  intros Hl Hne. destruct (stack_loop_origin esc sd _ _ Hl bk i) as [H|H].
  - simpl in H. rewrite slot_empty in H. contradiction.
  - exact H.
Qed.

(** Once a key with a tensor has been through the loop, its slot holds a
    tensor. *)
Lemma stack_loop_fills esc l1 k a l2 st bk i :
  stack_loop esc (l1 ++ (k, VArr a) :: l2) ([], []) = OK st ->
  names_slot esc k bk i ->
  slot (snd st) bk i = VArr a.
Proof.
  intros Hl [g1 [Hm Hi]]. rewrite stack_loop_app in Hl.
  destruct (stack_loop esc l1 ([], [])) as [[vd1 ttv1]|] eqn:E1; simpl in Hl;
    [|discriminate].
  destruct (stack_step esc k (VArr a) (vd1, ttv1)) as [st2|] eqn:E2; simpl in Hl;
    [|discriminate].
  destruct (stack_step_match _ _ _ _ _ _ _ _ Hm E2) as [_ [_ [_ [_ Hs]]]].
  assert (H2 : slot (snd st2) bk i = VArr a).
  { rewrite Hs, String.eqb_refl, Hi, Nat.eqb_refl. reflexivity. }
  rewrite (stack_loop_keeps esc l2 st2 st bk i Hl); [exact H2|].
  rewrite H2. discriminate.
Qed.

(** With canonical numerals and no newline, a slot is named by one key
    only. *)
Lemma names_slot_key esc k bk i :
  names_slot esc k bk i ->
  (forall g1 bk', pattern_match esc k = Some (g1, bk') -> g1 = str (int g1)) ->
  no_newline k = true ->
  k = (esc ++ "." ++ str i ++ "." ++ bk)%string.
Proof.
  intros [g1 [Hm Hi]] Hc Hn.
  assert (Hg := Hc _ _ Hm). rewrite Hi in Hg.
  destruct (pattern_match_inv _ _ _ _ Hm) as [tail [Hk [Hb _]]].
  subst g1. rewrite Hk in Hn.
  rewrite !no_newline_app in Hn.
  repeat (apply andb_true_iff in Hn; destruct Hn as [_ Hn]).
  rewrite upto_newline_id in Hb by exact Hn. now subst bk.
Qed.

(** Keys that spell their slot out, [esc.i.bk] with [i] in canonical
    decimal, never meet on a slot: the first loop runs to its end. *)
Lemma stack_loop_no_assert esc : forall l2 l1 st1,
  stack_loop esc l1 ([], []) = OK st1 ->
  NoDup (dict_keys (l1 ++ l2)) ->
  (forall k v g1 bk, In (k, v) (l1 ++ l2) -> pattern_match esc k = Some (g1, bk) ->
     k = (esc ++ "." ++ str (int g1) ++ "." ++ bk)%string) ->
  exists st, stack_loop esc l2 st1 = OK st.
Proof.
  induction l2 as [|[k v] l2 IH]; intros l1 [vd1 ttv1] H1 Hnd Hc; simpl.
  - eauto.
  - assert (Hstep : exists st2, stack_step esc k v (vd1, ttv1) = OK st2).
    { rewrite stack_step_unfold.
      destruct (pattern_match esc k) as [[g1 bk]|] eqn:Hm; [|eauto].
      destruct (slot ttv1 bk (int g1)) as [|x] eqn:Es; simpl; [eauto|]. exfalso.
      destruct (stack_loop_filled esc l1 (vd1, ttv1) bk (int g1) H1) as [k' [Hin' Hn']].
      { simpl. rewrite Es. discriminate. }
      assert (Hk : In (k, v) (l1 ++ (k, v) :: l2)) by (apply in_elt).
      assert (Hk' : In (k', slot (snd (vd1, ttv1)) bk (int g1)) (l1 ++ (k, v) :: l2))
        by (apply in_or_app; now left).
      assert (E1 := Hc _ _ _ _ Hk Hm).
      destruct Hn' as [g' [Hm' Hi']].
      assert (E2 := Hc _ _ _ _ Hk' Hm'). rewrite Hi' in E2.
      unfold dict_keys in Hnd. rewrite map_app in Hnd. simpl in Hnd.
      apply NoDup_remove_2 in Hnd. apply Hnd. apply in_or_app. left.
      rewrite E1, <- E2. change k' with (fst (k', slot (snd (vd1, ttv1)) bk (int g1))).
      now apply in_map. }
    destruct Hstep as [st2 E2]. rewrite E2. simpl.
    apply (IH (l1 ++ [(k, v)]) st2).
    + rewrite stack_loop_app, H1. simpl. now rewrite E2.
    + now rewrite <- app_assoc.
    + now rewrite <- app_assoc.
Qed.

(** ** Dictionaries built by a run of assignments *)

Lemma fold_assign_notin L : forall nd k,
  ~ In k (map fst L) ->
  dict_get (fold_left assign L nd) k = dict_get nd k.
Proof.
  induction L as [|[k0 v0] L IH]; intros nd k H; simpl in *; [reflexivity|].
  rewrite IH by tauto. unfold assign. simpl. apply dict_get_set_ne. tauto.
Qed.

Lemma fold_assign_in L : forall nd k v,
  functional L -> In (k, v) L ->
  dict_get (fold_left assign L nd) k = Some v.
Proof.
  induction L as [|[k0 v0] L IH]; intros nd k v HF Hin; simpl in *; [contradiction|].
  assert (HF' : functional L).
  { intros a b c Hb Hc. apply (HF a); now right. }
  destruct (in_dec string_dec k (map fst L)) as [Hk|Hk].
  - apply in_map_iff in Hk. destruct Hk as [[k1 v1] [E Hin1]]. simpl in E. subst k1.
    assert (v1 = v) by (apply (HF k); [now right | exact Hin]). subst v1.
    now apply IH.
  - rewrite fold_assign_notin by exact Hk.
    destruct Hin as [[= -> ->]|Hin].
    + unfold assign. simpl. apply dict_get_set_eq.
    + exfalso. apply Hk. change k with (fst (k, v)). now apply in_map.
Qed.

Lemma fold_assign_NoDup L : forall nd,
  NoDup (dict_keys nd) -> NoDup (dict_keys (fold_left assign L nd)).
Proof.
  induction L as [|[k0 v0] L IH]; intros nd H; simpl; [exact H|].
  apply IH. unfold assign. now apply dict_keys_set_NoDup.
Qed.

Lemma fold_assign_get L k v :
  functional L ->
  (dict_get (fold_left assign L []) k = Some v <-> In (k, v) L).
Proof.
  intros HF. split.
  - intros H. destruct (in_dec string_dec k (map fst L)) as [Hk|Hk].
    + apply in_map_iff in Hk. destruct Hk as [[k1 v1] [E Hin1]]. simpl in E. subst k1.
      rewrite (fold_assign_in L [] k v1 HF Hin1) in H. now injection H as <-.
    + rewrite fold_assign_notin in H by exact Hk. discriminate.
  - now apply fold_assign_in.
Qed.

Lemma functional_NoDup (d : StateDict) : NoDup (dict_keys d) -> functional d.
Proof.
  intros H k v v' H1 H2.
  assert (E1 := dict_get_NoDup d k v H H1).
  assert (E2 := dict_get_NoDup d k v' H H2). congruence.
Qed.

Lemma functional_NoDup_gen {V} (d : dict V) :
  NoDup (dict_keys d) -> forall k v v', In (k, v) d -> In (k, v') d -> v = v'.
Proof.
  intros H k v v' H1 H2.
  assert (E1 := dict_get_NoDup d k v H H1).
  assert (E2 := dict_get_NoDup d k v' H H2). congruence.
Qed.

Lemma dict_get_iff_In (d : StateDict) k v :
  NoDup (dict_keys d) -> (dict_get d k = Some v <-> In (k, v) d).
Proof.
  intros H. split; [apply dict_get_In | now apply dict_get_NoDup].
Qed.

(** ** Rows of an array and [numpy.stack] *)

Lemma rows_length n len l : length (rows n len l) = n.
Proof. revert l. induction n; intros l; simpl; auto. Qed.

Lemma concat_rows n len : forall l,
  length l = n * len -> concat (rows n len l) = l.
Proof.
  induction n as [|n IH]; intros l H; simpl in *.
  - destruct l; [reflexivity | discriminate].
  - rewrite IH.
    + apply firstn_skipn.
    + rewrite length_skipn. lia.
Qed.

Lemma rows_concat len (ls : list (list scalar)) :
  Forall (fun x => length x = len) ls ->
  rows (length ls) len (concat ls) = ls.
Proof.
  induction 1 as [|x ls Hx _ IH]; simpl; [reflexivity|].
  assert (E1 : firstn len (x ++ concat ls) = x).
  { rewrite <- Hx, firstn_app, firstn_all, Nat.sub_diag. simpl. apply app_nil_r. }
  assert (E2 : skipn len (x ++ concat ls) = concat ls).
  { rewrite <- Hx, skipn_app, skipn_all, Nat.sub_diag. reflexivity. }
  now rewrite E1, E2, IH.
Qed.

Lemma iterate_rows_of a : shape a <> [] -> iterate a = OK (rows_of a).
Proof.
  unfold iterate, rows_of. destruct (shape a); [contradiction | reflexivity].
Qed.

Lemma rows_of_length a n s : shape a = n :: s -> length (rows_of a) = n.
Proof.
  intros H. unfold rows_of. rewrite H, length_map. apply rows_length.
Qed.

Lemma numpy_stack_ok l a : numpy_stack l = OK a -> a = stacked l.
Proof.
  unfold numpy_stack, stacked. destruct l as [|v l]; simpl; [discriminate|].
  destruct (shape_eqb _ _ && _); [|discriminate].
  intros [= <-]. now rewrite !length_map.
Qed.

Lemma numpy_stack_same_shape (arrs : list ndarray) s :
  arrs <> [] -> Forall (fun a => shape a = s) arrs ->
  numpy_stack (map VArr arrs) =
  OK (mkArr Numpy (length arrs :: s) (concat (map data arrs))).
Proof.
  intros Hne HF. unfold numpy_stack. rewrite map_map.
  destruct arrs as [|a0 arrs]; [contradiction|]. simpl.
  inversion HF as [|? ? H0 HF']; subst.
  assert (E : forallb (fun a => shape_eqb (shape a) (shape (with_kind Numpy a0)))
                (map (fun x => asanyarray (VArr x)) arrs) = true).
  { apply forallb_forall. intros x Hx. apply in_map_iff in Hx.
    destruct Hx as [y [<- Hy]]. simpl. apply shape_eqb_eq.
    rewrite Forall_forall in HF'. now apply HF'. }
  simpl in E. rewrite E.
  assert (E0 : shape_eqb (shape a0) (shape a0) = true) by now apply shape_eqb_eq.
  rewrite E0. simpl. rewrite length_map. do 3 f_equal.
  rewrite map_map. reflexivity.
Qed.

(** Stacking the rows of an array gives the array back, as a host array. *)
Lemma numpy_stack_rows a n s :
  shape a = S n :: s -> wf_array a ->
  numpy_stack (map VArr (rows_of a)) = OK (with_kind Numpy a).
Proof.
  intros Hs Hwf.
  rewrite (numpy_stack_same_shape (rows_of a) s).
  - unfold with_kind. rewrite (rows_of_length a (S n) s Hs), Hs. do 2 f_equal.
    unfold rows_of. rewrite Hs, map_map. simpl. rewrite map_id.
    refine (concat_rows (S n) (prod_shape s) (data a) _).
    unfold wf_array in Hwf. rewrite Hwf, Hs. reflexivity.
  - intros E. apply (f_equal (@length _)) in E.
    rewrite (rows_of_length a (S n) s Hs) in E. discriminate.
  - unfold rows_of. rewrite Hs. apply Forall_forall. intros x Hx.
    apply in_map_iff in Hx. destruct Hx as [y [<- _]]. reflexivity.
Qed.

(** The rows of a stack of arrays of one shape are those arrays, as host
    arrays. *)
Lemma rows_of_stacked (arrs : list ndarray) s :
  Forall (fun a => shape a = s /\ wf_array a) arrs ->
  rows_of (mkArr Numpy (length arrs :: s) (concat (map data arrs)))
  = map (with_kind Numpy) arrs.
Proof.
  intros HF. unfold rows_of. simpl.
  rewrite <- (length_map data arrs).
  rewrite rows_concat.
  - rewrite map_map. apply map_ext_in. intros a Ha.
    rewrite Forall_forall in HF. destruct (HF a Ha) as [Hs _].
    unfold with_kind. now rewrite Hs.
  - apply Forall_forall. intros x Hx. apply in_map_iff in Hx.
    destruct Hx as [a [<- Ha]]. rewrite Forall_forall in HF.
    destruct (HF a Ha) as [Hs Hwf]. unfold wf_array in Hwf. now rewrite Hwf, Hs.
Qed.

(** ** What [unstack_state_dict] assigns *)

Lemma unstack_rows_assign prefix rest vs : forall i nd,
  unstack_rows prefix rest i vs nd =
  fold_left assign
    (flat_mapi (fun j row => [((prefix ++ str j ++ "." ++ rest)%string, VArr row)]) i vs)
    nd.
Proof.
  induction vs as [|v vs IH]; intros i nd; simpl; [reflexivity|].
  now rewrite IH.
Qed.

Lemma unstack_loop_assign prefix items : forall nd,
  (forall k a, In (k, VArr a) items -> startswith k prefix = true -> shape a <> []) ->
  unstack_loop prefix items nd =
  OK (fold_left assign (flat_map (expand prefix) items) nd).
Proof.
  induction items as [|[k v] items IH]; intros nd H; simpl; [reflexivity|].
  rewrite fold_left_app.
  assert (H' : forall k a, In (k, VArr a) items -> startswith k prefix = true ->
                           shape a <> [])
    by (intros k0 a0 Hin; apply H; now right).
  destruct v as [|a]; unfold expand; simpl.
  - now rewrite IH.
  - destruct (startswith k prefix) eqn:E.
    + rewrite iterate_rows_of by (apply (H k a); [now left | exact E]). simpl.
      rewrite unstack_rows_assign. now rewrite IH.
    + simpl. now rewrite IH.
Qed.

(** ** What the first loop of [stack_state_dict] leaves behind *)

Lemma stack_loop_passed esc l : forall st0 st,
  stack_loop esc l st0 = OK st ->
  fst st = fold_left assign (filter (passes esc) l) (fst st0).
Proof.
  induction l as [|[k v] l IH]; intros [vd ttv] st; simpl.
  - now intros [= <-].
  - destruct (stack_step esc k v (vd, ttv)) as [st1|] eqn:E; simpl; [|discriminate].
    intros Hl. rewrite (IH _ _ Hl). unfold passes at 2. simpl.
    destruct (pattern_match esc k) as [[g1 bk]|] eqn:Hm.
    + destruct (stack_step_match _ _ _ _ _ _ _ _ Hm E) as [_ [-> _]]. reflexivity.
    + rewrite stack_step_nomatch in E by exact Hm. now injection E as <-.
Qed.

Lemma stack_loop_keys_NoDup esc l : forall st0 st,
  stack_loop esc l st0 = OK st ->
  NoDup (dict_keys (snd st0)) -> NoDup (dict_keys (snd st)).
Proof.
  induction l as [|[k v] l IH]; intros [vd ttv] st; simpl.
  - now intros [= <-].
  - destruct (stack_step esc k v (vd, ttv)) as [st1|] eqn:E; simpl; [|discriminate].
    intros Hl Hnd. apply (IH _ _ Hl).
    rewrite stack_step_unfold in E.
    destruct (pattern_match esc k) as [[g1 bk]|].
    + destruct (is_VNone _); [|discriminate]. injection E as <-. simpl.
      now apply dict_keys_set_NoDup.
    + now injection E as <-.
Qed.

(** A block key enters the groups only through a key that names one of
    its slots. *)
Lemma stack_loop_group_origin esc l : forall st0 st bk,
  stack_loop esc l st0 = OK st ->
  dict_get (snd st) bk = dict_get (snd st0) bk \/
  exists k v i, In (k, v) l /\ names_slot esc k bk i.
Proof.
  induction l as [|[k v] l IH]; intros [vd ttv] st bk; simpl.
  - intros [= <-]. now left.
  - destruct (stack_step esc k v (vd, ttv)) as [st1|] eqn:E; simpl; [|discriminate].
    intros Hl. destruct (IH _ _ bk Hl) as [H|[k' [v' [i [Hin Hn]]]]].
    + destruct (pattern_match esc k) as [[g1 bk0]|] eqn:Hm.
      * destruct (stack_step_match _ _ _ _ _ _ _ _ Hm E) as [_ [_ [_ [Ho _]]]].
        destruct (string_dec bk bk0) as [->|Hne].
        -- right. exists k, v, (int g1). split; [now left | now exists g1].
        -- left. rewrite H. now apply Ho.
      * rewrite stack_step_nomatch in E by exact Hm. injection E as <-. now left.
    + right. exists k', v', i. split; [now right | exact Hn].
Qed.

(** The length of a group is one more than an index some key names. *)
Lemma stack_loop_last esc l : forall st0 st bk,
  stack_loop esc l st0 = OK st ->
  length (group (snd st) bk) = length (group (snd st0) bk) \/
  exists k v i, In (k, v) l /\ names_slot esc k bk i /\
                length (group (snd st) bk) = S i.
Proof.
  induction l as [|[k v] l IH]; intros [vd ttv] st bk; simpl.
  - intros [= <-]. now left.
  - destruct (stack_step esc k v (vd, ttv)) as [st1|] eqn:E; simpl; [|discriminate].
    intros Hl. destruct (IH _ _ bk Hl) as [H|[k' [v' [i [Hin [Hn Hlen]]]]]].
    + rewrite H. destruct (pattern_match esc k) as [[g1 bk0]|] eqn:Hm.
      * destruct (stack_step_match _ _ _ _ _ _ _ _ Hm E) as [_ [_ [Hg [Ho _]]]].
        destruct (string_dec bk bk0) as [->|Hne].
        -- rewrite Hg, length_list_set, extended_length_max.
           destruct (Nat.max_spec (length (group ttv bk0)) (S (int g1)))
             as [[_ Hmax]|[_ Hmax]]; rewrite Hmax.
           ++ right. exists k, v, (int g1). split; [now left|].
              split; [now exists g1 | reflexivity].
           ++ now left.
        -- left. unfold group. rewrite (Ho bk) by exact Hne. reflexivity.
      * rewrite stack_step_nomatch in E by exact Hm. injection E as <-. now left.
    + right. exists k', v', i. split; [now right | auto].
Qed.

(** ** What the second loop assigns *)

Lemma vectorize_assign prefix groups : forall vd,
  (forall bk l, In (bk, l) groups -> exists a, numpy_stack l = OK a) ->
  vectorize prefix groups vd =
  OK (fold_left assign
        (map (fun g : string * list value =>
                (key_of prefix (fst g), VArr (stacked (snd g)))) groups) vd).
Proof.
  induction groups as [|[bk l] groups IH]; intros vd H; simpl; [reflexivity|].
  destruct (H bk l (or_introl eq_refl)) as [a Ha]. rewrite Ha. simpl.
  rewrite (numpy_stack_ok _ _ Ha) at 1. apply IH.
  intros bk' l' Hin. apply (H bk' l'). now right.
Qed.

Lemma key_of_Some p k : key_of (Some p) k = (p ++ "." ++ k)%string.
Proof. reflexivity. Qed.

(** A key with the dotted prefix does not pass the first loop only if the
    pattern matches; a key without it always passes. *)
Lemma pattern_match_startswith esc k g1 bk :
  pattern_match esc k = Some (g1, bk) -> startswith k (esc ++ ".") = true.
Proof.
  unfold pattern_match. destruct (startswith k (esc ++ ".")); [reflexivity | discriminate].
Qed.

(** ** Keys of the form [prefix.i.rest] *)

Lemma gen_key_inj p' i r i' r' :
  (p' ++ str i ++ "." ++ r = p' ++ str i' ++ "." ++ r')%string -> i = i' /\ r = r'.
Proof.
  intros H. apply append_inv_head in H.
  destruct (digits_dot_inj (str i) (str i') r r' (str_digits i) (str_digits i') H)
    as [E1 E2].
  split; [now apply str_inj | exact E2].
Qed.

Lemma gen_key_match p i r :
  no_newline r = true ->
  pattern_match p ((p ++ ".") ++ str i ++ "." ++ r) = Some (str i, r).
Proof.
  intros H. rewrite append_assoc, pattern_match_key. now rewrite upto_newline_id.
Qed.

Lemma gen_key_names p i r :
  no_newline r = true -> names_slot p ((p ++ ".") ++ str i ++ "." ++ r) r i.
Proof.
  intros H. exists (str i). split; [now apply gen_key_match | apply int_str].
Qed.

Lemma nth_error_map_VArr (l : list ndarray) j x :
  nth_error l j = Some x -> nth j (map VArr l) VNone = VArr x.
Proof.
  revert j. induction l as [|y l IH]; intros [|j]; simpl; try discriminate.
  - now intros [= ->].
  - apply IH.
Qed.

(** ** Unstacking, then stacking *)

Section UnstackThenStack.

Variable p : string.
Variable d : StateDict.

Local Abbreviation p' := (p ++ ".")%string.
Local Abbreviation L := (flat_map (expand p') d).
Local Abbreviation u := (fold_left assign L []).

Hypothesis Hnd : NoDup (dict_keys d).
Hypothesis Hup : forall k v, In (k, v) d -> startswith k p' = true ->
  no_newline (string_drop (String.length p') k) = true /\
  exists a n s, v = VArr a /\ shape a = S n :: s /\ wf_array a.

Lemma us_in_L K V :
  In (K, V) L <->
  (exists k a i row,
     In (k, VArr a) d /\ startswith k p' = true /\
     nth_error (rows_of a) i = Some row /\
     K = (p' ++ str i ++ "." ++ string_drop (String.length p') k)%string /\
     V = VArr row) \/
  (In (K, V) d /\ startswith K p' = false).
Proof.
  rewrite in_flat_map. split.
  - intros [[k v] [Hin Hex]]. unfold expand in Hex. simpl in Hex.
    destruct v as [|a].
    + destruct Hex as [[= <- <-]|[]]. right. split; [exact Hin|].
      destruct (startswith k p') eqn:E; [|reflexivity].
      destruct (Hup _ _ Hin E) as [_ [a [n [s [H _]]]]]. discriminate.
    + destruct (startswith k p') eqn:E.
      * apply In_flat_mapi in Hex. destruct Hex as [j [row [Hn [Hx|[]]]]].
        injection Hx as <- <-. left. exists k, a, j, row. auto.
      * destruct Hex as [[= <- <-]|[]]. right. auto.
  - intros [[k [a [i [row [Hin [Hs [Hn [-> ->]]]]]]]] | [Hin Hs]].
    + exists (k, VArr a). split; [exact Hin|]. unfold expand. simpl. rewrite Hs.
      apply In_flat_mapi. exists i, row. split; [exact Hn|]. simpl. now left.
    + exists (K, V). split; [exact Hin|]. unfold expand. simpl.
      destruct V; [now left|]. rewrite Hs. now left.
Qed.

Lemma us_functional : functional L.
Proof.
  intros K V V' H1 H2. apply us_in_L in H1. apply us_in_L in H2.
  destruct H1 as [[k [a [i [row [Hin [Hs [Hn [HK ->]]]]]]]] | [Hin Hs]];
  destruct H2 as [[k2 [a2 [i2 [row2 [Hin2 [Hs2 [Hn2 [HK2 ->]]]]]]]] | [Hin2 Hs2]].
  - rewrite HK in HK2. apply gen_key_inj in HK2. destruct HK2 as [<- Hr].
    assert (Ek : k = k2).
    { rewrite (startswith_split _ _ Hs), (startswith_split _ _ Hs2). now rewrite Hr. }
    subst k2.
    assert (Ea := functional_NoDup d Hnd _ _ _ Hin Hin2). injection Ea as <-.
    congruence.
  - rewrite HK, startswith_app in Hs2. discriminate.
  - rewrite HK2, startswith_app in Hs. discriminate.
  - exact (functional_NoDup d Hnd _ _ _ Hin Hin2).
Qed.

Lemma us_unstack : unstack_state_dict d (Some p) = OK u.
Proof.
  unfold unstack_state_dict. simpl.
  apply unstack_loop_assign. intros k a Hin Hs.
  destruct (Hup _ _ Hin Hs) as [_ [a' [n [s [[= <-] [Hsh _]]]]]].
  rewrite Hsh. discriminate.
Qed.

Lemma us_u_NoDup : NoDup (dict_keys u).
Proof. apply fold_assign_NoDup. constructor. Qed.

Lemma us_u_in K V : In (K, V) u <-> In (K, V) L.
Proof.
  rewrite <- (dict_get_iff_In u K V us_u_NoDup).
  apply fold_assign_get. apply us_functional.
Qed.

(** A key of the unstacked dictionary that names a slot is the key of a
    row. *)
Lemma us_names K V bk i :
  In (K, V) u -> names_slot p K bk i ->
  exists a row,
    In ((p' ++ bk)%string, VArr a) d /\ nth_error (rows_of a) i = Some row /\
    V = VArr row /\ K = (p' ++ str i ++ "." ++ bk)%string.
Proof.
  intros Hin [g1 [Hm Hi]]. apply us_u_in, us_in_L in Hin.
  destruct Hin as [[k [a [j [row [Hin [Hs [Hn [HK ->]]]]]]]] | [Hin Hs]].
  - destruct (Hup _ _ Hin Hs) as [Hnl _].
    rewrite HK, (gen_key_match p j _ Hnl) in Hm. injection Hm as <- <-.
    rewrite int_str in Hi. subst j.
    exists a, row. rewrite <- (startswith_split _ _ Hs). auto.
  - apply pattern_match_startswith in Hm. congruence.
Qed.

Lemma us_plain K V g1 bk :
  In (K, V) ([] ++ u) -> pattern_match p K = Some (g1, bk) ->
  K = (p ++ "." ++ str (int g1) ++ "." ++ bk)%string.
Proof.
  intros Hin Hm.
  destruct (us_names K V bk (int g1) Hin) as [a [row [_ [_ [_ HK]]]]].
  - now exists g1.
  - rewrite HK. apply append_assoc.
Qed.

Lemma us_row_in bk a i row :
  In ((p' ++ bk)%string, VArr a) d -> nth_error (rows_of a) i = Some row ->
  In ((p' ++ str i ++ "." ++ bk)%string, VArr row) u /\
  names_slot p (p' ++ str i ++ "." ++ bk) bk i.
Proof.
  intros Hin Hn.
  assert (Hs : startswith (p' ++ bk) p' = true) by apply startswith_app.
  destruct (Hup _ _ Hin Hs) as [Hnl _]. rewrite string_drop_app in Hnl.
  split; [|now apply gen_key_names].
  apply us_u_in, us_in_L. left. exists (p' ++ bk)%string, a, i, row.
  rewrite string_drop_app. auto.
Qed.

Section AfterLoop.

Variable vd : StateDict.
Variable ttv : dict (list value).
Hypothesis Hloop : stack_loop p u ([], []) = OK (vd, ttv).

Lemma us_slot bk a i row :
  In ((p' ++ bk)%string, VArr a) d -> nth_error (rows_of a) i = Some row ->
  slot ttv bk i = VArr row.
Proof.
  intros Hin Hn. destruct (us_row_in bk a i row Hin Hn) as [Hu Hns].
  destruct (in_split _ _ Hu) as [l1 [l2 E]].
  assert (H := Hloop). rewrite E in H.
  exact (stack_loop_fills p l1 _ row l2 (vd, ttv) bk i H Hns).
Qed.

Lemma us_group bk a :
  In ((p' ++ bk)%string, VArr a) d -> group ttv bk = map VArr (rows_of a).
Proof.
  intros Hin.
  assert (Hs : startswith (p' ++ bk) p' = true) by apply startswith_app.
  destruct (Hup _ _ Hin Hs) as [_ [a' [n [s [[= <-] [Hsh _]]]]]].
  assert (Hlen : length (rows_of a) = S n) by (now apply rows_of_length with (s := s)).
  assert (Hlow : n < length (group ttv bk)).
  { destruct (nth_error (rows_of a) n) as [row|] eqn:Hn.
    - assert (Hsl := us_slot bk a n row Hin Hn). unfold slot in Hsl.
      destruct (Nat.lt_ge_cases n (length (group ttv bk))) as [H|H]; [exact H|].
      rewrite nth_overflow in Hsl by exact H. discriminate.
    - apply nth_error_None in Hn. lia. }
  assert (Hup' : length (group ttv bk) <= S n).
  { destruct (stack_loop_last p u ([], []) (vd, ttv) bk Hloop)
      as [H|[K [V [i [HinK [HnK HlenK]]]]]].
    - change (snd (@nil (string * value), @nil (string * list value)))
        with (@nil (string * list value)) in H.
      change (group [] bk) with (@nil value) in H. simpl in H. lia.
    - simpl in HlenK.
      destruct (us_names K V bk i HinK HnK) as [a2 [row [Hin2 [Hn2 _]]]].
      assert (Ea := functional_NoDup d Hnd _ _ _ Hin Hin2). injection Ea as <-.
      assert (i < length (rows_of a)) by (apply nth_error_Some; congruence). lia. }
  apply nth_ext with (d := VNone) (d' := VNone).
  - rewrite length_map. lia.
  - intros j Hj.
    destruct (nth_error (rows_of a) j) as [row|] eqn:Hn.
    + rewrite (nth_error_map_VArr _ _ _ Hn). exact (us_slot bk a j row Hin Hn).
    + apply nth_error_None in Hn. lia.
Qed.

Lemma us_ttv_in bk l :
  In (bk, l) ttv ->
  exists a, In ((p' ++ bk)%string, VArr a) d /\ l = map VArr (rows_of a).
Proof.
  intros Hin.
  assert (Hnd' : NoDup (dict_keys ttv)).
  { apply (stack_loop_keys_NoDup p u ([], []) (vd, ttv) Hloop). constructor. }
  assert (Hg : dict_get ttv bk = Some l) by (now apply dict_get_NoDup).
  destruct (stack_loop_group_origin p u ([], []) (vd, ttv) bk Hloop)
    as [H|[K [V [i [HinK HnK]]]]].
  - simpl in H. congruence.
  - destruct (us_names K V bk i HinK HnK) as [a [row [Hin2 _]]].
    exists a. split; [exact Hin2|].
    rewrite <- (us_group bk a Hin2). unfold group. now rewrite Hg.
Qed.

Lemma us_ttv_has bk a :
  In ((p' ++ bk)%string, VArr a) d -> In (bk, map VArr (rows_of a)) ttv.
Proof.
  intros Hin. assert (Hg := us_group bk a Hin).
  assert (Hs : startswith (p' ++ bk) p' = true) by apply startswith_app.
  destruct (Hup _ _ Hin Hs) as [_ [a' [n [s [[= <-] [Hsh _]]]]]].
  unfold group in Hg. destruct (dict_get ttv bk) as [l|] eqn:G.
  - subst l. now apply dict_get_In.
  - apply (f_equal (@length _)) in Hg. rewrite length_map in Hg.
    rewrite (rows_of_length a (S n) s Hsh) in Hg. discriminate.
Qed.

Local Abbreviation M :=
  (map (fun g : string * list value =>
          (key_of (Some p) (fst g), VArr (stacked (snd g)))) ttv).

Lemma us_in_M K V :
  In (K, V) M <->
  exists bk a, In ((p' ++ bk)%string, VArr a) d /\
               K = (p' ++ bk)%string /\ V = VArr (with_kind Numpy a).
Proof.
  rewrite in_map_iff. split.
  - intros [[bk l] [E Hin]]. simpl in E. injection E as <- <-.
    destruct (us_ttv_in bk l Hin) as [a [Hd ->]].
    assert (Hs : startswith (p' ++ bk) p' = true) by apply startswith_app.
    destruct (Hup _ _ Hd Hs) as [_ [a' [n [s [[= <-] [Hsh Hwf]]]]]].
    exists bk, a. split; [exact Hd|]. split.
    + rewrite key_of_Some. symmetry. apply append_assoc.
    + f_equal. symmetry. apply numpy_stack_ok.
      now apply numpy_stack_rows with (n := n) (s := s).
  - intros [bk [a [Hd [-> ->]]]]. exists (bk, map VArr (rows_of a)). split.
    + simpl. rewrite key_of_Some.
      assert (Hs : startswith (p' ++ bk) p' = true) by apply startswith_app.
      destruct (Hup _ _ Hd Hs) as [_ [a' [n [s [[= <-] [Hsh Hwf]]]]]].
      f_equal; [symmetry; apply append_assoc|]. f_equal. symmetry. apply numpy_stack_ok.
      now apply numpy_stack_rows with (n := n) (s := s).
    + now apply us_ttv_has.
Qed.

Lemma us_functional_M : functional M.
Proof.
  intros K V V' H1 H2. apply us_in_M in H1. apply us_in_M in H2.
  destruct H1 as [bk [a [Hd [HK ->]]]], H2 as [bk2 [a2 [Hd2 [HK2 ->]]]].
  rewrite HK in HK2. apply append_inv_head in HK2. subst bk2.
  assert (Ea := functional_NoDup d Hnd _ _ _ Hd Hd2). now injection Ea as <-.
Qed.

Lemma us_vectorize :
  vectorize (Some p) ttv vd = OK (fold_left assign M vd).
Proof.
  apply vectorize_assign. intros bk l Hin.
  destruct (us_ttv_in bk l Hin) as [a [Hd ->]].
  assert (Hs : startswith (p' ++ bk) p' = true) by apply startswith_app.
  destruct (Hup _ _ Hd Hs) as [_ [a' [n [s [[= <-] [Hsh Hwf]]]]]].
  exists (with_kind Numpy a). now apply numpy_stack_rows with (n := n) (s := s).
Qed.

Lemma us_vd_get K V :
  dict_get vd K = Some V <-> In (K, V) d /\ startswith K p' = false.
Proof.
  assert (E := stack_loop_passed p u ([], []) (vd, ttv) Hloop). simpl in E.
  rewrite E. rewrite fold_assign_get.
  - rewrite filter_In, us_u_in, us_in_L. unfold passes. cbn [fst]. split.
    + intros [[[k [a [i [row [Hin [Hs [Hn [HK ->]]]]]]]] | H] Hp]; [|exact H].
      destruct (Hup _ _ Hin Hs) as [Hnl _].
      rewrite HK, (gen_key_match p i _ Hnl) in Hp. discriminate.
    + intros [Hin Hs]. split; [now right|].
      destruct (pattern_match p K) as [[g1 bk]|] eqn:Hm; [|reflexivity].
      apply pattern_match_startswith in Hm. congruence.
  - intros k v v' H1 H2. apply filter_In in H1. apply filter_In in H2.
    apply (functional_NoDup u us_u_NoDup k); tauto.
Qed.

Lemma us_result K :
  dict_get (fold_left assign M vd) K =
  option_map (fun v => if startswith K p' then as_host v else v) (dict_get d K).
Proof.
  destruct (dict_get d K) as [v|] eqn:G; simpl.
  - apply dict_get_In in G. destruct (startswith K p') eqn:Hs.
    + destruct (Hup _ _ G Hs) as [_ [a [n [s [-> _]]]]]. simpl.
      apply fold_assign_in; [apply us_functional_M|].
      apply us_in_M. exists (string_drop (String.length p') K), a.
      rewrite <- (startswith_split _ _ Hs). auto.
    + rewrite fold_assign_notin.
      * apply us_vd_get. auto.
      * intros Hk. apply in_map_iff in Hk. destruct Hk as [[K' V'] [E HM]].
        simpl in E. subst K'. apply us_in_M in HM.
        destruct HM as [bk [a [_ [HK _]]]].
        rewrite HK, startswith_app in Hs. discriminate.
  - assert (Hno : forall V, ~ In (K, V) d).
    { intros V HV. apply (dict_get_NoDup d K V Hnd) in HV. congruence. }
    rewrite fold_assign_notin.
    + destruct (dict_get vd K) as [V|] eqn:GV; [|reflexivity].
      apply us_vd_get in GV. exfalso. apply (Hno V). tauto.
    + intros Hk. apply in_map_iff in Hk. destruct Hk as [[K' V'] [E HM]].
      simpl in E. subst K'. apply us_in_M in HM.
      destruct HM as [bk [a [Hd [HK _]]]]. apply (Hno (VArr a)). now rewrite HK.
Qed.

End AfterLoop.

(** Unstacking succeeds, stacking what it gives succeeds, and the result
    has the keys of [d] with the values of [d], the stacked ones as host
    arrays. *)
Lemma unstack_then_stack :
  exists s,
    unstack_state_dict d (Some p) = OK u /\
    stack_state_dict u (Some p) = OK s /\
    (forall k v, In (k, v) d -> startswith k p' = false -> dict_get u k = Some v) /\
    forall K, dict_get s K =
              option_map (fun v => if startswith K p' then as_host v else v)
                         (dict_get d K).
Proof.
  destruct (stack_loop_no_assert p u [] ([], []) eq_refl us_u_NoDup us_plain)
    as [[vd ttv] Hloop].
  exists (fold_left assign
            (map (fun g : string * list value =>
                    (key_of (Some p) (fst g), VArr (stacked (snd g)))) ttv) vd).
  split; [apply us_unstack|]. split; [|split].
  - unfold stack_state_dict. simpl. rewrite Hloop. simpl.
    now apply us_vectorize.
  - intros k v Hin Hs. apply (dict_get_iff_In u k v us_u_NoDup).
    apply us_u_in, us_in_L. now right.
  - intros K. now apply us_result.
Qed.

End UnstackThenStack.

(** ** Stacking, then unstacking *)

Lemma stacked_same_shape (arrs : list ndarray) s :
  arrs <> [] -> Forall (fun a => shape a = s) arrs ->
  stacked (map VArr arrs) = mkArr Numpy (length arrs :: s) (concat (map data arrs)).
Proof.
  intros Hne HF. symmetry. apply numpy_stack_ok.
  now apply numpy_stack_same_shape.
Qed.

Section StackThenUnstack.

Variable p : string.
Variable d : StateDict.

Local Abbreviation p' := (p ++ ".")%string.

Hypothesis Hnd : NoDup (dict_keys d).
Hypothesis Hform : forall k v, In (k, v) d -> startswith k p' = true ->
  exists i bk a,
    k = (p' ++ str i ++ "." ++ bk)%string /\ no_newline bk = true /\
    v = VArr a /\ wf_array a.
Hypothesis Hdense : forall i bk v,
  In ((p' ++ str i ++ "." ++ bk)%string, v) d ->
  forall j, j < i -> exists v', In ((p' ++ str j ++ "." ++ bk)%string, v') d.
Hypothesis Hshape : forall i j bk a a',
  In ((p' ++ str i ++ "." ++ bk)%string, VArr a) d ->
  In ((p' ++ str j ++ "." ++ bk)%string, VArr a') d ->
  shape a = shape a'.

Lemma su_key i bk v :
  In ((p' ++ str i ++ "." ++ bk)%string, v) d ->
  no_newline bk = true /\ exists a, v = VArr a /\ wf_array a.
Proof.
  intros Hin.
  destruct (Hform _ _ Hin (startswith_app _ _)) as [i' [bk' [a [E [Hnl [-> Hwf]]]]]].
  apply gen_key_inj in E. destruct E as [_ ->]. eauto.
Qed.

Lemma su_names K V bk i :
  In (K, V) d -> names_slot p K bk i ->
  K = (p' ++ str i ++ "." ++ bk)%string.
Proof.
  intros Hin [g1 [Hm Hi]].
  destruct (Hform _ _ Hin (pattern_match_startswith _ _ _ _ Hm))
    as [i' [bk' [a [E [Hnl _]]]]].
  rewrite E, (gen_key_match p i' bk' Hnl) in Hm. injection Hm as <- <-.
  rewrite int_str in Hi. now subst i'.
Qed.

Lemma su_plain K V g1 bk :
  In (K, V) ([] ++ d) -> pattern_match p K = Some (g1, bk) ->
  K = (p ++ "." ++ str (int g1) ++ "." ++ bk)%string.
Proof.
  intros Hin Hm. rewrite (su_names K V bk (int g1) Hin).
  - apply append_assoc.
  - now exists g1.
Qed.

Lemma su_passes K V :
  In (K, V) d -> (passes p (K, V) = true <-> startswith K p' = false).
Proof.
  intros Hin. unfold passes. cbn [fst]. split.
  - intros H. destruct (startswith K p') eqn:Hs; [|reflexivity].
    destruct (Hform _ _ Hin Hs) as [i [bk [a [E [Hnl _]]]]].
    rewrite E, (gen_key_match p i bk Hnl) in H. discriminate.
  - intros Hs. destruct (pattern_match p K) as [[g1 bk]|] eqn:Hm; [|reflexivity].
    apply pattern_match_startswith in Hm. congruence.
Qed.

Section AfterLoop.

Variable vd : StateDict.
Variable ttv : dict (list value).
Hypothesis Hloop : stack_loop p d ([], []) = OK (vd, ttv).

Lemma su_slot i bk a :
  In ((p' ++ str i ++ "." ++ bk)%string, VArr a) d ->
  slot ttv bk i = VArr a /\ i < length (group ttv bk).
Proof.
  intros Hin. destruct (su_key _ _ _ Hin) as [Hnl _].
  destruct (in_split _ _ Hin) as [l1 [l2 E]].
  assert (H := Hloop). rewrite E in H.
  assert (Hs := stack_loop_fills p l1 _ a l2 (vd, ttv) bk i H (gen_key_names p i bk Hnl)).
  simpl in Hs. split; [exact Hs|]. unfold slot in Hs.
  destruct (Nat.lt_ge_cases i (length (group ttv bk))) as [Hl|Hl]; [exact Hl|].
  rewrite nth_overflow in Hs by exact Hl. discriminate.
Qed.

Lemma su_present bk j :
  j < length (group ttv bk) ->
  exists a, In ((p' ++ str j ++ "." ++ bk)%string, VArr a) d.
Proof.
  intros Hj.
  destruct (stack_loop_last p d ([], []) (vd, ttv) bk Hloop)
    as [H|[K [V [i [HinK [HnK HlenK]]]]]].
  - change (snd (@nil (string * value), @nil (string * list value)))
      with (@nil (string * list value)) in H.
    change (group [] bk) with (@nil value) in H. simpl in H. simpl in Hj. lia.
  - simpl in HlenK. rewrite (su_names K V bk i HinK HnK) in HinK.
    destruct (Nat.eq_dec j i) as [->|Hne].
    + destruct (su_key _ _ _ HinK) as [_ [a [-> _]]]. eauto.
    + destruct (Hdense _ _ _ HinK j) as [v' Hv']; [lia|].
      destruct (su_key _ _ _ Hv') as [_ [a [-> _]]]. eauto.
Qed.

Lemma su_group bk l :
  In (bk, l) ttv ->
  exists arrs s,
    l = map VArr arrs /\ arrs <> [] /\
    Forall (fun a => shape a = s /\ wf_array a) arrs /\
    no_newline bk = true /\
    forall j a, nth_error arrs j = Some a <->
                In ((p' ++ str j ++ "." ++ bk)%string, VArr a) d.
Proof.
  intros Hin.
  assert (Hnd' : NoDup (dict_keys ttv)).
  { apply (stack_loop_keys_NoDup p d ([], []) (vd, ttv) Hloop). constructor. }
  assert (Hg : dict_get ttv bk = Some l) by (now apply dict_get_NoDup).
  assert (Hgl : group ttv bk = l) by (unfold group; now rewrite Hg).
  destruct (stack_loop_group_origin p d ([], []) (vd, ttv) bk Hloop)
    as [H|[K0 [V0 [i0 [Hin0 Hn0]]]]]; [simpl in H; congruence|].
  rewrite (su_names K0 V0 bk i0 Hin0 Hn0) in Hin0.
  destruct (su_key _ _ _ Hin0) as [Hnl [a0 [-> Hwf0]]].
  assert (P1 : forall j a, In ((p' ++ str j ++ "." ++ bk)%string, VArr a) d ->
                 nth_error l j = Some (VArr a)).
  { intros j a Hd. destruct (su_slot j bk a Hd) as [Hs Hl].
    unfold slot in Hs. rewrite Hgl in Hs, Hl.
    rewrite <- Hs. now apply nth_error_nth'. }
  assert (P2 : forall j, j < length l ->
                 exists a, In ((p' ++ str j ++ "." ++ bk)%string, VArr a) d).
  { intros j Hj. apply su_present. now rewrite Hgl. }
  assert (Hall : forall v, In v l -> v = VArr (unwrap v)).
  { intros v Hv. apply In_nth_error in Hv. destruct Hv as [j Hj].
    assert (Hlt : j < length l) by (apply nth_error_Some; congruence).
    destruct (P2 j Hlt) as [a Ha]. rewrite (P1 j a Ha) in Hj.
    now injection Hj as <-. }
  assert (Hnth : forall j a, nth_error (map unwrap l) j = Some a <->
                   In ((p' ++ str j ++ "." ++ bk)%string, VArr a) d).
  { intros j a. rewrite nth_error_map. split.
    - intros H. destruct (nth_error l j) as [v|] eqn:Hv; [|discriminate].
      simpl in H. injection H as <-.
      assert (Hlt : j < length l) by (apply nth_error_Some; congruence).
      destruct (P2 j Hlt) as [a Ha]. rewrite (P1 j a Ha) in Hv.
      injection Hv as <-. exact Ha.
    - intros Hd. now rewrite (P1 j a Hd). }
  exists (map unwrap l), (shape a0). split; [|split; [|split; [|split]]].
  - rewrite map_map. rewrite <- (map_id l) at 1. apply map_ext_in.
    intros v Hv. now apply Hall.
  - intros E. assert (H := P1 i0 a0 Hin0).
    destruct l; [destruct i0; discriminate | discriminate].
  - apply Forall_forall. intros a Ha. apply In_nth_error in Ha.
    destruct Ha as [j Hj]. apply Hnth in Hj.
    split; [exact (Hshape _ _ _ _ _ Hj Hin0)|].
    destruct (su_key _ _ _ Hj) as [_ [a' [[= <-] Hwf]]]. exact Hwf.
  - exact Hnl.
  - exact Hnth.
Qed.

Lemma su_group_has i bk a :
  In ((p' ++ str i ++ "." ++ bk)%string, VArr a) d -> exists l, In (bk, l) ttv.
Proof.
  intros Hin. destruct (su_slot i bk a Hin) as [_ Hl].
  unfold group in Hl. destruct (dict_get ttv bk) as [l|] eqn:G.
  - exists l. now apply dict_get_In.
  - simpl in Hl. lia.
Qed.

Local Abbreviation M :=
  (map (fun g : string * list value =>
          (key_of (Some p) (fst g), VArr (stacked (snd g)))) ttv).
Local Abbreviation s_res := (fold_left assign M vd).

Lemma su_in_M K V :
  In (K, V) M <->
  exists bk l, In (bk, l) ttv /\ K = (p' ++ bk)%string /\ V = VArr (stacked l).
Proof.
  rewrite in_map_iff. split.
  - intros [[bk l] [E Hin]]. simpl in E. injection E as <- <-.
    exists bk, l. split; [exact Hin|]. split; [|reflexivity].
    rewrite key_of_Some. symmetry. apply append_assoc.
  - intros [bk [l [Hin [-> ->]]]]. exists (bk, l). split; [|exact Hin].
    simpl. rewrite key_of_Some. f_equal. symmetry. apply append_assoc.
Qed.

Lemma su_functional_M : functional M.
Proof.
  assert (Hnd' : NoDup (dict_keys ttv)).
  { apply (stack_loop_keys_NoDup p d ([], []) (vd, ttv) Hloop). constructor. }
  intros K V V' H1 H2. apply su_in_M in H1. apply su_in_M in H2.
  destruct H1 as [bk [l [Hin [HK ->]]]], H2 as [bk2 [l2 [Hin2 [HK2 ->]]]].
  rewrite HK in HK2. apply append_inv_head in HK2. subst bk2.
  assert (E := functional_NoDup_gen ttv Hnd' _ _ _ Hin Hin2). now subst l2.
Qed.

Lemma su_vectorize : vectorize (Some p) ttv vd = OK s_res.
Proof.
  apply vectorize_assign. intros bk l Hin.
  destruct (su_group bk l Hin) as [arrs [s [-> [Hne [HF _]]]]].
  eexists. apply numpy_stack_same_shape with (s := s); [exact Hne|].
  eapply Forall_impl; [|exact HF]. simpl. tauto.
Qed.

Lemma su_vd_get K V :
  dict_get vd K = Some V <-> In (K, V) d /\ startswith K p' = false.
Proof.
  assert (E := stack_loop_passed p d ([], []) (vd, ttv) Hloop). simpl in E.
  rewrite E. rewrite fold_assign_get.
  - rewrite filter_In. split.
    + intros [Hin Hp]. split; [exact Hin|]. now apply (su_passes K V Hin).
    + intros [Hin Hs]. split; [exact Hin|]. now apply (su_passes K V Hin).
  - intros k v v' H1 H2. apply filter_In in H1. apply filter_In in H2.
    apply (functional_NoDup d Hnd k); tauto.
Qed.

Lemma su_vd_NoDup : NoDup (dict_keys vd).
Proof.
  assert (E := stack_loop_passed p d ([], []) (vd, ttv) Hloop). simpl in E.
  rewrite E. apply fold_assign_NoDup. constructor.
Qed.

Lemma su_res_NoDup : NoDup (dict_keys s_res).
Proof. apply fold_assign_NoDup. apply su_vd_NoDup. Qed.

Lemma su_res_in K V :
  In (K, V) s_res <-> In (K, V) M \/ (In (K, V) d /\ startswith K p' = false).
Proof.
  rewrite <- (dict_get_iff_In s_res K V su_res_NoDup). split.
  - intros H. destruct (in_dec string_dec K (map fst M)) as [Hk|Hk].
    + left. apply in_map_iff in Hk. destruct Hk as [[K1 V1] [E HM]].
      simpl in E. subst K1.
      rewrite (fold_assign_in M vd K V1 su_functional_M HM) in H.
      now injection H as <-.
    + right. rewrite fold_assign_notin in H by exact Hk. now apply su_vd_get.
  - intros [HM|Hd].
    + now apply fold_assign_in; [apply su_functional_M|].
    + rewrite fold_assign_notin; [now apply su_vd_get|].
      intros Hk. apply in_map_iff in Hk. destruct Hk as [[K1 V1] [E HM]].
      simpl in E. subst K1. apply su_in_M in HM.
      destruct HM as [bk [l [_ [HK _]]]]. destruct Hd as [_ Hs].
      rewrite HK, startswith_app in Hs. discriminate.
Qed.

Local Abbreviation L2 := (flat_map (expand p') s_res).

Lemma su_in_L2 K V :
  In (K, V) L2 <->
  exists v, In (K, v) d /\ V = (if startswith K p' then as_host v else v).
Proof.
  rewrite in_flat_map. split.
  - intros [[K1 V1] [Hin Hex]]. apply su_res_in in Hin.
    destruct Hin as [HM|[Hd Hs]].
    + apply su_in_M in HM. destruct HM as [bk [l [Hl [-> ->]]]].
      destruct (su_group bk l Hl) as [arrs [s [-> [Hne [HF [Hnl Hnth]]]]]].
      unfold expand in Hex. cbn [fst snd] in Hex.
      rewrite startswith_app, string_drop_app in Hex.
      rewrite (stacked_same_shape arrs s Hne) in Hex
        by (eapply Forall_impl; [|exact HF]; simpl; tauto).
      rewrite (rows_of_stacked arrs s HF) in Hex.
      apply In_flat_mapi in Hex. destruct Hex as [j [row [Hn [Hx|[]]]]].
      injection Hx as <- <-.
      rewrite nth_error_map in Hn.
      destruct (nth_error arrs j) as [a|] eqn:Ha; [|discriminate].
      injection Hn as <-. apply Hnth in Ha.
      exists (VArr a). split; [exact Ha|]. now rewrite startswith_app.
    + unfold expand in Hex. cbn [fst snd] in Hex. rewrite Hs in Hex.
      assert (E : (K, V) = (K1, V1)) by (destruct V1; destruct Hex as [E|[]]; now rewrite E).
      injection E as -> ->. exists V1. rewrite Hs. auto.
  - intros [v [Hd ->]]. destruct (startswith K p') eqn:Hs.
    + destruct (Hform _ _ Hd Hs) as [i [bk [a [-> [Hnl [-> Hwf]]]]]].
      destruct (su_group_has i bk a Hd) as [l Hl].
      destruct (su_group bk l Hl) as [arrs [s [-> [Hne [HF [_ Hnth]]]]]].
      exists ((p' ++ bk)%string, VArr (stacked (map VArr arrs))). split.
      * apply su_res_in. left. apply su_in_M. eauto.
      * unfold expand. cbn [fst snd].
        rewrite startswith_app, string_drop_app.
        rewrite (stacked_same_shape arrs s Hne)
          by (eapply Forall_impl; [|exact HF]; simpl; tauto).
        rewrite (rows_of_stacked arrs s HF).
        apply In_flat_mapi. exists i, (with_kind Numpy a). split.
        -- rewrite nth_error_map. apply Hnth in Hd. now rewrite Hd.
        -- simpl. now left.
    + exists (K, v). split.
      * apply su_res_in. right. auto.
      * unfold expand. cbn [fst snd]. rewrite Hs. destruct v; now left.
Qed.

Lemma su_functional_L2 : functional L2.
Proof.
  intros K V V' H1 H2. apply su_in_L2 in H1. apply su_in_L2 in H2.
  destruct H1 as [v [Hd ->]], H2 as [v2 [Hd2 ->]].
  now rewrite (functional_NoDup d Hnd _ _ _ Hd Hd2).
Qed.

Lemma su_unstack :
  unstack_state_dict s_res (Some p) = OK (fold_left assign L2 []).
Proof.
  unfold unstack_state_dict. simpl.
  apply unstack_loop_assign. intros k a Hin Hs.
  apply su_res_in in Hin. destruct Hin as [HM|[_ Hs']]; [|congruence].
  apply su_in_M in HM. destruct HM as [bk [l [_ [_ [= ->]]]]].
  unfold stacked. simpl. discriminate.
Qed.

Lemma su_result K :
  dict_get (fold_left assign L2 []) K =
  option_map (fun v => if startswith K p' then as_host v else v) (dict_get d K).
Proof.
  destruct (dict_get d K) as [v|] eqn:G; simpl.
  - apply dict_get_In in G. apply fold_assign_in; [apply su_functional_L2|].
    apply su_in_L2. eauto.
  - destruct (dict_get (fold_left assign L2 []) K) as [V|] eqn:GV; [|reflexivity].
    apply (fold_assign_get L2 K V su_functional_L2) in GV.
    apply su_in_L2 in GV. destruct GV as [v [Hd _]].
    apply (dict_get_NoDup d K v Hnd) in Hd. congruence.
Qed.

End AfterLoop.

(** Stacking succeeds, unstacking what it gives succeeds, and the result
    has the keys of [d] with the values of [d], the stacked ones as host
    arrays. *)
Lemma stack_then_unstack :
  exists s u,
    stack_state_dict d (Some p) = OK s /\
    unstack_state_dict s (Some p) = OK u /\
    (forall k v, In (k, v) d -> startswith k p' = false -> dict_get s k = Some v) /\
    forall K, dict_get u K =
              option_map (fun v => if startswith K p' then as_host v else v)
                         (dict_get d K).
Proof.
  destruct (stack_loop_no_assert p d [] ([], []) eq_refl Hnd su_plain)
    as [[vd ttv] Hloop].
  eexists. eexists. split; [|split; [|split]].
  - unfold stack_state_dict. simpl. rewrite Hloop. simpl.
    now apply su_vectorize.
  - now apply su_unstack.
  - intros k v Hin Hs. apply (dict_get_iff_In _ k v (su_res_NoDup vd ttv Hloop)).
    apply (su_res_in vd ttv Hloop). now right.
  - intros K. now apply su_result.
Qed.

End StackThenUnstack.

(* ===================================================================== *)
(** * The codec: round trip, lookups, key maps, null prefixes            *)
(* ===================================================================== *)


(** The round trip also fails where [jnp.array] narrows: a 64-bit
    element beyond the 32-bit range is read back wrapped around. *)
Lemma round_trip_narrows :
  exists sd T',
    jax_tree_to_state_dict (TList [Leaf (vec [(2 ^ 40)%Z])]) None = OK sd /\
    jax_tree_from_state_dict (TList [Leaf (vec [0%Z])]) sd None = OK T' /\
    T' = TList [Leaf (mkArr Jax [1] [Num 0])].
Proof. eexists. eexists. split; [reflexivity|]. split; reflexivity. Qed.



(** C6, as the claim states it, fails in its last part: with a [None]
    template and a present key, the stored value comes back as it is, a host
    array here, and not as the device array [jnp.array] would make of it. *)
Lemma none_template_not_coerced :
  exists (sd : StateDict) (p : string) (a a' : ndarray),
    dict_get sd p = Some (VArr a) /\
    jnp_array (VArr a) = OK a' /\
    jax_tree_from_state_dict TNone sd (Some p) <> OK (Leaf a').
Proof.
  exists [("w", VArr (vec [1%Z]))], "w", (vec [1%Z]), (with_kind Jax (vec [1%Z])).
  split; [reflexivity|]. split; [reflexivity|]. simpl. discriminate.
Qed.

(** C6 (amended): in [from_state_dict], a tensor-template leaf whose key is
    absent from the state dict raises a lookup error; with a [None]
    template an absent key gives [None] and a present key gives the stored
    value as it is, without coercion. *)
Theorem from_state_dict_leaf_lookup : forall (sd : StateDict) (p : string),
  (dict_get sd p = None ->
     (forall a, jax_tree_from_state_dict (Leaf a) sd (Some p) = Raise KeyError) /\
     (forall na, jax_tree_from_state_dict (Named na) sd (Some p) = Raise KeyError) /\
     jax_tree_from_state_dict TNone sd (Some p) = OK TNone) /\
  (forall v, dict_get sd p = Some v ->
     jax_tree_from_state_dict TNone sd (Some p) =
     OK (match v with VArr a => Leaf a | VNone => TNone end)).
Proof.
  intros sd p. split.
  - intros H. simpl. unfold dict_index. rewrite H. auto.
  - intros v H. simpl. rewrite H. destruct v; reflexivity.
Qed.

Lemma from_state_dict_leaf_lookup_witness :
  (dict_get [("w", VArr (vec [1%Z]))] "b" = None /\
   dict_get [("w", VArr (vec [1%Z]))] "w" = Some (VArr (vec [1%Z]))) /\
  ((forall a, jax_tree_from_state_dict (Leaf a) [("w", VArr (vec [1%Z]))] (Some "b")
              = Raise KeyError) /\
   (forall na, jax_tree_from_state_dict (Named na) [("w", VArr (vec [1%Z]))] (Some "b")
               = Raise KeyError) /\
   jax_tree_from_state_dict TNone [("w", VArr (vec [1%Z]))] (Some "b") = OK TNone) /\
  jax_tree_from_state_dict TNone [("w", VArr (vec [1%Z]))] (Some "w")
    = OK (Leaf (vec [1%Z])).
Proof.
  split; [split; reflexivity|]. split.
  - exact (proj1 (from_state_dict_leaf_lookup [("w", VArr (vec [1%Z]))] "b") eq_refl).
  - exact (proj2 (from_state_dict_leaf_lookup [("w", VArr (vec [1%Z]))] "w")
             (VArr (vec [1%Z])) eq_refl).
Defined.

(** C9: a tensor leaf reached with a null prefix, the bare leaf itself or a
    leaf inside a tree, makes serialization and deserialization fail. *)
Theorem null_prefix_leaf_is_error : forall T prefix v sd,
  In (None, v) (leaves T prefix) ->
  (exists sd' e, update_state_dict_with_jax_tree T sd prefix = (sd', Some e)) /\
  (exists e, jax_tree_to_state_dict T prefix = Raise e) /\
  (exists e, jax_tree_from_state_dict T sd prefix = Raise e).
Proof.
  intros T prefix v sd Hin. split; [|split].
  - now apply update_null_prefix with (v := v).
  - unfold jax_tree_to_state_dict.
    destruct (update_null_prefix _ _ _ Hin []) as [sd' [e E]].
    rewrite E. eauto.
  - now apply from_null_prefix with (v := v).
Qed.

Lemma null_prefix_leaf_is_error_witness :
  In (None, VArr (vec [1%Z])) (leaves (Leaf (vec [1%Z])) None) /\
  (exists sd' e,
     update_state_dict_with_jax_tree (Leaf (vec [1%Z])) [] None = (sd', Some e)) /\
  (exists e, jax_tree_to_state_dict (Leaf (vec [1%Z])) None = Raise e) /\
  (exists e, jax_tree_from_state_dict (Leaf (vec [1%Z])) [] None = Raise e).
Proof.
  assert (H : In (None, VArr (vec [1%Z])) (leaves (Leaf (vec [1%Z])) None))
    by (simpl; auto).
  split; [exact H|].
  exact (null_prefix_leaf_is_error (Leaf (vec [1%Z])) None (VArr (vec [1%Z])) [] H).
Defined.

(** The bare leaf itself: the error is raised before any key is written or
    read, and the destination dictionary is left as it was. *)
Lemma bare_leaf_null_prefix : forall (a : ndarray) (na : NamedArray) (sd : StateDict),
  update_state_dict_with_jax_tree (Leaf a) sd None = (sd, Some ValueError) /\
  update_state_dict_with_jax_tree (Named na) sd None = (sd, Some AssertionError) /\
  jax_tree_to_state_dict (Leaf a) None = Raise ValueError /\
  jax_tree_to_state_dict (Named na) None = Raise AssertionError /\
  jax_tree_from_state_dict (Leaf a) sd None = Raise ValueError /\
  jax_tree_from_state_dict (Named na) sd None = Raise ValueError.
Proof. intros a na sd. repeat split. Qed.

(* ===================================================================== *)
(** * Stacking: duplicate indices and gaps                               *)
(* ===================================================================== *)




(** The gap of the specification's example: indices 0, 1 and 3 of a block
    of vectors. *)
Lemma stack_gap_example :
  stack_state_dict
    [("blocks.0.w", VArr (vec [1%Z])); ("blocks.1.w", VArr (vec [2%Z]));
     ("blocks.3.w", VArr (vec [3%Z]))] (Some "blocks")
  = Raise ValueError.
Proof. reflexivity. Qed.

(* ===================================================================== *)
(** * Stacking: when the duplicate-key assertion can fire                *)
(* ===================================================================== *)

(** C10, as the claim states it, fails: the second group of the pattern
    stops at a newline and the match need not reach the end of the key, so
    two distinct keys with the canonical index [0] name the same slot and
    the assertion fires. *)
Lemma canonical_keys_trip_assertion :
  NoDup (dict_keys [(newline_key "b", VArr (vec [1%Z]));
                    (newline_key "c", VArr (vec [2%Z]))]) /\
  ascii_keys [(newline_key "b", VArr (vec [1%Z]));
              (newline_key "c", VArr (vec [2%Z]))] /\
  (forall k v g1 bk,
     In (k, v) [(newline_key "b", VArr (vec [1%Z]));
                (newline_key "c", VArr (vec [2%Z]))] ->
     pattern_match "p" k = Some (g1, bk) -> g1 = str (int g1)) /\
  stack_state_dict [(newline_key "b", VArr (vec [1%Z]));
                    (newline_key "c", VArr (vec [2%Z]))] (Some "p")
  = Raise AssertionError.
Proof.
  split; [|split; [|split]].
  - repeat constructor; simpl; intuition discriminate.
  - intros k v [[= <- _]|[[= <- _]|[]]]; reflexivity.
  - intros k v g1 bk [[= <- _]|[[= <- _]|[]]] [= <- _]; reflexivity.
  - reflexivity.
Qed.

(** C10 (amended): for a dictionary (its keys are distinct) with ASCII
    keys, whose keys that match the pattern carry a canonical decimal index
    and no newline, the duplicate-key assertion is never reached:
    [stack_state_dict] does not raise the assertion error. *)
Theorem duplicate_assertion_unreachable : forall sd prefix,
  NoDup (dict_keys sd) ->
  ascii_keys sd ->
  (forall k v g1 bk,
     In (k, v) sd -> pattern_match (escaped prefix) k = Some (g1, bk) ->
     g1 = str (int g1) /\ no_newline k = true) ->
  stack_state_dict sd prefix <> Raise AssertionError.
Proof.
  intros sd prefix Hnd _ Hc.
  assert (Hp : forall k v g1 bk,
             In (k, v) ([] ++ sd) -> pattern_match (escaped prefix) k = Some (g1, bk) ->
             k = (escaped prefix ++ "." ++ str (int g1) ++ "." ++ bk)%string).
  { intros k v g1 bk Hin Hm. apply names_slot_key.
    - now exists g1.
    - intros g b Hg. exact (proj1 (Hc _ _ _ _ Hin Hg)).
    - exact (proj2 (Hc _ _ _ _ Hin Hm)). }
  destruct (stack_loop_no_assert (escaped prefix) sd [] ([], []) eq_refl Hnd Hp)
    as [st Hst].
  intros H. apply stack_state_dict_assert in H. congruence.
Qed.

Lemma duplicate_assertion_unreachable_witness :
  (NoDup (dict_keys three_blocks) /\
   ascii_keys three_blocks /\
   (forall k v g1 bk,
      In (k, v) three_blocks -> pattern_match "blocks" k = Some (g1, bk) ->
      g1 = str (int g1) /\ no_newline k = true)) /\
  stack_state_dict three_blocks (Some "blocks") <> Raise AssertionError.
Proof.
  assert (H1 : NoDup (dict_keys three_blocks))
    by (repeat constructor; simpl; intuition discriminate).
  assert (H0 : ascii_keys three_blocks).
  { intros k v [[= <- _]|[[= <- _]|[[= <- _]|[[= <- _]|[]]]]]; reflexivity. }
  assert (H2 : forall k v g1 bk,
      In (k, v) three_blocks -> pattern_match "blocks" k = Some (g1, bk) ->
      g1 = str (int g1) /\ no_newline k = true).
  { intros k v g1 bk [[= <- _]|[[= <- _]|[[= <- _]|[[= <- _]|[]]]]] Hm;
      try discriminate Hm; injection Hm as <- _; split; reflexivity. }
  split; [split; [exact H1 | split; [exact H0 | exact H2]]|].
  exact (duplicate_assertion_unreachable three_blocks (Some "blocks") H1 H0 H2).
Defined.

(* ===================================================================== *)
(** * Stack and unstack are mutually inverse                             *)
(* ===================================================================== *)

Lemma with_kind_host a : kind a = Numpy -> with_kind Numpy a = a.
Proof. destruct a as [k s dt]. simpl. now intros ->. Qed.

Lemma same_entries_num_eq p r d :
  (forall K, dict_get r K =
             option_map (fun v => if startswith K (p ++ ".") then as_host v else v)
                        (dict_get d K)) ->
  dict_num_eq r d.
Proof.
  intros H k. rewrite H. destruct (dict_get d k) as [v|]; simpl; [|exact I].
  destruct (startswith k (p ++ ".")); destruct v; simpl; try exact I;
    split; reflexivity.
Qed.

Lemma same_entries_equiv p r d :
  (forall K, dict_get r K =
             option_map (fun v => if startswith K (p ++ ".") then as_host v else v)
                        (dict_get d K)) ->
  host_arrays p d -> dict_equiv r d.
Proof.
  intros H Hh k. rewrite H. destruct (dict_get d k) as [v|] eqn:G; simpl; [|reflexivity].
  destruct (startswith k (p ++ ".")) eqn:Hs; [|reflexivity].
  destruct v as [|a]; [reflexivity|]. simpl.
  apply dict_get_In in G. now rewrite (with_kind_host a (Hh k a G Hs)).
Qed.

(** C4, as the claim states it, fails.  The indices 0 and 1 of
    [ragged_blocks] are a dense run without duplicates, yet the two tensors
    differ in shape and stacking raises.  A stacked tensor whose leading
    axis has size 0 unstacks to no key at all, and the key is gone after
    stacking again.  And a key with a newline comes back cut at the
    newline. *)
Lemma round_trip_fails :
  (NoDup (dict_keys ragged_blocks) /\
   names_slot "blocks" "blocks.0.w" "w" 0 /\
   names_slot "blocks" "blocks.1.w" "w" 1 /\
   stack_state_dict ragged_blocks (Some "blocks") = Raise ValueError) /\
  (unstack_state_dict empty_block (Some "blocks") = OK [] /\
   stack_state_dict [] (Some "blocks") = OK []) /\
  (unstack_state_dict newline_block (Some "blocks")
     = OK [(("blocks.0.a" ++ String newline "b")%string, VArr (mkArr Numpy [] [Num 1]))] /\
   stack_state_dict
     [(("blocks.0.a" ++ String newline "b")%string, VArr (mkArr Numpy [] [Num 1]))]
     (Some "blocks")
     = OK [("blocks.a", VArr (mkArr Numpy [1] [Num 1]))]).
Proof.
  split; [|split].
  - split; [repeat constructor; simpl; intuition discriminate|].
    split; [exists "0"; split; reflexivity|].
    split; [exists "1"; split; reflexivity | reflexivity].
  - split; reflexivity.
  - split; reflexivity.
Qed.

(** C4 (amended): for a prefix [p] and a dictionary in stacked form,
    unstacking and then stacking succeed and give back the same keys with
    numerically equal values, exactly the same dictionary when the tensors
    under the prefix are host arrays; for a dictionary in unstacked form,
    whose indices under the prefix are a dense run from 0 in canonical
    decimal and whose tensors have one shape per group, stacking and then
    unstacking do the same.  In both directions the keys that are not under
    the prefix pass through the first step unchanged. *)
Theorem stack_unstack_round_trip : forall p d,
  (stacked_form p d ->
   exists u s,
     unstack_state_dict d (Some p) = OK u /\
     stack_state_dict u (Some p) = OK s /\
     passes_through p d u /\
     dict_num_eq s d /\
     (host_arrays p d -> dict_equiv s d)) /\
  (unstacked_form p d ->
   exists s u,
     stack_state_dict d (Some p) = OK s /\
     unstack_state_dict s (Some p) = OK u /\
     passes_through p d s /\
     dict_num_eq u d /\
     (host_arrays p d -> dict_equiv u d)).
Proof.
  intros p d. split.
  - intros [Hnd Hup].
    destruct (unstack_then_stack p d Hnd Hup) as [s [Hu [Hs [Hp Hr]]]].
    eexists. exists s. split; [exact Hu|]. split; [exact Hs|].
    split; [exact Hp|]. split.
    + now apply same_entries_num_eq with (p := p).
    + now apply same_entries_equiv.
  - intros [Hnd [Hform [Hdense Hshape]]].
    destruct (stack_then_unstack p d Hnd Hform Hdense Hshape)
      as [s [u [Hs [Hu [Hp Hr]]]]].
    exists s, u. split; [exact Hs|]. split; [exact Hu|].
    split; [exact Hp|]. split.
    + now apply same_entries_num_eq with (p := p).
    + now apply same_entries_equiv.
Qed.

Lemma stacked_example_form : stacked_form "blocks" stacked_example.
Proof.
  split; [repeat constructor; simpl; intuition discriminate|].
  intros k v [[= <- <-]|[[= <- <-]|[]]] Hs; [|discriminate Hs].
  split; [reflexivity|]. eexists. exists 3, [2]. repeat split.
Qed.

Lemma unstacked_example_key i bk v :
  In (("blocks." ++ str i ++ "." ++ bk)%string, v) unstacked_example ->
  bk = "w" /\ i < 4.
Proof.
  intros [H|[H|[H|[H|[H|[]]]]]]; apply (f_equal fst) in H; cbn [fst] in H;
    try (simpl in H; discriminate H).
  - change "blocks.0.w" with ("blocks." ++ str 0 ++ "." ++ "w")%string in H.
    apply gen_key_inj in H. destruct H as [<- <-]. split; [reflexivity | lia].
  - change "blocks.1.w" with ("blocks." ++ str 1 ++ "." ++ "w")%string in H.
    apply gen_key_inj in H. destruct H as [<- <-]. split; [reflexivity | lia].
  - change "blocks.2.w" with ("blocks." ++ str 2 ++ "." ++ "w")%string in H.
    apply gen_key_inj in H. destruct H as [<- <-]. split; [reflexivity | lia].
  - change "blocks.3.w" with ("blocks." ++ str 3 ++ "." ++ "w")%string in H.
    apply gen_key_inj in H. destruct H as [<- <-]. split; [reflexivity | lia].
Qed.

Lemma unstacked_example_form : unstacked_form "blocks" unstacked_example.
Proof.
  split; [repeat constructor; simpl; intuition discriminate|]. split; [|split].
  - intros k v [[= <- <-]|[[= <- <-]|[[= <- <-]|[[= <- <-]|[[= <- <-]|[]]]]]] Hs;
      try discriminate Hs.
    + exists 0, "w". eexists. repeat split.
    + exists 1, "w". eexists. repeat split.
    + exists 2, "w". eexists. repeat split.
    + exists 3, "w". eexists. repeat split.
  - intros i bk v Hin j Hj.
    destruct (unstacked_example_key i bk v Hin) as [-> Hi].
    destruct j as [|[|[|[|j]]]]; [| | | |lia]; eexists; simpl; eauto 6.
  - intros i j bk a a' H1 H2.
    assert (Hs : forall i a, In (("blocks." ++ str i ++ "." ++ bk)%string, VArr a)
                               unstacked_example -> shape a = [2]).
    { intros i0 a0 [H|[H|[H|[H|[H|[]]]]]]; injection H as _ H; now subst a0. }
    now rewrite (Hs i a H1), (Hs j a' H2).
Qed.

Lemma stack_unstack_round_trip_witness :
  (stacked_form "blocks" stacked_example /\
   unstacked_form "blocks" unstacked_example) /\
  (exists u s,
     unstack_state_dict stacked_example (Some "blocks") = OK u /\
     stack_state_dict u (Some "blocks") = OK s /\
     passes_through "blocks" stacked_example u /\
     dict_num_eq s stacked_example /\
     (host_arrays "blocks" stacked_example -> dict_equiv s stacked_example)) /\
  (exists s u,
     stack_state_dict unstacked_example (Some "blocks") = OK s /\
     unstack_state_dict s (Some "blocks") = OK u /\
     passes_through "blocks" unstacked_example s /\
     dict_num_eq u unstacked_example /\
     (host_arrays "blocks" unstacked_example -> dict_equiv u unstacked_example)).
Proof.
  split; [split; [exact stacked_example_form | exact unstacked_example_form]|].
  split.
  - exact (proj1 (stack_unstack_round_trip "blocks" stacked_example)
             stacked_example_form).
  - exact (proj2 (stack_unstack_round_trip "blocks" unstacked_example)
             unstacked_example_form).
Defined.

(** ** Multi-indices in row-major order *)

Lemma prod_shape_app s1 s2 : prod_shape (s1 ++ s2) = prod_shape s1 * prod_shape s2.
Proof.
  induction s1 as [|n s1 IH]; simpl; [lia|]. unfold prod_shape in *. simpl.
  rewrite IH. lia.
Qed.

Lemma indices_length s : length (indices s) = prod_shape s.
Proof.
  induction s as [|n s IH]; simpl; [reflexivity|].
  change (prod_shape (n :: s)) with (n * prod_shape s). rewrite <- IH.
  generalize 0 as start. induction n as [|n IHn]; intros start; simpl; [reflexivity|].
  rewrite length_app, length_map, IHn. reflexivity.
Qed.

Lemma ravel_bound s : forall idx, in_bounds idx s -> ravel s idx < prod_shape s.
Proof.
  induction s as [|n s IH]; intros idx H; inversion H as [|i n' idx' s' Hi Hr]; subst.
  - simpl. unfold prod_shape. simpl. lia.
  - simpl. specialize (IH idx' Hr).
    change (prod_shape (n :: s)) with (n * prod_shape s). nia.
Qed.

Lemma ravel_app s1 s2 : forall i1 i2,
  length i1 = length s1 ->
  ravel (s1 ++ s2) (i1 ++ i2) = ravel s1 i1 * prod_shape s2 + ravel s2 i2.
Proof.
  induction s1 as [|n s1 IH]; intros [|i i1] i2 H; simpl in *; try discriminate.
  - reflexivity.
  - rewrite IH by lia. rewrite prod_shape_app. lia.
Qed.

Lemma nth_blocks {A} (g : nat -> list A) (P : nat) d : forall n start i q,
  (forall j, length (g j) = P) -> i < n -> q < P ->
  nth (i * P + q) (flat_map g (seq start n)) d = nth q (g (start + i)) d.
Proof.
  induction n as [|n IH]; intros start i q Hlen Hi Hq; [lia|]. simpl.
  destruct i as [|i].
  - simpl. rewrite app_nth1 by (rewrite Hlen; exact Hq). now rewrite Nat.add_0_r.
  - rewrite app_nth2 by (rewrite Hlen; simpl; lia).
    rewrite Hlen. replace (S i * P + q - P) with (i * P + q) by (simpl; lia).
    rewrite IH by (auto; lia). f_equal. f_equal. lia.
Qed.

(** The multi-index at the row-major position of [idx] is [idx]. *)
Lemma nth_indices s : forall idx d,
  in_bounds idx s -> nth (ravel s idx) (indices s) d = idx.
Proof.
  induction s as [|n s IH]; intros idx d H; inversion H as [|i n' idx' s' Hi Hr]; subst.
  - reflexivity.
  - simpl.
    rewrite (nth_blocks (fun i => map (cons i) (indices s)) (prod_shape s)).
    + simpl. assert (Hb := ravel_bound s idx' Hr).
      rewrite nth_indep with (d' := i :: d)
        by (rewrite length_map, indices_length; exact Hb).
      rewrite map_nth. now rewrite IH.
    + intros j. now rewrite length_map, indices_length.
    + exact Hi.
    + now apply ravel_bound.
Qed.






(** ** Named-axis operations *)

Lemma axis_eqb_eq a b : axis_eqb a b = true <-> a = b.
Proof.
  unfold axis_eqb. destruct a as [n s], b as [n' s']. simpl. split.
  - intros H. apply andb_true_iff in H. destruct H as [H1 H2].
    apply String.eqb_eq in H1. apply Nat.eqb_eq in H2. now subst.
  - intros [= -> ->]. now rewrite String.eqb_refl, Nat.eqb_refl.
Qed.

Lemma axis_in_In ax l : axis_in ax l = true <-> In ax l.
Proof.
  unfold axis_in. rewrite existsb_exists. split.
  - intros [b [Hb E]]. apply axis_eqb_eq in E. now subst.
  - intros H. exists ax. split; [exact H | now apply axis_eqb_eq].
Qed.

Lemma axis_in_false ax l : axis_in ax l = false <-> ~ In ax l.
Proof.
  rewrite <- axis_in_In. destruct (axis_in ax l); split; congruence.
Qed.

Lemma inb_in_bounds rho A :
  inb rho A -> in_bounds (map rho (axis_names A)) (axis_sizes A).
Proof.
  induction 1 as [|ax A H _ IH]; simpl; constructor; auto.
Qed.

Lemma inb_app rho A B : inb rho (A ++ B) <-> inb rho A /\ inb rho B.
Proof. apply Forall_app. Qed.

Lemma index_along_map new rho name :
  In name (axis_names new) ->
  index_along new (map rho (axis_names new)) name = rho name.
Proof.
  induction new as [|ax new IH]; simpl; [contradiction|].
  destruct (String.eqb (axis_name ax) name) eqn:E.
  - apply String.eqb_eq in E. now subst.
  - apply String.eqb_neq in E. intros [H|H]; [contradiction | auto].
Qed.




(** Rearranging leaves the element at given named coordinates in place. *)
Lemma rearrange_spec k a new :
  wf_named k a ->
  length new = length (axes a) ->
  (forall ax, In ax new <-> In ax (axes a)) ->
  exists b,
    rearrange a new = OK b /\ axes b = new /\ wf_named k b /\
    forall rho, inb rho new -> nget b rho = nget a rho.
Proof.
  intros [x [Hx [Hk [Hs Hwf]]]] Hlen Hperm.
  exists (mkNamed (VArr (transpose x (axes a) new)) new).
  split; [|split; [reflexivity|split]].
  - unfold rearrange, raw. rewrite Hx. simpl.
    assert (E : (length new =? length (axes a))
                && forallb (fun ax => axis_in ax (axes a)) new
                && forallb (fun ax => axis_in ax new) (axes a) = true).
    { rewrite Hlen, Nat.eqb_refl. simpl. apply andb_true_iff. split.
      - apply forallb_forall. intros ax Hin. apply axis_in_In. now apply Hperm.
      - apply forallb_forall. intros ax Hin. apply axis_in_In. now apply Hperm. }
    now rewrite E.
  - exists (transpose x (axes a) new). simpl.
    split; [reflexivity|]. split; [exact Hk|]. split; [reflexivity|].
    unfold wf_array. simpl. now rewrite length_map, indices_length.
  - intros rho Hrho. unfold nget. cbn [array axes]. rewrite Hx.
    unfold transpose. cbn [data].
    assert (Hb := inb_in_bounds rho new Hrho).
    set (f := fun idx' : list nat =>
                nth (ravel (axis_sizes (axes a))
                       (map (index_along new idx') (axis_names (axes a))))
                    (data x) NoneObj).
    rewrite nth_indep with (d' := f [])
      by (rewrite length_map, indices_length; now apply ravel_bound).
    rewrite map_nth. rewrite nth_indices by exact Hb.
    unfold f. f_equal. f_equal. apply map_ext_in. intros n Hn.
    apply index_along_map.
    unfold axis_names in *. apply in_map_iff in Hn. destruct Hn as [ax [<- Hax]].
    apply in_map. now apply Hperm.
Qed.

Lemma prod_shape_single n : prod_shape [n] = n.
Proof. unfold prod_shape. simpl. lia. Qed.

Lemma prod_shape_cons n s : prod_shape (n :: s) = n * prod_shape s.
Proof. reflexivity. Qed.

Lemma sizes_app A B : axis_sizes (A ++ B) = axis_sizes A ++ axis_sizes B.
Proof. apply map_app. Qed.

Lemma names_app A B : axis_names (A ++ B) = axis_names A ++ axis_names B.
Proof. apply map_app. Qed.

Lemma length_names A : length (map (fun _ : string => 0) (axis_names A)) = length A.
Proof. unfold axis_names. now rewrite !length_map. Qed.

Lemma flatten_axes_unfold a G new :
  G <> [] ->
  forallb (fun ax => axis_in ax (axes a)) G = true ->
  flatten_axes a G new =
  (b <- rearrange a (collapse (axes a) G G false) ;;
   x <- raw b ;;
   let new_axes :=
     collapse (axes a) G [mkAxis new (prod_shape (axis_sizes G))] false in
   y <- reshape x (axis_sizes new_axes) ;;
   OK (mkNamed (VArr y) new_axes)).
Proof.
  intros HG Hin. unfold flatten_axes. rewrite Hin.
  destruct G; [contradiction | reflexivity].
Qed.

Lemma collapse_seen G into : forall L post,
  (forall ax, In ax L -> In ax G) ->
  (forall ax, In ax post -> ~ In ax G) ->
  collapse (L ++ post) G into true = post.
Proof.
  induction L as [|x L IH]; intros post HL Hp.
  - simpl. induction post as [|y post IHp]; [reflexivity|]. simpl.
    assert (E : axis_in y G = false) by (apply axis_in_false, Hp; now left).
    rewrite E. f_equal. apply IHp. intros ax H. apply Hp. now right.
  - simpl. assert (E : axis_in x G = true) by (apply axis_in_In, HL; now left).
    rewrite E. apply IH; [|exact Hp]. intros ax H. apply HL. now right.
Qed.

(** Collapsing a group that stands together leaves one entry in its
    place. *)
Lemma collapse_contiguous pre G post into :
  G <> [] ->
  (forall ax, In ax pre -> ~ In ax G) ->
  (forall ax, In ax post -> ~ In ax G) ->
  collapse (pre ++ G ++ post) G into false = pre ++ into ++ post.
Proof.
  intros HG Hpre Hpost. induction pre as [|x pre IH].
  - simpl. destruct G as [|g G']; [contradiction|].
    cbn [app collapse].
    assert (E : axis_in g (g :: G') = true) by (apply axis_in_In; now left).
    rewrite E. f_equal. apply collapse_seen; [|exact Hpost].
    intros ax H. now right.
  - simpl. assert (E : axis_in x G = false) by (apply axis_in_false, Hpre; now left).
    rewrite E. f_equal. apply IH. intros ax H. apply Hpre. now right.
Qed.

(** Collapsing a group that stands together keeps every element, at the
    merged coordinate its group coordinates ravel to. *)
Lemma flatten_spec k a pre G post new :
  wf_named k a ->
  G <> [] ->
  axes a = pre ++ G ++ post ->
  (forall ax, In ax pre -> ~ In ax G) ->
  (forall ax, In ax post -> ~ In ax G) ->
  exists b,
    flatten_axes a G new = OK b /\
    axes b = pre ++ mkAxis new (prod_shape (axis_sizes G)) :: post /\
    wf_named k b /\
    forall rho, inb rho (pre ++ G ++ post) ->
      rho new = ravel (axis_sizes G) (map rho (axis_names G)) ->
      nget b rho = nget a rho.
Proof.
  intros Hwf HG Hax Hpre Hpost.
  set (N := mkAxis new (prod_shape (axis_sizes G))).
  assert (Hin : forallb (fun ax => axis_in ax (axes a)) G = true).
  { apply forallb_forall. intros ax H. apply axis_in_In. rewrite Hax.
    apply in_or_app. right. apply in_or_app. now left. }
  assert (Hmid : collapse (axes a) G G false = axes a).
  { rewrite Hax. now apply collapse_contiguous. }
  assert (Hnew : collapse (axes a) G [N] false = pre ++ N :: post).
  { rewrite Hax. now apply (collapse_contiguous pre G post [N]). }
  destruct (rearrange_spec k a (axes a) Hwf eq_refl (fun ax => iff_refl _))
    as [m [Hm [Haxm [[x [Hx [Hk [Hs Hwfx]]]] Hget]]]].
  assert (Hprod : prod_shape (axis_sizes (pre ++ N :: post)) = length (data x)).
  { unfold wf_array in Hwfx. rewrite Hwfx, Hs, Haxm, Hax.
    change (pre ++ N :: post) with (pre ++ [N] ++ post).
    rewrite !sizes_app, !prod_shape_app.
    cbn [axis_sizes map axis_size N]. now rewrite prod_shape_single. }
  exists (mkNamed (VArr (mkArr (kind x) (axis_sizes (pre ++ N :: post)) (data x)))
            (pre ++ N :: post)).
  split; [|split; [reflexivity|split]].
  - rewrite flatten_axes_unfold by assumption. cbv zeta.
    rewrite Hmid, Hm. cbn [bind]. unfold raw. rewrite Hx. cbn [bind].
    fold N. rewrite Hnew.
    unfold reshape. rewrite Hprod, Nat.eqb_refl. reflexivity.
  - eexists. simpl. split; [reflexivity|]. split; [exact Hk|]. split; [reflexivity|].
    unfold wf_array. simpl. now rewrite Hprod.
  - intros rho Hrho Hn. rewrite <- (Hget rho) by (now rewrite Hax).
    unfold nget. cbn [array axes data]. rewrite Hx, Haxm, Hax. f_equal.
    change (pre ++ N :: post) with (pre ++ [N] ++ post).
    rewrite !sizes_app, !names_app, !map_app.
    rewrite !ravel_app by (unfold axis_sizes, axis_names; now rewrite !length_map).
    cbn [axis_sizes axis_names map axis_size axis_name N].
    rewrite !prod_shape_app, prod_shape_single. cbn [ravel].
    rewrite Hn. change (prod_shape []) with 1. lia.
Qed.





(** Moving two distinct trailing axes to the end, in either order. *)
Lemma rearrange_last_spec k a E X Y U V :
  wf_named k a ->
  axes a = E ++ [X; Y] ->
  (U = X /\ V = Y) \/ (U = Y /\ V = X) ->
  ~ In (axis_name X) (axis_names E) ->
  ~ In (axis_name Y) (axis_names E) ->
  axis_name X <> axis_name Y ->
  exists b,
    rearrange_last a [axis_name U; axis_name V] = OK b /\
    axes b = E ++ [U; V] /\ wf_named k b /\
    forall rho, inb rho (E ++ [U; V]) -> nget b rho = nget a rho.
Proof.
  intros Hwf Hax HUV HX HY HXY.
  assert (HfX : find_axis (axes a) (axis_name X) = Some X).
  { rewrite Hax. unfold find_axis. clear Hax Hwf. induction E as [|e E IH]; simpl.
    - now rewrite String.eqb_refl.
    - simpl in HX, HY. destruct (String.eqb (axis_name e) (axis_name X)) eqn:Ee.
      + apply String.eqb_eq in Ee. tauto.
      + apply IH; tauto. }
  assert (HfY : find_axis (axes a) (axis_name Y) = Some Y).
  { rewrite Hax. unfold find_axis. clear Hax Hwf HfX. induction E as [|e E IH]; simpl.
    - destruct (String.eqb (axis_name X) (axis_name Y)) eqn:Exy.
      + apply String.eqb_eq in Exy. contradiction.
      + now rewrite String.eqb_refl.
    - simpl in HX, HY. destruct (String.eqb (axis_name e) (axis_name Y)) eqn:Ee.
      + apply String.eqb_eq in Ee. tauto.
      + apply IH; tauto. }
  assert (Hfilter : forall n1 n2,
            (n1 = axis_name X /\ n2 = axis_name Y) \/
            (n1 = axis_name Y /\ n2 = axis_name X) ->
            filter (fun ax => negb (name_in (axis_name ax) [n1; n2])) (axes a) = E).
  { intros n1 n2 Hn. rewrite Hax, filter_app.
    assert (E1 : filter (fun ax => negb (name_in (axis_name ax) [n1; n2])) [X; Y] = []).
    { simpl. destruct Hn as [[-> ->]|[-> ->]];
        rewrite !String.eqb_refl; simpl; rewrite ?orb_true_r; reflexivity. }
    rewrite E1, app_nil_r. clear Hax Hwf HfX HfY E1.
    induction E as [|e E IH]; simpl; [reflexivity|].
    simpl in HX, HY.
    assert (N1 : String.eqb (axis_name e) n1 = false).
    { apply String.eqb_neq. destruct Hn as [[-> _]|[-> _]]; intros Heq; tauto. }
    assert (N2 : String.eqb (axis_name e) n2 = false).
    { apply String.eqb_neq. destruct Hn as [[_ ->]|[_ ->]]; intros Heq; tauto. }
    rewrite N1, N2. simpl. f_equal. apply IH; tauto. }
  assert (Hperm : forall ax, In ax (E ++ [U; V]) <-> In ax (axes a)).
  { intros ax. rewrite Hax, !in_app_iff. simpl.
    destruct HUV as [[-> ->]|[-> ->]]; tauto. }
  assert (Hlen : length (E ++ [U; V]) = length (axes a)).
  { rewrite Hax, !length_app. reflexivity. }
  destruct (rearrange_spec k a (E ++ [U; V]) Hwf Hlen Hperm) as [b [Hb Hrest]].
  exists b. split; [|exact Hrest].
  unfold rearrange_last. cbn [find_axes].
  destruct HUV as [[-> ->]|[-> ->]]; rewrite ?HfX, ?HfY; cbn [bind].
  - rewrite (Hfilter (axis_name X) (axis_name Y)) by tauto. exact Hb.
  - rewrite (Hfilter (axis_name Y) (axis_name X)) by tauto. exact Hb.
Qed.

(** ** The linear-layer adapter *)

Lemma NoDup_app_disjoint {A} (l1 l2 : list A) :
  NoDup (l1 ++ l2) -> forall a, List.In a l1 -> List.In a l2 -> False.
Proof.
  induction l1 as [|x l1 IH]; simpl; intros H a H1 H2; [contradiction|].
  inversion H as [|? ? Hni Hnd]; subst. destruct H1 as [->|H1].
  - apply Hni. apply in_or_app. now right.
  - now apply (IH Hnd a).
Qed.



Lemma in_names ax L : List.In ax L -> List.In (axis_name ax) (axis_names L).
Proof. apply in_map. Qed.



Module LinearAdapterFacts.
Import LinearAdapter LinearAdapterSpec.

Section Layer.

Variable k : array_kind.
Variable E : list Axis.
Variable layer : Linear.
Hypothesis Hwf : linear_wf k E layer.

Local Abbreviation W := (weight layer).
Local Abbreviation I := (In layer).
Local Abbreviation O := (Out layer).
Local Abbreviation OUTa := (mkAxis OUT (prod_shape (axis_sizes (Out layer)))).
Local Abbreviation INa := (mkAxis IN (prod_shape (axis_sizes (In layer)))).

Lemma lw_weight : wf_named k W.
Proof. exact (proj1 Hwf). Qed.

Lemma lw_axes : axes W = E ++ (if out_first layer then O ++ I else I ++ O).
Proof. exact (proj1 (proj2 Hwf)). Qed.

Lemma lw_I : I <> [].
Proof. exact (proj1 (proj2 (proj2 (proj2 Hwf)))). Qed.

Lemma lw_O : O <> [].
Proof. exact (proj1 (proj2 (proj2 (proj2 (proj2 Hwf))))). Qed.

Lemma lw_names : NoDup (OUT :: IN :: axis_names (E ++ I ++ O)).
Proof. exact (proj2 (proj2 (proj2 (proj2 (proj2 Hwf))))). Qed.

Lemma lw_NoDup : NoDup (axis_names (E ++ I ++ O)).
Proof. assert (H := lw_names). inversion H as [|? ? _ H']. now inversion H'. Qed.

Lemma lw_OUT : ~ List.In OUT (axis_names (E ++ I ++ O)).
Proof.
  assert (H := lw_names). inversion H as [|? ? Hni _]. intros Hin. apply Hni. now right.
Qed.

Lemma lw_IN : ~ List.In IN (axis_names (E ++ I ++ O)).
Proof.
  assert (H := lw_names). inversion H as [|? ? _ H']. now inversion H'.
Qed.

Lemma lw_E_I ax : List.In ax E -> ~ List.In ax I.
Proof.
  intros H1 H2. assert (Hnd := lw_NoDup). rewrite !names_app in Hnd.
  apply (NoDup_app_disjoint _ _ Hnd (axis_name ax)); [now apply in_names|].
  apply in_or_app. left. now apply in_names.
Qed.

Lemma lw_E_O ax : List.In ax E -> ~ List.In ax O.
Proof.
  intros H1 H2. assert (Hnd := lw_NoDup). rewrite !names_app in Hnd.
  apply (NoDup_app_disjoint _ _ Hnd (axis_name ax)); [now apply in_names|].
  apply in_or_app. right. now apply in_names.
Qed.

Lemma lw_I_O ax : List.In ax I -> ~ List.In ax O.
Proof.
  intros H1 H2. assert (Hnd := lw_NoDup). rewrite !names_app in Hnd.
  apply NoDup_app_remove_l in Hnd.
  apply (NoDup_app_disjoint _ _ Hnd (axis_name ax)); now apply in_names.
Qed.



Lemma lw_W_length : length (axes W) = length (E ++ I ++ O).
Proof. rewrite lw_axes. destruct (out_first layer); rewrite !length_app; lia. Qed.

Lemma good_OUTa sigma : good E layer sigma -> inb sigma [OUTa].
Proof.
  intros [_ [_ [HO [Ho _]]]]. constructor; [|constructor]. simpl. rewrite Ho.
  apply ravel_bound. now apply inb_in_bounds.
Qed.

Lemma good_INa sigma : good E layer sigma -> inb sigma [INa].
Proof.
  intros [_ [HI [_ [_ Hi]]]]. constructor; [|constructor]. simpl. rewrite Hi.
  apply ravel_bound. now apply inb_in_bounds.
Qed.


Lemma lw_OUT_I ax : List.In ax [OUTa] -> ~ List.In ax I.
Proof.
  intros [<-|[]] Hin. apply in_names in Hin. simpl in Hin.
  apply lw_OUT. rewrite !names_app. apply in_or_app. right.
  apply in_or_app. now left.
Qed.

(** Step 2 of the flattening: the two collapses leave the synthetic axes
    behind the extra axes, in the layer's own orientation. *)
Lemma collapse_weight :
  exists w1 w2,
    flatten_axes W O OUT = OK w1 /\ flatten_axes w1 I IN = OK w2 /\
    axes w2 = E ++ synthetic layer (out_first layer) /\ wf_named k w2 /\
    forall sigma, good E layer sigma -> nget w2 sigma = nget W sigma.
Proof.
  assert (Hax := lw_axes). unfold synthetic.
  destruct (out_first layer).
  - destruct (flatten_spec k W E O I OUT lw_weight lw_O Hax lw_E_O)
      as [w1 [H1 [Hax1 [Hwf1 Hget1]]]].
    { intros ax H1 H2. exact (lw_I_O ax H1 H2). }
    assert (Hax1' : axes w1 = (E ++ [OUTa]) ++ I ++ []).
    { rewrite Hax1, app_nil_r, <- app_assoc. reflexivity. }
    destruct (flatten_spec k w1 (E ++ [OUTa]) I [] IN Hwf1 lw_I Hax1')
      as [w2 [H2 [Hax2 [Hwf2 Hget2]]]].
    { intros ax H. apply in_app_iff in H. destruct H as [H|H];
        [now apply lw_E_I | now apply lw_OUT_I]. }
    { intros ax []. }
    exists w1, w2. split; [exact H1|]. split; [exact H2|].
    split; [rewrite Hax2, <- app_assoc; reflexivity|]. split; [exact Hwf2|].
    intros sigma Hg. assert (HOa := good_OUTa sigma Hg).
    destruct Hg as [HE [HI [HO [Ho Hi]]]].
    rewrite Hget2, Hget1; auto.
    + apply inb_app. split; [|apply inb_app; split]; assumption.
    + apply inb_app. split; [apply inb_app; split; assumption|].
      apply inb_app. split; [assumption | constructor].
  - assert (Hax' : axes W = (E ++ I) ++ O ++ []).
    { rewrite Hax, app_nil_r, <- app_assoc. reflexivity. }
    destruct (flatten_spec k W (E ++ I) O [] OUT lw_weight lw_O Hax')
      as [w1 [H1 [Hax1 [Hwf1 Hget1]]]].
    { intros ax H. apply in_app_iff in H. destruct H as [H|H];
        [now apply lw_E_O | now apply lw_I_O]. }
    { intros ax []. }
    assert (Hax1' : axes w1 = E ++ I ++ [OUTa]).
    { rewrite Hax1, <- app_assoc. reflexivity. }
    destruct (flatten_spec k w1 E I [OUTa] IN Hwf1 lw_I Hax1' lw_E_I lw_OUT_I)
      as [w2 [H2 [Hax2 [Hwf2 Hget2]]]].
    exists w1, w2. split; [exact H1|]. split; [exact H2|].
    split; [exact Hax2|]. split; [exact Hwf2|].
    intros sigma Hg. assert (HOa := good_OUTa sigma Hg).
    destruct Hg as [HE [HI [HO [Ho Hi]]]].
    rewrite Hget2, Hget1; auto.
    + apply inb_app. split; [apply inb_app; split; assumption|].
      apply inb_app. split; [assumption | constructor].
    + apply inb_app. split; [|apply inb_app; split]; assumption.
Qed.

(** The raw array of a weight whose synthetic axes stand behind the extra
    axes, and that holds the elements of the layer's weight. *)
Lemma oriented_layout w (b : bool) :
  wf_named k w -> axes w = E ++ synthetic layer b ->
  (forall sigma, good E layer sigma -> nget w sigma = nget W sigma) ->
  exists x,
    array w = VArr x /\
    shape x = axis_sizes E ++
              (if b then [prod_shape (axis_sizes O); prod_shape (axis_sizes I)]
               else [prod_shape (axis_sizes I); prod_shape (axis_sizes O)]) /\
    wf_array x /\
    forall sigma, good E layer sigma ->
      nth (ravel (shape x)
             (map sigma (axis_names E) ++
              (if b then [sigma OUT; sigma IN] else [sigma IN; sigma OUT])))
          (data x) NoneObj
      = nget W sigma.
Proof.
  intros [x [Hx [_ [Hsh Hwfx]]]] Hax Hg. exists x.
  split; [exact Hx|]. split.
  { rewrite Hsh, Hax, sizes_app. destruct b; reflexivity. }
  split; [exact Hwfx|].
  intros sigma Hs. rewrite <- (Hg sigma Hs).
  unfold nget. rewrite Hx, <- Hsh, Hax, names_app, map_app.
  destruct b; reflexivity.
Qed.

Lemma lw_OUT_E : ~ List.In (axis_name OUTa) (axis_names E).
Proof.
  simpl. intros H. apply lw_OUT. rewrite names_app. apply in_or_app. now left.
Qed.

Lemma lw_IN_E : ~ List.In (axis_name INa) (axis_names E).
Proof.
  simpl. intros H. apply lw_IN. rewrite names_app. apply in_or_app. now left.
Qed.

Lemma lw_OUT_IN : axis_name OUTa <> axis_name INa.
Proof. simpl. discriminate. Qed.

(** Reordering the two synthetic axes. *)
Lemma reorder a (from to : bool) :
  wf_named k a -> axes a = E ++ synthetic layer from ->
  exists b,
    rearrange_last a (if to then [OUT; IN] else [IN; OUT]) = OK b /\
    axes b = E ++ synthetic layer to /\ wf_named k b /\
    forall sigma, good E layer sigma -> nget b sigma = nget a sigma.
Proof.
  intros Ha Hax.
  assert (Hinb : forall sigma, good E layer sigma -> inb sigma (E ++ synthetic layer to)).
  { intros sigma Hg. apply inb_app. split; [exact (proj1 Hg)|].
    assert (H1 := good_OUTa sigma Hg). assert (H2 := good_INa sigma Hg).
    inversion H1; inversion H2; subst. destruct to; simpl; repeat constructor; auto. }
  destruct from, to; simpl in Hax.
  - destruct (rearrange_last_spec k a E OUTa INa OUTa INa Ha Hax)
      as [b [Hb [Hab [Hwb Hg]]]]; auto using lw_OUT_E, lw_IN_E, lw_OUT_IN.
    exists b. split; [exact Hb|]. split; [exact Hab|]. split; [exact Hwb|].
    intros sigma Hs. apply Hg. exact (Hinb sigma Hs).
  - destruct (rearrange_last_spec k a E OUTa INa INa OUTa Ha Hax)
      as [b [Hb [Hab [Hwb Hg]]]]; auto using lw_OUT_E, lw_IN_E, lw_OUT_IN.
    exists b. split; [exact Hb|]. split; [exact Hab|]. split; [exact Hwb|].
    intros sigma Hs. apply Hg. exact (Hinb sigma Hs).
  - destruct (rearrange_last_spec k a E INa OUTa OUTa INa Ha Hax)
      as [b [Hb [Hab [Hwb Hg]]]]; auto using lw_OUT_E, lw_IN_E.
    { intros H. now apply lw_OUT_IN. }
    exists b. split; [exact Hb|]. split; [exact Hab|]. split; [exact Hwb|].
    intros sigma Hs. apply Hg. exact (Hinb sigma Hs).
  - destruct (rearrange_last_spec k a E INa OUTa INa OUTa Ha Hax)
      as [b [Hb [Hab [Hwb Hg]]]]; auto using lw_OUT_E, lw_IN_E.
    { intros H. now apply lw_OUT_IN. }
    exists b. split; [exact Hb|]. split; [exact Hab|]. split; [exact Hwb|].
    intros sigma Hs. apply Hg. exact (Hinb sigma Hs).
Qed.


End Layer.

Section LayerRoundTrip.

Variable k : array_kind.
Variable E : list Axis.
Variable layer : Linear.
Hypothesis Hwf : linear_wf k E layer.

Local Abbreviation W := (weight layer).
Local Abbreviation I := (In layer).
Local Abbreviation O := (Out layer).
Local Abbreviation OUTa := (mkAxis OUT (prod_shape (axis_sizes (Out layer)))).

Lemma lw_bias b : bias layer = Some b -> wf_named k b /\ axes b = E ++ O.
Proof. exact (proj1 (proj2 (proj2 Hwf)) b). Qed.





Lemma weight_bias_keys prefix : key_of prefix "weight" <> key_of prefix "bias".
Proof.
  destruct prefix as [p|]; simpl; [|discriminate].
  unfold key_of. simpl. intros H. apply append_inv_head in H. discriminate.
Qed.

End LayerRoundTrip.

Lemma example_layer_wf : linear_wf Jax [] example_layer.
Proof.
  unfold linear_wf. simpl. split.
  - eexists. repeat split.
  - split; [reflexivity|]. split.
    + intros b [= <-]. split; [eexists; repeat split | reflexivity].
    + split; [discriminate|]. split; [discriminate|].
      repeat constructor; simpl; intuition discriminate.
Qed.


(** C7, as stated, fails: the input-major layer of the specification's
    example, flattened with [out_first = None], comes out input-major, with
    the shape (input size, output size) = (6, 2) and the elements of the
    weight in their own order. *)
Lemma none_flag_keeps_input_major :
  linear_wf Jax [] example_layer /\
  exists sd x,
    flatten_linear_layers (Some "c_fc") example_layer None = OK sd /\
    dict_get sd (key_of (Some "c_fc") "weight") = Some (VArr x) /\
    shape x = [prod_shape (axis_sizes (In example_layer));
               prod_shape (axis_sizes (Out example_layer))] /\
    shape x = [6; 2] /\
    shape x <> [prod_shape (axis_sizes (Out example_layer));
                prod_shape (axis_sizes (In example_layer))] /\
    data x = count 12.
Proof.
  split; [exact example_layer_wf|].
  eexists. eexists. split; [vm_compute; reflexivity|].
  split; [vm_compute; reflexivity|].
  split; [reflexivity|]. split; [reflexivity|].
  split; [vm_compute; discriminate | reflexivity].
Qed.



(** C3, as stated, fails: a layer with non-empty groups and no extra axes,
    whose weight holds the output axis between the two input axes, comes
    back from the round trip with its axes regrouped: the raw weight
    returned is another array, for [out_first] [True] and [False]. *)
Lemma round_trip_regroups_axes :
  In interleaved_layer <> [] /\ Out interleaved_layer <> [] /\
  forall out_first : bool,
  exists sd r,
    flatten_linear_layers (Some "c_fc") interleaved_layer (Some out_first) = OK sd /\
    unflatten_linear_layers (Some "c_fc") sd interleaved_layer (Some out_first)
      = OK r /\
    dict_get r (key_of (Some "c_fc") "weight")
      = Some (VArr (mkArr Jax [2; 2; 2] (map Num [0; 2; 1; 3; 4; 6; 5; 7]%Z))) /\
    dict_get r (key_of (Some "c_fc") "weight")
      <> Some (array (weight interleaved_layer)).
Proof.
  split; [discriminate|]. split; [discriminate|].
  intros [|]; eexists; eexists;
    (split; [vm_compute; reflexivity|]);
    (split; [vm_compute; reflexivity|]);
    (split; [vm_compute; reflexivity|]);
    vm_compute; discriminate.
Qed.



End LinearAdapterFacts.

(* ===================================================================== *)
(** * Further properties of the codec                                    *)
(* ===================================================================== *)

Lemma apply_prefix_Some p l : exists q, apply_prefix (Some p) l = Some q.
Proof. destruct l; simpl; eauto. Qed.

(** X1: [apply_prefix] joins key paths the way a monoid does: the null prefix
    is neutral on either side, and nesting two levels under a prefix gives
    the key that the joined levels give. *)
Theorem apply_prefix_monoid : forall p a b,
  apply_prefix None a = a /\
  apply_prefix a None = a /\
  apply_prefix (apply_prefix p a) b = apply_prefix p (apply_prefix a b).
Proof.
  intros p a b. split; [reflexivity|]. split; [now destruct a|].
  destruct p as [p|], a as [a|], b as [b|]; simpl; try reflexivity.
  f_equal. rewrite !append_assoc. reflexivity.
Qed.

(** ** What a serialization does to the destination dictionary *)

Lemma for_each_rel {A} (R : StateDict -> StateDict -> Prop)
    (f : nat -> A -> StateDict -> upd) (l : list A) :
  (forall s, R s s) ->
  (forall a b c, R a b -> R b c -> R a c) ->
  (forall i x s s' e, In x l -> f i x s = (s', e) -> R s s') ->
  forall i sd sd' e, for_each f i l sd = (sd', e) -> R sd sd'.
Proof.
  intros Hrefl Htrans. induction l as [|x l IH]; intros Hf i sd sd' e H; simpl in H.
  - injection H as <- _. apply Hrefl.
  - destruct (f i x sd) as [s1 [e1|]] eqn:E.
    + injection H as <- _. apply (Hf i x sd s1 (Some e1)); [now left | exact E].
    + apply Htrans with s1.
      * apply (Hf i x sd s1 None); [now left | exact E].
      * apply (IH (fun i x s s' e Hin => Hf i x s s' e (or_intror Hin)) _ _ _ _ H).
Qed.

Section UpdateRel.

Variable R : StateDict -> StateDict -> Prop.
Hypothesis R_refl : forall s, R s s.
Hypothesis R_trans : forall a b c, R a b -> R b c -> R a c.
Hypothesis R_set : forall d k v, R d (dict_set d k v).

Lemma update_rel : forall t sd sd' p e,
  update_state_dict_with_jax_tree t sd p = (sd', e) -> R sd sd'.
Proof.
  induction t as [|a|na|items IH|items IH|km fields IH] using tree_ind';
    intros sd sd' p e Hu; simpl in Hu.
  - destruct p; injection Hu as <- _; apply R_refl.
  - destruct p; injection Hu as <- _; [apply R_set | apply R_refl].
  - destruct p; injection Hu as <- _; [apply R_set | apply R_refl].
  - rewrite Forall_forall in IH.
    apply (for_each_rel R _ items R_refl R_trans) in Hu; [exact Hu|].
    intros i x s s' e' Hin Hx. exact (IH x Hin _ _ _ _ Hx).
  - rewrite Forall_forall in IH.
    apply (for_each_rel R _ items R_refl R_trans) in Hu; [exact Hu|].
    intros i [k c] s s' e' Hin Hx. exact (IH (k, c) Hin _ _ _ _ Hx).
  - rewrite Forall_forall in IH.
    apply (for_each_rel R _ fields R_refl R_trans) in Hu; [exact Hu|].
    intros i [[name [|]] c] s s' e' Hin Hx.
    + injection Hx as <- _. apply R_refl.
    + exact (IH (name, false, c) Hin _ _ _ _ Hx).
Qed.

End UpdateRel.

Lemma dict_keys_set {V} (d : dict V) k v :
  exists l, dict_keys (dict_set d k v) = dict_keys d ++ l.
Proof.
  induction d as [|[k0 v0] d [l IH]]; simpl.
  - now exists [k].
  - destruct (String.eqb k0 k); simpl.
    + exists []. now rewrite app_nil_r.
    + exists l. now rewrite IH.
Qed.

Lemma update_keys_grow t sd sd' p e :
  update_state_dict_with_jax_tree t sd p = (sd', e) ->
  exists l, dict_keys sd' = dict_keys sd ++ l.
Proof.
  apply (update_rel (fun d d' => exists l, dict_keys d' = dict_keys d ++ l)).
  - intros s. exists []. now rewrite app_nil_r.
  - intros a b c [l1 H1] [l2 H2]. exists (l1 ++ l2). now rewrite H2, H1, app_assoc.
  - intros d k v. apply dict_keys_set.
Qed.

Lemma update_NoDup t sd sd' p e :
  update_state_dict_with_jax_tree t sd p = (sd', e) ->
  NoDup (dict_keys sd) -> NoDup (dict_keys sd').
Proof.
  apply (update_rel (fun d d' => NoDup (dict_keys d) -> NoDup (dict_keys d'))).
  - auto.
  - auto.
  - intros d k v. apply dict_keys_set_NoDup.
Qed.

Lemma to_state_dict_inv t p sd :
  jax_tree_to_state_dict t p = OK sd ->
  update_state_dict_with_jax_tree t [] p = (sd, None).
Proof.
  unfold jax_tree_to_state_dict.
  destruct (update_state_dict_with_jax_tree t [] p) as [s [e|]]; [discriminate|].
  now intros [= ->].
Qed.

Lemma stored_is_leaf t p sd k v :
  jax_tree_to_state_dict t p = OK sd ->
  dict_get sd k = Some v -> leaf_at t p k v.
Proof.
  intros H Hg. apply to_state_dict_inv, update_writes in H.
  destruct (proj1 H k) as [E|[v' [Hl E]]].
  - rewrite Hg in E. discriminate.
  - rewrite Hg in E. now injection E as ->.
Qed.

Lemma leaf_is_stored t p sd k v :
  jax_tree_to_state_dict t p = OK sd ->
  leaf_at t p k v -> exists v', leaf_at t p k v' /\ dict_get sd k = Some v'.
Proof.
  intros H Hl. apply to_state_dict_inv, update_writes in H.
  exact (proj2 H k v Hl).
Qed.

Lemma in_keys_get {V} (d : dict V) k :
  In k (dict_keys d) <-> exists v, dict_get d k = Some v.
Proof.
  destruct (dict_get d k) as [v|] eqn:E.
  - split; [eauto|]. intros _. apply dict_get_In in E.
    unfold dict_keys. apply in_map_iff. now exists (k, v).
  - split; [|intros [v Hv]; discriminate].
    intros Hin. apply dict_get_None in E. contradiction.
Qed.

(** X2: Serializing into a dictionary that already holds entries keeps them:
    the keys that were there stay where they are, new keys come after
    them, and an entry whose key is no leaf key of the tree keeps its
    value. *)
Theorem update_keeps_other_entries : forall t sd sd' p,
  update_state_dict_with_jax_tree t sd p = (sd', None) ->
  (exists l, dict_keys sd' = dict_keys sd ++ l) /\
  (forall k, (forall v, ~ leaf_at t p k v) -> dict_get sd' k = dict_get sd k).
Proof.
  intros t sd sd' p Hu. split.
  - exact (update_keys_grow _ _ _ _ _ Hu).
  - intros k Hk. apply update_writes in Hu.
    destruct (proj1 Hu k) as [E|[v [Hl _]]]; [exact E|].
    exfalso. exact (Hk v Hl).
Qed.

Lemma update_keeps_other_entries_witness :
  exists sd',
    update_state_dict_with_jax_tree (sample_tree 1 2 3 4) old_entries (Some "m")
      = (sd', None) /\
    (exists l, dict_keys sd' = dict_keys old_entries ++ l) /\
    (forall k, (forall v, ~ leaf_at (sample_tree 1 2 3 4) (Some "m") k v) ->
               dict_get sd' k = dict_get old_entries k).
Proof.
  eexists. split; [vm_compute; reflexivity|].
  apply update_keeps_other_entries. vm_compute. reflexivity.
Defined.

(** X3: The keys of [to_state_dict] are the keys of the tensor leaves, each
    once, and a key holds the raw value of a leaf with that key: [None]
    leaves and static fields leave no entry. *)
Theorem to_state_dict_keys : forall t p sd,
  jax_tree_to_state_dict t p = OK sd ->
  NoDup (dict_keys sd) /\
  (forall k, In k (dict_keys sd) <-> exists v, leaf_at t p k v) /\
  (forall k v, dict_get sd k = Some v -> leaf_at t p k v).
Proof.
  intros t p sd H. split; [|split].
  - apply (update_NoDup _ _ _ _ _ (to_state_dict_inv _ _ _ H)). constructor.
  - intros k. rewrite in_keys_get. split.
    + intros [v Hv]. exists v. exact (stored_is_leaf _ _ _ _ _ H Hv).
    + intros [v Hv]. destruct (leaf_is_stored _ _ _ _ _ H Hv) as [v' [_ E]]. eauto.
  - intros k v. apply stored_is_leaf. exact H.
Qed.

Lemma to_state_dict_keys_witness :
  exists sd,
    jax_tree_to_state_dict (sample_tree 1 2 3 4) (Some "m") = OK sd /\
    NoDup (dict_keys sd) /\
    (forall k, In k (dict_keys sd) <->
               exists v, leaf_at (sample_tree 1 2 3 4) (Some "m") k v) /\
    (forall k v, dict_get sd k = Some v ->
                 leaf_at (sample_tree 1 2 3 4) (Some "m") k v).
Proof.
  eexists. split; [vm_compute; reflexivity|].
  apply to_state_dict_keys. vm_compute. reflexivity.
Defined.

(** ** Serialization under a string prefix *)

Lemma update_some_total : forall t p sd,
  exists sd', update_state_dict_with_jax_tree t sd (Some p) = (sd', None).
Proof.
  induction t as [|a|na|items IH|items IH|km fields IH] using tree_ind';
    intros p sd; simpl; eauto.
  - apply for_each_total. intros j x s Hn. rewrite Forall_forall in IH.
    apply (IH x (nth_error_In _ _ Hn)).
  - apply for_each_total. intros j [k c] s Hn. rewrite Forall_forall in IH.
    apply (IH (k, c) (nth_error_In _ _ Hn)).
  - apply for_each_total. intros j [[name [|]] c] s Hn; cbv beta iota; [eauto|].
    rewrite Forall_forall in IH. cbv zeta.
    destruct (key_map_get km name) as [s'|];
      apply (IH (name, false, c) (nth_error_In _ _ Hn)).
Qed.

Lemma startswith_trans k p q :
  startswith k q = true -> startswith q p = true -> startswith k p = true.
Proof.
  intros H1 H2. apply startswith_iff in H1, H2.
  destruct H1 as [r1 ->], H2 as [r2 ->].
  rewrite append_assoc. apply startswith_app.
Qed.

Lemma under_step k p s :
  k = (p ++ "." ++ s)%string \/ startswith k ((p ++ "." ++ s) ++ ".") = true ->
  startswith k (p ++ ".") = true.
Proof.
  intros [->|H].
  - rewrite <- append_assoc. apply startswith_app.
  - apply (startswith_trans _ _ _ H).
    replace ((p ++ "." ++ s) ++ ".")%string with ((p ++ ".") ++ s ++ ".")%string
      by (now rewrite !append_assoc).
    apply startswith_app.
Qed.

Lemma leaves_under : forall t p q v,
  In (q, v) (leaves t (Some p)) ->
  exists k, q = Some k /\ (k = p \/ startswith k (p ++ ".") = true).
Proof.
  induction t as [|a|na|items IH|items IH|km fields IH] using tree_ind';
    intros p q v Hin; simpl in Hin.
  - contradiction.
  - destruct Hin as [[= <- _]|[]]. eauto.
  - destruct Hin as [[= <- _]|[]]. eauto.
  - apply In_flat_mapi in Hin. destruct Hin as [j [x [Hn Hx]]].
    rewrite Forall_forall in IH. simpl in Hx.
    destruct (IH x (nth_error_In _ _ Hn) _ _ _ Hx) as [k [-> Hk]].
    exists k. split; [reflexivity|]. right. now apply under_step with (s := str j).
  - apply In_flat_mapi in Hin. destruct Hin as [j [[k0 c] [Hn Hx]]].
    rewrite Forall_forall in IH. simpl in Hx.
    destruct (IH (k0, c) (nth_error_In _ _ Hn) _ _ _ Hx) as [k [-> Hk]].
    exists k. split; [reflexivity|]. right. now apply under_step with (s := k0).
  - apply In_flat_mapi in Hin. destruct Hin as [j [[[name [|]] c] [Hn Hx]]];
      simpl in Hx; [contradiction|].
    rewrite Forall_forall in IH.
    destruct (key_map_get km name) as [s|]; simpl in Hx.
    + destruct (IH (name, false, c) (nth_error_In _ _ Hn) _ _ _ Hx) as [k [-> Hk]].
      exists k. split; [reflexivity|]. right. now apply under_step with (s := s).
    + exact (IH (name, false, c) (nth_error_In _ _ Hn) _ _ _ Hx).
Qed.

(** X4: With a string prefix, [to_state_dict] never raises, whatever the tree
    holds, and every key it emits is the prefix itself or lies under the
    prefix and a dot. *)
Theorem to_state_dict_under_prefix : forall t p,
  exists sd,
    jax_tree_to_state_dict t (Some p) = OK sd /\
    forall k, In k (dict_keys sd) -> k = p \/ startswith k (p ++ ".") = true.
Proof.
  intros t p. destruct (update_some_total t p []) as [sd Hu].
  assert (H : jax_tree_to_state_dict t (Some p) = OK sd).
  { unfold jax_tree_to_state_dict. now rewrite Hu. }
  exists sd. split; [exact H|].
  intros k Hin. apply in_keys_get in Hin. destruct Hin as [v Hv].
  apply (stored_is_leaf _ _ _ _ _ H) in Hv.
  destruct (leaves_under _ _ _ _ Hv) as [k' [[= <-] Hk]]. exact Hk.
Qed.

(** ** Reading a tree back *)


Lemma traverse_nth {A B} (f : nat -> A -> result B) (l : list A) (l' : list B) i :
  traverse f i l = OK l' ->
  (forall j x, nth_error l j = Some x ->
     exists y, nth_error l' j = Some y /\ f (i + j) x = OK y) /\
  (forall j y, nth_error l' j = Some y ->
     exists x, nth_error l j = Some x /\ f (i + j) x = OK y).
Proof.
  intros H. destruct (traverse_inv _ _ _ _ H) as [Hlen Hnth].
  split; [exact Hnth|].
  intros j y Hy.
  assert (Hj : j < length l).
  { rewrite Hlen. apply nth_error_Some. congruence. }
  destruct (nth_error l j) as [x|] eqn:E.
  - exists x. split; [reflexivity|].
    destruct (Hnth j x E) as [y' [Hy' Hf]]. congruence.
  - apply nth_error_None in E. lia.
Qed.



(** What the branches of the two kinds of tensor leaf return. *)
Lemma read_leaf_inv sd p t' :
  (match p with
   | None => Raise ValueError
   | Some k => v <- dict_index sd k ;; a <- jnp_array v ;; OK (Leaf a)
   end) = OK t' ->
  exists k v a, p = Some k /\ dict_get sd k = Some v /\ jnp_array v = OK a /\
                t' = Leaf a.
Proof.
  destruct p as [k|]; [|discriminate]. unfold dict_index.
  destruct (dict_get sd k) as [v|] eqn:Hg; cbn [bind]; [|discriminate].
  destruct (jnp_array v) as [a|] eqn:E; cbn [bind]; [|discriminate].
  intros [= <-]. exists k, v, a. repeat split; auto.
Qed.

Lemma read_named_inv sd p axs t' :
  (match p with
   | None => Raise ValueError
   | Some k =>
       v <- dict_index sd k ;; a <- jnp_array v ;;
       if same_sizes (shape a) axs then OK (Named (mkNamed (VArr a) axs))
       else Raise ValueError
   end) = OK t' ->
  exists k v a, p = Some k /\ dict_get sd k = Some v /\ jnp_array v = OK a /\
                same_sizes (shape a) axs = true /\
                t' = Named (mkNamed (VArr a) axs).
Proof.
  destruct p as [k|]; [|discriminate]. unfold dict_index.
  destruct (dict_get sd k) as [v|] eqn:Hg; cbn [bind]; [|discriminate].
  destruct (jnp_array v) as [a|] eqn:E; cbn [bind]; [|discriminate].
  destruct (same_sizes (shape a) axs) eqn:Es; [|discriminate].
  intros [= <-]. exists k, v, a. repeat split; auto.
Qed.






(** ** Static fields *)

Lemma for_each_skip {A} (f : nat -> A -> StateDict -> upd) (x : A) (l2 : list A) :
  (forall i j y s, f i y s = f j y s) ->
  (forall i s, f i x s = (s, None)) ->
  forall l1 i sd,
    for_each f i (l1 ++ x :: l2) sd = for_each f i (l1 ++ l2) sd.
Proof.
  intros Hidx Hx.
  assert (Hshift : forall l i j sd, for_each f i l sd = for_each f j l sd).
  { induction l as [|y l IH]; intros i j sd; simpl; [reflexivity|].
    rewrite (Hidx i j). destruct (f j y sd) as [s [e|]]; [reflexivity|].
    apply IH. }
  induction l1 as [|y l1 IH]; intros i sd; simpl.
  - rewrite Hx. apply Hshift.
  - destruct (f i y sd) as [s [e|]]; [reflexivity|]. apply IH.
Qed.

(** X7: A static field takes no part in the codec: a module serializes to
    what it gives without the field, and reading a module back returns the
    field as the template has it, at its place. *)
Theorem static_field_ignored : forall km fs1 name c fs2 sd p,
  update_state_dict_with_jax_tree (TModule km (fs1 ++ (name, true, c) :: fs2)) sd p
  = update_state_dict_with_jax_tree (TModule km (fs1 ++ fs2)) sd p /\
  forall t',
    jax_tree_from_state_dict (TModule km (fs1 ++ (name, true, c) :: fs2)) sd p = OK t' ->
    exists fs', t' = TModule km fs' /\
                nth_error fs' (length fs1) = Some (name, true, c).
Proof.
  intros km fs1 name c fs2 sd p. split.
  - simpl. apply for_each_skip.
    + intros i j [[n st] v] s. reflexivity.
    + intros i s. reflexivity.
  - intros t' H. simpl in H.
    lazymatch type of H with context [traverse ?f 0 ?l] =>
      destruct (traverse f 0 l) as [l'|] eqn:E end; simpl in H; [|discriminate].
    injection H as <-. exists l'. split; [reflexivity|].
    apply traverse_nth in E. destruct E as [E1 _].
    destruct (E1 (length fs1) (name, true, c)) as [y [Hy Hf]].
    + rewrite nth_error_app2 by lia. now rewrite Nat.sub_diag.
    + simpl in Hf. injection Hf as <-. exact Hy.
Qed.

(** ** The structure of a tree that was read *)

Lemma Forall2_from_nth {A B} (R : A -> B -> Prop) : forall l l',
  length l = length l' ->
  (forall j x y, nth_error l j = Some x -> nth_error l' j = Some y -> R x y) ->
  Forall2 R l l'.
Proof.
  induction l as [|x l IH]; intros [|y l'] Hlen H; simpl in Hlen; try discriminate.
  - constructor.
  - constructor.
    + exact (H 0 x y eq_refl eq_refl).
    + apply IH; [lia|]. intros j x' y' Hx Hy. exact (H (S j) x' y' Hx Hy).
Qed.

Lemma traverse_Forall2 {A B} (R : A -> B -> Prop) (f : nat -> A -> result B) l l' i :
  traverse f i l = OK l' ->
  (forall j x y, In x l -> f j x = OK y -> R x y) ->
  Forall2 R l l'.
Proof.
  intros H HR. destruct (traverse_inv _ _ _ _ H) as [Hlen Hnth].
  apply Forall2_from_nth; [exact Hlen|].
  intros j x y Hx Hy. destruct (Hnth j x Hx) as [y' [Hy' Hf]].
  assert (y' = y) by congruence. subst y'.
  exact (HR _ x y (nth_error_In _ _ Hx) Hf).
Qed.

Lemma traverse_forallb {A B} (P : B -> bool) (f : nat -> A -> result B) l l' i :
  traverse f i l = OK l' ->
  (forall j x y, In x l -> f j x = OK y -> P y = true) ->
  forallb P l' = true.
Proof.
  intros H HP. apply traverse_nth in H. destruct H as [_ H2].
  apply forallb_forall. intros y Hy. apply In_nth_error in Hy.
  destruct Hy as [j Hj]. destruct (H2 j y Hj) as [x [Hx Hf]].
  exact (HP _ x y (nth_error_In _ _ Hx) Hf).
Qed.

(** X21: Reading a tree without [None] leaves gives a tree of the same
    structure: the same nesting, mapping keys, field names and key maps,
    the template's own static fields and the template's axes on every
    named array; and the tree read has no [None] leaf either. *)
Theorem from_state_dict_keeps_structure : forall t sd p t',
  none_free t = true ->
  jax_tree_from_state_dict t sd p = OK t' ->
  same_shape t t' /\ none_free t' = true.
Proof.
  induction t as [|a|na|items IH|items IH|km fields IH] using tree_ind';
    intros sd p t' Hnf H; simpl in H, Hnf.
  - discriminate.
  - apply read_leaf_inv in H. destruct H as [k [v0 [a' [_ [_ [_ ->]]]]]].
    split; [constructor | reflexivity].
  - apply read_named_inv in H. destruct H as [k [v0 [a' [_ [_ [_ [_ ->]]]]]]].
    split; [now constructor | reflexivity].
  - lazymatch type of H with context [traverse ?f 0 items] =>
      destruct (traverse f 0 items) as [l'|] eqn:E end; simpl in H; [|discriminate].
    injection H as <-. rewrite Forall_forall in IH. rewrite forallb_forall in Hnf.
    split.
    + constructor. apply (traverse_Forall2 _ _ _ _ _ E).
      intros j x y Hin Hf. exact (proj1 (IH x Hin _ _ _ (Hnf x Hin) Hf)).
    + simpl. apply (traverse_forallb _ _ _ _ _ E).
      intros j x y Hin Hf. exact (proj2 (IH x Hin _ _ _ (Hnf x Hin) Hf)).
  - lazymatch type of H with context [traverse ?f 0 items] =>
      destruct (traverse f 0 items) as [l'|] eqn:E end; simpl in H; [|discriminate].
    injection H as <-. rewrite Forall_forall in IH. rewrite forallb_forall in Hnf.
    split.
    + constructor. apply (traverse_Forall2 _ _ _ _ _ E).
      intros j [k c] [k' c'] Hin Hf. simpl in Hf.
      destruct (jax_tree_from_state_dict c sd (apply_prefix p (Some k))) as [c2|] eqn:Ec;
        simpl in Hf; [|discriminate].
      injection Hf as <- <-. simpl. split; [reflexivity|].
      exact (proj1 (IH (k, c) Hin _ _ _ (Hnf (k, c) Hin) Ec)).
    + simpl. apply (traverse_forallb _ _ _ _ _ E).
      intros j [k c] [k' c'] Hin Hf. simpl in Hf.
      destruct (jax_tree_from_state_dict c sd (apply_prefix p (Some k))) as [c2|] eqn:Ec;
        simpl in Hf; [|discriminate].
      injection Hf as <- <-. simpl.
      exact (proj2 (IH (k, c) Hin _ _ _ (Hnf (k, c) Hin) Ec)).
  - lazymatch type of H with context [traverse ?f 0 fields] =>
      destruct (traverse f 0 fields) as [l'|] eqn:E end; simpl in H; [|discriminate].
    injection H as <-. rewrite Forall_forall in IH. rewrite forallb_forall in Hnf.
    split.
    + constructor. apply (traverse_Forall2 _ _ _ _ _ E).
      intros j [[name st] c] [[name' st'] c'] Hin Hf. simpl in Hf.
      destruct st.
      * injection Hf as <- <- <-. simpl. split; [reflexivity|].
        split; [reflexivity | discriminate].
      * destruct (jax_tree_from_state_dict c sd (apply_prefix p (key_map_get km name)))
          as [c2|] eqn:Ec; simpl in Hf; [|discriminate].
        injection Hf as <- <- <-. simpl. split; [reflexivity|].
        split; [discriminate|]. intros _.
        assert (Hc := Hnf _ Hin). simpl in Hc.
        exact (proj1 (IH (name, false, c) Hin _ _ _ Hc Ec)).
    + simpl. apply (traverse_forallb _ _ _ _ _ E).
      intros j [[name st] c] [[name' st'] c'] Hin Hf. simpl in Hf.
      destruct st.
      * injection Hf as <- <- <-. reflexivity.
      * destruct (jax_tree_from_state_dict c sd (apply_prefix p (key_map_get km name)))
          as [c2|] eqn:Ec; simpl in Hf; [|discriminate].
        injection Hf as <- <- <-. simpl.
        assert (Hc := Hnf _ Hin). simpl in Hc.
        exact (proj2 (IH (name, false, c) Hin _ _ _ Hc Ec)).
Qed.

Lemma from_state_dict_keeps_structure_witness :
  none_free (sample_tree 0 0 0 0) = true /\
  exists t',
    jax_tree_from_state_dict (sample_tree 0 0 0 0) sample_dict (Some "m") = OK t' /\
    same_shape (sample_tree 0 0 0 0) t' /\ none_free t' = true.
Proof.
  split; [reflexivity|].
  eexists. split; [vm_compute; reflexivity|].
  apply (from_state_dict_keeps_structure (sample_tree 0 0 0 0) sample_dict (Some "m"));
    [reflexivity | vm_compute; reflexivity].
Defined.

(** ** The exceptions of reading *)

Lemma traverse_raise_inv {A B} (f : nat -> A -> result B) (l : list A) : forall i e,
  traverse f i l = Raise e ->
  exists j x, In x l /\ f j x = Raise e.
Proof.
  induction l as [|x l IH]; intros i e H; simpl in H; [discriminate|].
  destruct (f i x) as [y|e1] eqn:E; simpl in H.
  - destruct (traverse f (S i) l) as [l'|e2] eqn:E2; simpl in H; [discriminate|].
    injection H as <-. destruct (IH _ _ E2) as [j [x' [Hin Hf]]].
    exists j, x'. split; [now right | exact Hf].
  - injection H as <-. exists i, x. split; [now left | exact E].
Qed.

(** X22: When [from_state_dict] raises, it raises the [KeyError] of a missing
    key, the [TypeError] of an object array that [jnp.array] rejects, or
    the [ValueError] of a leaf without a key or of a named array whose
    shape is not that of its axes, and nothing else. *)
Theorem from_state_dict_raises_only : forall t sd p e,
  jax_tree_from_state_dict t sd p = Raise e ->
  e = KeyError \/ e = TypeError \/ e = ValueError.
Proof.
  assert (Hjnp : forall v e, jnp_array v = Raise e -> e = TypeError).
  { intros [|a] e; simpl; [discriminate|].
    destruct (numeric a); [discriminate | now intros [= <-]]. }
  induction t as [|a|na|items IH|items IH|km fields IH] using tree_ind';
    intros sd p e H; simpl in H.
  - destruct p as [k|]; [|discriminate].
    destruct (dict_get sd k) as [[|a]|]; discriminate.
  - destruct p as [k|]; [|injection H as <-; auto].
    unfold dict_index in H.
    destruct (dict_get sd k) as [v|]; cbn [bind] in H; [|injection H as <-; auto].
    destruct (jnp_array v) as [a'|e'] eqn:E; cbn [bind] in H; [discriminate|].
    injection H as <-. right. left. exact (Hjnp _ _ E).
  - destruct p as [k|]; [|injection H as <-; auto].
    unfold dict_index in H.
    destruct (dict_get sd k) as [v|]; cbn [bind] in H; [|injection H as <-; auto].
    destruct (jnp_array v) as [a'|e'] eqn:E; cbn [bind] in H.
    + destruct (same_sizes (shape a') (axes na)); [discriminate|].
      injection H as <-. auto.
    + injection H as <-. right. left. exact (Hjnp _ _ E).
  - lazymatch type of H with context [traverse ?f 0 items] =>
      destruct (traverse f 0 items) as [l'|e'] eqn:E end; simpl in H; [discriminate|].
    injection H as <-. apply traverse_raise_inv in E.
    destruct E as [j [x [Hin Hf]]]. rewrite Forall_forall in IH.
    exact (IH x Hin _ _ _ Hf).
  - lazymatch type of H with context [traverse ?f 0 items] =>
      destruct (traverse f 0 items) as [l'|e'] eqn:E end; simpl in H; [discriminate|].
    injection H as <-. apply traverse_raise_inv in E.
    destruct E as [j [[k c] [Hin Hf]]]. rewrite Forall_forall in IH. simpl in Hf.
    destruct (jax_tree_from_state_dict c sd (apply_prefix p (Some k))) as [c2|e2] eqn:Ec;
      simpl in Hf; [discriminate|].
    injection Hf as <-. exact (IH (k, c) Hin _ _ _ Ec).
  - lazymatch type of H with context [traverse ?f 0 fields] =>
      destruct (traverse f 0 fields) as [l'|e'] eqn:E end; simpl in H; [discriminate|].
    injection H as <-. apply traverse_raise_inv in E.
    destruct E as [j [[[name [|]] c] [Hin Hf]]]; simpl in Hf; [discriminate|].
    rewrite Forall_forall in IH.
    destruct (jax_tree_from_state_dict c sd (apply_prefix p (key_map_get km name)))
      as [c2|e2] eqn:Ec; simpl in Hf; [discriminate|].
    injection Hf as <-. exact (IH (name, false, c) Hin _ _ _ Ec).
Qed.

Lemma from_state_dict_raises_only_witness :
  jax_tree_from_state_dict (sample_tree 0 0 0 0) old_entries (Some "m")
    = Raise ValueError /\
  (ValueError = KeyError \/ ValueError = TypeError \/ ValueError = ValueError).
Proof.
  split; [reflexivity|].
  exact (from_state_dict_raises_only (sample_tree 0 0 0 0) old_entries (Some "m")
           ValueError eq_refl).
Defined.

(* ===================================================================== *)
(** * The codec: key maps                                                *)
(* ===================================================================== *)

(** C8, as the claim states it, fails in its first part: the renamed field
    of [shadowing_module] is stored under [m.foreign_name], and the field
    that comes after it is stored under the same key and replaces it; the
    dictionary that serialization returns does not hold the value of
    [field_a] under [m.foreign_name]. *)
Lemma key_map_value_overwritten :
  exists sd,
    jax_tree_to_state_dict shadowing_module (Some "m") = OK sd /\
    leaf_at shadowing_module (Some "m") "m.foreign_name" (VArr (vec [1%Z])) /\
    dict_get sd "m.foreign_name" <> Some (VArr (vec [1%Z])).
Proof.
  eexists. split; [reflexivity|]. split; [left; reflexivity|].
  simpl. discriminate.
Qed.



(* ===================================================================== *)
(** * Further properties of the stack/unstack adapter                    *)
(* ===================================================================== *)

Lemma apply_prefix_key_of p l : apply_prefix p (Some l) = Some (key_of p l).
Proof. destruct p; reflexivity. Qed.

Lemma unstack_state_dict_loop d p :
  unstack_state_dict d p = unstack_loop (key_of p "") d [].
Proof. unfold unstack_state_dict. now rewrite apply_prefix_key_of. Qed.

(** The loop of [unstack_state_dict] either runs to its end, and then no
    tensor under the prefix is 0-dimensional, or it stops at such a
    tensor. *)
Lemma unstack_loop_cases prefix : forall items nd,
  (exists r, unstack_loop prefix items nd = OK r /\
     forall k a, In (k, VArr a) items -> startswith k prefix = true -> shape a <> []) \/
  (unstack_loop prefix items nd = Raise TypeError /\
     exists k a, In (k, VArr a) items /\ startswith k prefix = true /\ shape a = []).
Proof.
  induction items as [|[k v] items IH]; intros nd; simpl.
  - left. exists nd. split; [reflexivity|]. intros k a [].
  - destruct v as [|a].
    + destruct (IH (dict_set nd k VNone)) as [[r [Hr Hs]]|[Hr [k' [a' [Hin H]]]]].
      * left. exists r. split; [exact Hr|].
        intros k' a' [[=]|Hin]. exact (Hs k' a' Hin).
      * right. split; [exact Hr|]. exists k', a'. split; [now right | exact H].
    + destruct (startswith k prefix) eqn:Es.
      * unfold iterate. destruct (shape a) as [|n s] eqn:Sh; simpl.
        -- right. split; [reflexivity|]. exists k, a. split; [now left | auto].
        -- lazymatch goal with |- context [unstack_loop prefix items ?nd'] =>
             destruct (IH nd') as [[r [Hr Hs]]|[Hr [k' [a' [Hin H]]]]] end.
           ++ left. exists r. split; [exact Hr|].
              intros k' a' [[= <- <-]|Hin] Hk'; [rewrite Sh; discriminate|].
              exact (Hs k' a' Hin Hk').
           ++ right. split; [exact Hr|]. exists k', a'. split; [now right | exact H].
      * destruct (IH (dict_set nd k (VArr a))) as [[r [Hr Hs]]|[Hr [k' [a' [Hin H]]]]].
        -- left. exists r. split; [exact Hr|].
           intros k' a' [[= <- <-]|Hin] Hk'; [congruence|]. exact (Hs k' a' Hin Hk').
        -- right. split; [exact Hr|]. exists k', a'. split; [now right | exact H].
Qed.

(** X8: [unstack_state_dict] raises exactly when a tensor under the prefix is
    0-dimensional, and what it raises then is the [TypeError] of iterating
    that tensor; its assertion on the prefix never fails. *)
Theorem unstack_raises_iff : forall d p,
  (forall e, unstack_state_dict d p = Raise e -> e = TypeError) /\
  ((exists e, unstack_state_dict d p = Raise e) <->
   exists k a, In (k, VArr a) d /\ startswith k (key_of p "") = true /\ shape a = []).
Proof.
  intros d p. rewrite unstack_state_dict_loop.
  destruct (unstack_loop_cases (key_of p "") d []) as [[r [Hr Hs]]|[Hr Hex]].
  - rewrite Hr. split; [discriminate|]. split.
    + intros [e H]. discriminate.
    + intros [k [a [Hin [Hk Hz]]]]. exfalso. exact (Hs k a Hin Hk Hz).
  - rewrite Hr. split; [now intros e [= <-]|]. split; [intros _; exact Hex | eauto].
Qed.

(** ** What unstacking produces *)

Lemma rows_nth len : forall n l i,
  i < n -> nth_error (rows n len l) i = Some (firstn len (skipn (i * len) l)).
Proof.
  induction n as [|n IH]; intros l i Hi; [lia|]. simpl.
  destruct i as [|i]; simpl; [reflexivity|].
  rewrite IH by lia. rewrite skipn_skipn. do 3 f_equal. lia.
Qed.

Lemma rows_of_nth a n s i :
  shape a = n :: s -> i < n ->
  nth_error (rows_of a) i
  = Some (mkArr (kind a) s
            (firstn (prod_shape s) (skipn (i * prod_shape s) (data a)))).
Proof.
  intros Sh Hi. unfold rows_of. rewrite Sh.
  rewrite nth_error_map, rows_nth by exact Hi. reflexivity.
Qed.

Section Unstack.

Variable p' : string.
Variable d : StateDict.

Local Abbreviation L := (flat_map (expand p') d).

Lemma un_in_L K V :
  In (K, V) L <->
  (exists k a i row,
     In (k, VArr a) d /\ startswith k p' = true /\
     nth_error (rows_of a) i = Some row /\
     K = (p' ++ str i ++ "." ++ string_drop (String.length p') k)%string /\
     V = VArr row) \/
  (In (K, V) d /\ (startswith K p' = false \/ V = VNone)).
Proof.
  rewrite in_flat_map. split.
  - intros [[k v] [Hin Hex]]. unfold expand in Hex. simpl in Hex.
    destruct v as [|a].
    + destruct Hex as [[= <- <-]|[]]. right. auto.
    + destruct (startswith k p') eqn:E.
      * apply In_flat_mapi in Hex. destruct Hex as [j [row [Hn [Hx|[]]]]].
        injection Hx as <- <-. left. exists k, a, j, row. auto.
      * destruct Hex as [[= <- <-]|[]]. right. auto.
  - intros [[k [a [i [row [Hin [Hs [Hn [-> ->]]]]]]]] | [Hin Hs]].
    + exists (k, VArr a). split; [exact Hin|]. unfold expand. simpl. rewrite Hs.
      apply In_flat_mapi. exists i, row. split; [exact Hn|]. simpl. now left.
    + exists (K, V). split; [exact Hin|]. unfold expand. simpl.
      destruct V as [|a]; [now left|]. destruct Hs as [Hs|Hs]; [|discriminate].
      rewrite Hs. now left.
Qed.

Hypothesis Hnd : NoDup (dict_keys d).
Hypothesis Hnone : forall k, In (k, VNone) d -> startswith k p' = false.

Lemma un_functional : functional L.
Proof.
  intros K V V' H1 H2. apply un_in_L in H1. apply un_in_L in H2.
  assert (Hpass : forall K V, In (K, V) d -> startswith K p' = false \/ V = VNone ->
                              startswith K p' = false).
  { intros K0 V0 Hin [H| ->]; [exact H | now apply Hnone]. }
  destruct H1 as [[k [a [i [row [Hin [Hs [Hn [HK ->]]]]]]]] | [Hin Hs]];
  destruct H2 as [[k2 [a2 [i2 [row2 [Hin2 [Hs2 [Hn2 [HK2 ->]]]]]]]] | [Hin2 Hs2]].
  - rewrite HK in HK2. apply gen_key_inj in HK2. destruct HK2 as [<- Hr].
    assert (Ek : k = k2).
    { rewrite (startswith_split _ _ Hs), (startswith_split _ _ Hs2). now rewrite Hr. }
    subst k2.
    assert (Ea := functional_NoDup d Hnd _ _ _ Hin Hin2). injection Ea as <-.
    congruence.
  - apply (Hpass _ _ Hin2) in Hs2. rewrite HK, startswith_app in Hs2. discriminate.
  - apply (Hpass _ _ Hin) in Hs. rewrite HK2, startswith_app in Hs. discriminate.
  - exact (functional_NoDup d Hnd _ _ _ Hin Hin2).
Qed.

Lemma un_result r :
  unstack_loop p' d [] = OK r ->
  NoDup (dict_keys r) /\ forall K V, dict_get r K = Some V <-> In (K, V) L.
Proof.
  intros Hr.
  destruct (unstack_loop_cases p' d []) as [[r' [Hr' Hs]]|[Hr' _]];
    [|rewrite Hr in Hr'; discriminate].
  rewrite (unstack_loop_assign p' d [] Hs) in Hr. injection Hr as <-.
  split.
  - apply fold_assign_NoDup. constructor.
  - intros K V. apply fold_assign_get. exact un_functional.
Qed.

End Unstack.

Lemma rows_of_nth_inv a i row :
  nth_error (rows_of a) i = Some row ->
  exists n s, shape a = n :: s /\ i < n /\
    row = mkArr (kind a) s
            (firstn (prod_shape s) (skipn (i * prod_shape s) (data a))).
Proof.
  intros H. destruct (shape a) as [|n s] eqn:Sh.
  - unfold rows_of in H. rewrite Sh in H. destruct i; discriminate.
  - assert (Hi : i < n).
    { rewrite <- (rows_of_length a n s Sh). apply nth_error_Some. congruence. }
    exists n, s. split; [reflexivity|]. split; [exact Hi|].
    rewrite (rows_of_nth a n s i Sh Hi) in H. now injection H as <-.
Qed.

(** X9: Unstacking a dictionary with distinct keys and no [None] under the
    prefix: each tensor under the prefix is replaced by its slices along
    the leading axis, slice [i] of key [prefix rest] under
    [prefix i.rest]; every other entry passes as it is; and the result
    holds nothing else: each of its entries is such a slice or an entry
    that is not under the prefix. *)
Theorem unstack_slices : forall d p r,
  NoDup (dict_keys d) ->
  (forall k, In (k, VNone) d -> startswith k (key_of p "") = false) ->
  unstack_state_dict d p = OK r ->
  (forall k a n s i,
     In (k, VArr a) d -> startswith k (key_of p "") = true ->
     shape a = n :: s -> i < n ->
     dict_get r (key_of p "" ++ str i ++ "." ++
                 string_drop (String.length (key_of p "")) k)
     = Some (VArr (mkArr (kind a) s
                     (firstn (prod_shape s) (skipn (i * prod_shape s) (data a)))))) /\
  (forall k v, In (k, v) d -> startswith k (key_of p "") = false ->
               dict_get r k = Some v) /\
  (forall K V, dict_get r K = Some V ->
     (In (K, V) d /\ startswith K (key_of p "") = false) \/
     exists k a n s i,
       In (k, VArr a) d /\ startswith k (key_of p "") = true /\
       shape a = n :: s /\ i < n /\
       K = (key_of p "" ++ str i ++ "." ++
            string_drop (String.length (key_of p "")) k)%string /\
       V = VArr (mkArr (kind a) s
                   (firstn (prod_shape s) (skipn (i * prod_shape s) (data a))))).
Proof.
  intros d p r Hnd Hnone Hr. rewrite unstack_state_dict_loop in Hr.
  destruct (un_result (key_of p "") d Hnd Hnone r Hr) as [_ Hget].
  split; [|split].
  - intros k a n s i Hin Hk Sh Hi. apply Hget, un_in_L. left.
    exists k, a, i. eexists. split; [exact Hin|]. split; [exact Hk|].
    split; [exact (rows_of_nth a n s i Sh Hi)|]. split; reflexivity.
  - intros k v Hin Hk. apply Hget, un_in_L. right. auto.
  - intros K V HK. apply Hget, un_in_L in HK.
    destruct HK as [[k [a [i [row [Hin [Hs [Hrow [-> ->]]]]]]]] | [Hin Hs]].
    + right. destruct (rows_of_nth_inv a i row Hrow) as [n [s [Sh [Hi ->]]]].
      exists k, a, n, s, i. repeat split; auto.
    + left. split; [exact Hin|]. destruct Hs as [Hs| ->]; [exact Hs|].
      now apply Hnone.
Qed.

Lemma stacked_example_NoDup : NoDup (dict_keys stacked_example).
Proof. repeat constructor; simpl; intuition discriminate. Qed.

Lemma stacked_example_tensors k : ~ In (k, VNone) stacked_example.
Proof. intros [H|[H|[]]]; discriminate. Qed.

Lemma unstack_slices_witness :
  NoDup (dict_keys stacked_example) /\
  (forall k, In (k, VNone) stacked_example ->
             startswith k (key_of (Some "blocks") "") = false) /\
  exists r,
    unstack_state_dict stacked_example (Some "blocks") = OK r /\
    (forall k a n s i,
       In (k, VArr a) stacked_example ->
       startswith k (key_of (Some "blocks") "") = true ->
       shape a = n :: s -> i < n ->
       dict_get r (key_of (Some "blocks") "" ++ str i ++ "." ++
                   string_drop (String.length (key_of (Some "blocks") "")) k)
       = Some (VArr (mkArr (kind a) s
                       (firstn (prod_shape s)
                          (skipn (i * prod_shape s) (data a)))))) /\
    (forall k v, In (k, v) stacked_example ->
                 startswith k (key_of (Some "blocks") "") = false ->
                 dict_get r k = Some v) /\
    (forall K V, dict_get r K = Some V ->
       (In (K, V) stacked_example /\
        startswith K (key_of (Some "blocks") "") = false) \/
       exists k a n s i,
         In (k, VArr a) stacked_example /\
         startswith k (key_of (Some "blocks") "") = true /\
         shape a = n :: s /\ i < n /\
         K = (key_of (Some "blocks") "" ++ str i ++ "." ++
              string_drop (String.length (key_of (Some "blocks") "")) k)%string /\
         V = VArr (mkArr (kind a) s
                     (firstn (prod_shape s) (skipn (i * prod_shape s) (data a))))).
Proof.
  assert (Hnone : forall k, In (k, VNone) stacked_example ->
                            startswith k (key_of (Some "blocks") "") = false).
  { intros k Hin. exfalso. exact (stacked_example_tensors k Hin). }
  split; [exact stacked_example_NoDup|]. split; [exact Hnone|].
  eexists. split; [vm_compute; reflexivity|].
  apply (unstack_slices stacked_example (Some "blocks") _
           stacked_example_NoDup Hnone).
  vm_compute. reflexivity.
Defined.

(** ** Dictionaries without layered keys *)

Lemma fold_assign_self : forall l nd,
  NoDup (dict_keys (nd ++ l)) -> fold_left assign l nd = nd ++ l.
Proof.
  induction l as [|[k v] l IH]; intros nd H; simpl.
  - now rewrite app_nil_r.
  - unfold assign at 2. simpl. rewrite dict_set_fresh.
    + rewrite IH; rewrite <- app_assoc; [reflexivity | exact H].
    + apply dict_get_None. unfold dict_keys in *. rewrite map_app in H. simpl in H.
      apply NoDup_remove_2 in H. intros Hin. apply H. apply in_or_app. now left.
Qed.

Lemma stack_loop_all_pass esc : forall l vd ttv,
  (forall k v, In (k, v) l -> pattern_match esc k = None) ->
  stack_loop esc l (vd, ttv) = OK (fold_left assign l vd, ttv).
Proof.
  induction l as [|[k v] l IH]; intros vd ttv H; simpl; [reflexivity|].
  rewrite stack_step_nomatch by (apply (H k v); now left).
  cbn [bind]. apply IH. intros k' v' Hin. apply (H k' v'). now right.
Qed.

Lemma stack_no_match d p :
  NoDup (dict_keys d) ->
  (forall k v, In (k, v) d -> pattern_match (escaped p) k = None) ->
  stack_state_dict d p = OK d.
Proof.
  intros Hnd H. unfold stack_state_dict.
  assert (E := stack_loop_all_pass (escaped p) d [] [] H).
  destruct (stack_loop (escaped p) d ([], [])) as [st|e] eqn:E'.
  - assert (Est := eq_trans (eq_sym E') E). injection Est as ->.
    cbn [bind fst snd vectorize]. now rewrite fold_assign_self.
  - exfalso. assert (Est := eq_trans (eq_sym E') E). discriminate.
Qed.

Lemma expand_outside p' : forall d,
  (forall k a, In (k, VArr a) d -> startswith k p' = false) ->
  flat_map (expand p') d = d.
Proof.
  induction d as [|[k v] d IH]; intros H; simpl; [reflexivity|].
  rewrite IH by (intros k' a' Hin; apply (H k' a'); now right).
  unfold expand. simpl. destruct v as [|a]; [reflexivity|].
  rewrite (H k a) by now left. reflexivity.
Qed.

(** X10: On a dictionary with distinct keys none of which lies under the
    prefix, stacking and unstacking both return the dictionary as it is,
    in its order. *)
Theorem adapters_leave_other_keys : forall d p,
  NoDup (dict_keys d) ->
  (forall k, In k (dict_keys d) -> startswith k (p ++ ".") = false) ->
  stack_state_dict d (Some p) = OK d /\ unstack_state_dict d (Some p) = OK d.
Proof.
  intros d p Hnd H.
  assert (H' : forall k (v : value), In (k, v) d -> startswith k (p ++ ".") = false).
  { intros k v Hin. apply H. unfold dict_keys. apply in_map_iff. now exists (k, v). }
  split.
  - apply stack_no_match; [exact Hnd|]. intros k v Hin. simpl.
    unfold pattern_match. now rewrite (H' k v Hin).
  - rewrite unstack_state_dict_loop.
    change (key_of (Some p) "") with (p ++ ".")%string.
    rewrite unstack_loop_assign.
    + rewrite expand_outside by (intros k a; apply H').
      now rewrite fold_assign_self.
    + intros k a Hin Hk. rewrite (H' k _ Hin) in Hk. discriminate.
Qed.

Lemma adapters_leave_other_keys_witness :
  NoDup (dict_keys stacked_example) /\
  (forall k, In k (dict_keys stacked_example) ->
             startswith k ("layers" ++ ".") = false) /\
  stack_state_dict stacked_example (Some "layers") = OK stacked_example /\
  unstack_state_dict stacked_example (Some "layers") = OK stacked_example.
Proof.
  assert (H : forall k, In k (dict_keys stacked_example) ->
                        startswith k ("layers" ++ ".") = false).
  { intros k [<-|[<-|[]]]; reflexivity. }
  split; [exact stacked_example_NoDup|]. split; [exact H|].
  exact (adapters_leave_other_keys stacked_example "layers" stacked_example_NoDup H).
Defined.

(** ** The null prefix *)

Lemma digit_key_no_match i rest : pattern_match "" (str i ++ rest) = None.
Proof.
  unfold pattern_match.
  assert (H : startswith (str i ++ rest) ("" ++ ".") = false).
  { assert (Hd := str_digits i). assert (Hn := str_nonempty i).
    destruct (str i) as [|c s]; [contradiction|]. simpl in Hd.
    apply andb_prop in Hd. destruct Hd as [Hc _].
    destruct (startswith (String c s ++ rest) ("" ++ ".")) eqn:E; [|reflexivity].
    apply startswith_iff in E. destruct E as [r E]. simpl in E.
    injection E as -> _. rewrite dot_not_digit in Hc. discriminate. }
  now rewrite H.
Qed.

(** X12: With the null prefix the two adapters are no inverses: unstacking
    names the slices [i.key], with no leading dot, and the pattern of
    stacking wants one, so stacking what unstacking produced returns it
    unchanged. *)
Theorem stack_after_unstack_null_prefix : forall d r,
  NoDup (dict_keys d) ->
  (forall k, ~ In (k, VNone) d) ->
  unstack_state_dict d None = OK r ->
  stack_state_dict r None = OK r.
Proof.
  intros d r Hnd Hnone Hr. rewrite unstack_state_dict_loop in Hr.
  change (key_of None "") with "" in Hr.
  assert (Hnone' : forall k, In (k, VNone) d -> startswith k "" = false).
  { intros k Hin. exfalso. exact (Hnone k Hin). }
  destruct (un_result "" d Hnd Hnone' r Hr) as [Hnd' Hget].
  apply stack_no_match; [exact Hnd'|].
  intros K V Hin. apply (dict_get_NoDup _ _ _ Hnd') in Hin.
  apply Hget, un_in_L in Hin.
  destruct Hin as [[k [a [i [row [_ [_ [_ [-> _]]]]]]]] | [Hin [Hs| ->]]].
  - apply digit_key_no_match.
  - destruct K; discriminate.
  - exfalso. exact (Hnone K Hin).
Qed.

Lemma stack_after_unstack_null_prefix_witness :
  NoDup (dict_keys stacked_example) /\
  (forall k, ~ In (k, VNone) stacked_example) /\
  exists r,
    unstack_state_dict stacked_example None = OK r /\
    stack_state_dict r None = OK r.
Proof.
  split; [exact stacked_example_NoDup|]. split; [exact stacked_example_tensors|].
  eexists. split; [vm_compute; reflexivity|].
  apply (stack_after_unstack_null_prefix stacked_example _
           stacked_example_NoDup stacked_example_tensors).
  vm_compute. reflexivity.
Defined.

(** ** What stacking produces *)

(** X13: Stacking an unstacked dictionary: for each [rest], the key
    [prefix.rest] holds a host array whose leading axis runs over the
    layers, its block [j] being the tensor of [prefix.j.rest]. *)
Theorem stack_blocks : forall p d s,
  unstacked_form p d ->
  stack_state_dict d (Some p) = OK s ->
  forall i bk a,
    In (((p ++ ".") ++ str i ++ "." ++ bk)%string, VArr a) d ->
    exists arrs sh,
      dict_get s ((p ++ ".") ++ bk) =
        Some (VArr (mkArr Numpy (length arrs :: sh) (concat (map data arrs)))) /\
      Forall (fun a' => shape a' = sh) arrs /\
      forall j a', nth_error arrs j = Some a' <->
                   In (((p ++ ".") ++ str j ++ "." ++ bk)%string, VArr a') d.
Proof.
  intros p d s [Hnd [Hform [Hdense Hshape]]] Hs i bk a Hin.
  unfold stack_state_dict in Hs.
  destruct (stack_loop (escaped (Some p)) d ([], [])) as [[vd ttv]|] eqn:Hloop;
    cbn [bind fst snd] in Hs; [|discriminate].
  simpl in Hloop.
  rewrite (su_vectorize p d Hform Hdense Hshape vd ttv Hloop) in Hs.
  injection Hs as <-.
  destruct (su_group_has p d Hform vd ttv Hloop i bk a Hin) as [l Hl].
  destruct (su_group p d Hform Hdense Hshape vd ttv Hloop bk l Hl)
    as [arrs [sh [-> [Hne [HF [_ Hnth]]]]]].
  exists arrs, sh. split; [|split].
  - rewrite <- (stacked_same_shape arrs sh Hne).
    + apply fold_assign_in.
      * exact (su_functional_M p d vd ttv Hloop).
      * apply (su_in_M p ttv). exists bk, (map VArr arrs). auto.
    + eapply Forall_impl; [|exact HF]. simpl. tauto.
  - eapply Forall_impl; [|exact HF]. simpl. tauto.
  - exact Hnth.
Qed.

Lemma stack_blocks_witness :
  unstacked_form "blocks" unstacked_example /\
  exists s,
    stack_state_dict unstacked_example (Some "blocks") = OK s /\
    forall i bk a,
      In ((("blocks" ++ ".") ++ str i ++ "." ++ bk)%string, VArr a) unstacked_example ->
      exists arrs sh,
        dict_get s (("blocks" ++ ".") ++ bk) =
          Some (VArr (mkArr Numpy (length arrs :: sh) (concat (map data arrs)))) /\
        Forall (fun a' => shape a' = sh) arrs /\
        forall j a', nth_error arrs j = Some a' <->
          In ((("blocks" ++ ".") ++ str j ++ "." ++ bk)%string, VArr a')
             unstacked_example.
Proof.
  split; [exact unstacked_example_form|].
  eexists. split; [vm_compute; reflexivity|].
  apply (stack_blocks "blocks" unstacked_example _ unstacked_example_form).
  vm_compute. reflexivity.
Defined.

(** ** Keys that do not match the pattern *)

Lemma vectorize_frame prefix : forall groups vd s,
  vectorize prefix groups vd = OK s ->
  forall k, (forall bk l, In (bk, l) groups -> key_of prefix bk <> k) ->
  dict_get s k = dict_get vd k.
Proof.
  induction groups as [|[bk l] groups IH]; intros vd s H k Hk; simpl in H.
  - now injection H as <-.
  - destruct (numpy_stack l) as [a|]; cbn [bind] in H; [|discriminate].
    rewrite (IH _ _ H k) by (intros bk' l' Hin; apply (Hk bk' l'); now right).
    apply dict_get_set_ne. apply (Hk bk l). now left.
Qed.

Lemma group_key_dec prefix (groups : dict (list value)) k :
  (exists bk l, In (bk, l) groups /\ key_of prefix bk = k) \/
  (forall bk l, In (bk, l) groups -> key_of prefix bk <> k).
Proof.
  induction groups as [|[bk l] groups [IH|IH]].
  - right. intros bk l [].
  - left. destruct IH as [bk' [l' [Hin E]]]. exists bk', l'. split; [now right | exact E].
  - destruct (string_dec (key_of prefix bk) k) as [E|E].
    + left. exists bk, l. split; [now left | exact E].
    + right. intros bk' l' [[= <- <-]|Hin]; [exact E | now apply (IH bk' l')].
Qed.

(** X23: On a dictionary with ASCII keys, a key that does not match the
    pattern keeps its value through stacking, unless it is the very name
    under which the layers of some block key are stored: then the stacked
    tensor takes its place. *)
Theorem stack_passes_or_replaces : forall d p s,
  NoDup (dict_keys d) ->
  ascii_keys d ->
  stack_state_dict d p = OK s ->
  forall k v, In (k, v) d -> pattern_match (escaped p) k = None ->
    dict_get s k = Some v \/
    exists k' v' bk i,
      In (k', v') d /\ names_slot (escaped p) k' bk i /\ k = key_of p bk.
Proof.
  intros d p s Hnd _ Hs k v Hin Hm. unfold stack_state_dict in Hs.
  destruct (stack_loop (escaped p) d ([], [])) as [[vd ttv]|] eqn:Hloop;
    cbn [bind fst snd] in Hs; [|discriminate].
  destruct (group_key_dec p ttv k) as [[bk [l [Hbk E]]]|Hfree].
  - right.
    destruct (stack_loop_group_origin _ _ _ _ bk Hloop) as [G|[k' [v' [i [Hin' Hn]]]]].
    + simpl in G. assert (Hk : In bk (dict_keys ttv)).
      { unfold dict_keys. apply in_map_iff. now exists (bk, l). }
      apply in_keys_get in Hk. destruct Hk as [l' Hl']. congruence.
    + exists k', v', bk, i. auto.
  - left. rewrite (vectorize_frame p ttv vd s Hs k Hfree).
    assert (Hvd := stack_loop_passed _ _ _ _ Hloop). simpl in Hvd. rewrite Hvd.
    apply fold_assign_in.
    + intros k0 v0 v0' H1 H2. apply filter_In in H1, H2.
      exact (functional_NoDup d Hnd _ _ _ (proj1 H1) (proj1 H2)).
    + apply filter_In. split; [exact Hin|]. unfold passes. simpl. now rewrite Hm.
Qed.

Lemma stack_passes_or_replaces_witness :
  NoDup (dict_keys shadowed_blocks) /\
  ascii_keys shadowed_blocks /\
  exists s,
    stack_state_dict shadowed_blocks (Some "blocks") = OK s /\
    forall k v, In (k, v) shadowed_blocks ->
      pattern_match (escaped (Some "blocks")) k = None ->
      dict_get s k = Some v \/
      exists k' v' bk i,
        In (k', v') shadowed_blocks /\
        names_slot (escaped (Some "blocks")) k' bk i /\
        k = key_of (Some "blocks") bk.
Proof.
  assert (H : NoDup (dict_keys shadowed_blocks))
    by (repeat constructor; simpl; intuition discriminate).
  assert (H0 : ascii_keys shadowed_blocks).
  { intros k v [[= <- _]|[[= <- _]|[[= <- _]|[]]]]; reflexivity. }
  split; [exact H|]. split; [exact H0|].
  eexists. split; [vm_compute; reflexivity|].
  apply (stack_passes_or_replaces shadowed_blocks (Some "blocks") _ H H0).
  vm_compute. reflexivity.
Defined.

(* ===================================================================== *)
(** * Patching the vocabulary size                                       *)
(* ===================================================================== *)

Lemma nth_error_list_set {A} (l : list A) : forall i v,
  i < length l -> nth_error (list_set l i v) i = Some v.
Proof.
  induction l as [|x l IH]; intros [|i] v H; simpl in *; try lia; [reflexivity|].
  apply IH. lia.
Qed.

Lemma list_set_same {A} (l : list A) : forall i v,
  nth_error l i = Some v -> list_set l i v = l.
Proof.
  induction l as [|x l IH]; intros [|i] v H; simpl in *; try discriminate.
  - now injection H as ->.
  - f_equal. now apply IH.
Qed.

Lemma in_bounds_nth idx s : in_bounds idx s ->
  forall i, i < length s -> nth i idx 0 < nth i s 0.
Proof.
  induction 1 as [|x y idx s Hxy _ IH]; intros [|i] Hi; simpl in *; try lia.
  apply IH. lia.
Qed.

Lemma nth_map_indices (f : list nat -> scalar) s idx :
  in_bounds idx s ->
  nth (ravel s idx) (map f (indices s)) NoneObj = f idx.
Proof.
  intros Hb.
  rewrite (nth_indep _ NoneObj (f idx))
    by (rewrite length_map, indices_length; now apply ravel_bound).
  rewrite map_nth. f_equal. now apply nth_indices.
Qed.

Section PatchVocabFacts.

Variable out_of_bounds : ndarray -> list nat -> scalar.

Lemma patch_cases inner like i n :
  index_of_vocab (axes like) = Some i ->
  nth_error (shape inner) i = Some n ->
  let desired := axis_size (nth i (axes like) (mkAxis "" 0)) in
  (n = desired /\ patch_vocab_size out_of_bounds inner like = Some inner) \/
  (n <> desired /\
   patch_vocab_size out_of_bounds inner like = Some (take_arange out_of_bounds inner desired i)).
Proof.
  intros Hi Hn desired. unfold patch_vocab_size. rewrite Hi, Hn. fold desired.
  destruct (n =? desired) eqn:E.
  - left. apply Nat.eqb_eq in E. auto.
  - right. apply Nat.eqb_neq in E. auto.
Qed.

(** X14: When the like has a vocabulary axis within the rank of the array,
    [patch_vocab_size] returns an array whose shape is the old one with
    the like's vocabulary size at that axis, and whose element count fits
    that shape. *)
Theorem patch_vocab_size_shape : forall inner like i,
  index_of_vocab (axes like) = Some i ->
  i < length (shape inner) ->
  wf_array inner ->
  exists r,
    patch_vocab_size out_of_bounds inner like = Some r /\
    shape r = list_set (shape inner) i
                (axis_size (nth i (axes like) (mkAxis "" 0))) /\
    wf_array r.
Proof.
  intros inner like i Hi Hlt Hwf.
  destruct (nth_error (shape inner) i) as [n|] eqn:Hn;
    [|apply nth_error_None in Hn; lia].
  destruct (patch_cases inner like i n Hi Hn) as [[E H]|[E H]]; rewrite H.
  - exists inner. split; [reflexivity|]. split; [|exact Hwf].
    rewrite <- E. symmetry. now apply list_set_same.
  - eexists. split; [reflexivity|]. split; [reflexivity|].
    unfold wf_array, take_arange. simpl. now rewrite length_map, indices_length.
Qed.

(** X15: A like whose vocabulary size is no larger than the array's keeps the
    entries: the patched array holds at every index within its shape what
    the array held at that index. *)
Theorem patch_vocab_size_keeps_entries : forall inner like i n r,
  index_of_vocab (axes like) = Some i ->
  nth_error (shape inner) i = Some n ->
  axis_size (nth i (axes like) (mkAxis "" 0)) <= n ->
  patch_vocab_size out_of_bounds inner like = Some r ->
  forall idx, in_bounds idx (shape r) ->
    nth (ravel (shape r) idx) (data r) NoneObj
    = nth (ravel (shape inner) idx) (data inner) NoneObj.
Proof.
  intros inner like i n r Hi Hn Hle Hr idx Hb.
  destruct (patch_cases inner like i n Hi Hn) as [[E H]|[E H]];
    rewrite H in Hr; injection Hr as <-; [reflexivity|].
  assert (Hlt : i < length (shape inner)) by (apply nth_error_Some; congruence).
  unfold take_arange in *. simpl in *.
  rewrite nth_map_indices by exact Hb.
  assert (Hidx : nth i idx 0 < axis_size (nth i (axes like) (mkAxis "" 0))).
  { assert (Hx := in_bounds_nth _ _ Hb i). rewrite length_list_set in Hx.
    specialize (Hx Hlt). rewrite nth_list_set in Hx by exact Hlt.
    now rewrite Nat.eqb_refl in Hx. }
  assert (Hsz : nth i (shape inner) 0 = n).
  { apply nth_error_nth with (d := 0) in Hn. exact Hn. }
  rewrite Hsz.
  destruct (nth i idx 0 <? n) eqn:E'; [reflexivity|].
  apply Nat.ltb_ge in E'. lia.
Qed.

(** X16: Patching twice is patching once. *)
Theorem patch_vocab_size_idempotent : forall inner like r,
  patch_vocab_size out_of_bounds inner like = Some r -> patch_vocab_size out_of_bounds r like = Some r.
Proof.
  intros inner like r Hr. unfold patch_vocab_size in *.
  destruct (index_of_vocab (axes like)) as [i|]; [|now injection Hr as <-].
  destruct (nth_error (shape inner) i) as [n|] eqn:Hn; [|discriminate].
  destruct (n =? axis_size (nth i (axes like) (mkAxis "" 0))) eqn:E.
  - injection Hr as <-. now rewrite Hn, E.
  - injection Hr as <-. unfold take_arange. simpl.
    rewrite nth_error_list_set by (apply nth_error_Some; congruence).
    now rewrite Nat.eqb_refl.
Qed.

End PatchVocabFacts.

Lemma rounded_embedding_wf : wf_array rounded_embedding.
Proof. reflexivity. Qed.

Lemma patch_vocab_size_shape_witness :
  index_of_vocab (axes embedding_like) = Some 0 /\
  0 < length (shape rounded_embedding) /\
  wf_array rounded_embedding /\
  exists r,
    patch_vocab_size fill_none rounded_embedding embedding_like = Some r /\
    shape r = list_set (shape rounded_embedding) 0
                (axis_size (nth 0 (axes embedding_like) (mkAxis "" 0))) /\
    wf_array r.
Proof.
  split; [reflexivity|]. split; [simpl; lia|]. split; [exact rounded_embedding_wf|].
  apply (patch_vocab_size_shape fill_none rounded_embedding embedding_like 0 eq_refl).
  - simpl. lia.
  - exact rounded_embedding_wf.
Defined.

Lemma patch_vocab_size_keeps_entries_witness :
  index_of_vocab (axes embedding_like) = Some 0 /\
  nth_error (shape rounded_embedding) 0 = Some 4 /\
  axis_size (nth 0 (axes embedding_like) (mkAxis "" 0)) <= 4 /\
  exists r,
    patch_vocab_size fill_none rounded_embedding embedding_like = Some r /\
    forall idx, in_bounds idx (shape r) ->
      nth (ravel (shape r) idx) (data r) NoneObj
      = nth (ravel (shape rounded_embedding) idx) (data rounded_embedding) NoneObj.
Proof.
  split; [reflexivity|]. split; [reflexivity|]. split; [simpl; lia|].
  eexists. split; [vm_compute; reflexivity|].
  apply (patch_vocab_size_keeps_entries fill_none rounded_embedding embedding_like 0 4).
  - reflexivity.
  - reflexivity.
  - simpl. lia.
  - vm_compute. reflexivity.
Defined.

Lemma patch_vocab_size_idempotent_witness :
  exists r,
    patch_vocab_size fill_none rounded_embedding embedding_like = Some r /\
    patch_vocab_size fill_none r embedding_like = Some r.
Proof.
  eexists. split; [vm_compute; reflexivity|].
  apply (patch_vocab_size_idempotent fill_none rounded_embedding embedding_like).
  vm_compute. reflexivity.
Defined.

(* ===================================================================== *)
(** * Saving a state dict                                                *)
(* ===================================================================== *)












(* ===================================================================== *)
(** * Building the attention module                                      *)
(* ===================================================================== *)

(** X19: [NoMlpGpt2Attention.__init__] raises [ValueError] on every input: it
    unpacks into four names what a split into two keys yields. *)
Theorem attention_init_raises :
  forall (PRNGKey : Type) (split : PRNGKey -> nat -> list PRNGKey)
         (Linear Dropout float : Type)
         (Linear_init : list Axis -> list Axis -> PRNGKey -> bool -> Linear)
         (Dropout_init : float -> Dropout)
         SeqLen KeySeqLen Embed Heads HeadDim dropout_prob
         scale_by_inverse_layer_idx upcast key use_bias,
  (forall k n, length (split k n) = n) ->
  NoMlpGpt2.NoMlpGpt2Attention_init PRNGKey split Linear Dropout float
    Linear_init Dropout_init SeqLen KeySeqLen Embed Heads HeadDim dropout_prob
    scale_by_inverse_layer_idx upcast key use_bias
  = Raise ValueError.
Proof.
  intros PRNGKey split Linear Dropout float Linear_init Dropout_init
         SeqLen KeySeqLen Embed Heads HeadDim dropout_prob sc up key use_bias Hlen.
  unfold NoMlpGpt2.NoMlpGpt2Attention_init.
  assert (H := Hlen key 2).
  destruct (split key 2) as [|k1 [|k2 [|k3 [|k4 [|k5 l]]]]]; simpl in H;
    try reflexivity; discriminate.
Qed.

Lemma attention_init_raises_witness :
  (forall (k n : nat), length (repeat k n) = n) /\
  NoMlpGpt2.NoMlpGpt2Attention_init nat (@repeat nat) unit unit unit
    (fun _ _ _ _ => tt) (fun _ => tt)
    (mkAxis "seq" 8) (mkAxis "key_seq" 8) (mkAxis "embed" 4)
    (mkAxis "heads" 2) (mkAxis "head_dim" 2) tt true false 0 true
  = Raise ValueError.
Proof.
  split; [intros k n; apply repeat_length|].
  exact (attention_init_raises nat (@repeat nat) unit unit unit
           (fun _ _ _ _ => tt) (fun _ => tt)
           (mkAxis "seq" 8) (mkAxis "key_seq" 8) (mkAxis "embed" 4)
           (mkAxis "heads" 2) (mkAxis "head_dim" 2) tt true false 0 true
           (fun k n => repeat_length k n)).
Defined.

(* ===================================================================== *)
(** * The layout of a flattened linear layer                             *)
(* ===================================================================== *)

Module LinearAdapterLayout.
Import LinearAdapter LinearAdapterSpec LinearAdapterFacts.

Lemma collapse_bias k E layer b0 :
  linear_wf k E layer -> bias layer = Some b0 ->
  exists b1,
    flatten_axes b0 (Out layer) OUT = OK b1 /\
    axes b1 = E ++ [mkAxis OUT (prod_shape (axis_sizes (Out layer)))] /\
    wf_named k b1.
Proof.
  intros Hwf Hb. destruct (lw_bias k E layer Hwf b0 Hb) as [Hwb Haxb].
  assert (Haxb' : axes b0 = E ++ Out layer ++ []) by (now rewrite app_nil_r).
  destruct (flatten_spec k b0 E (Out layer) [] OUT Hwb (lw_O k E layer Hwf) Haxb'
              (lw_E_O k E layer Hwf))
    as [b1 [H1 [Hax1 [Hw1 _]]]].
  { intros ax []. }
  exists b1. auto.
Qed.

(** X20: A flattened layer is laid out the way torch lays out a linear layer,
    behind the extra axes: with [out_first] the weight has the shape
    (output size, input size), without it (input size, output size), its
    entry at an output and an input position is the weight's entry at the
    group coordinates that ravel to them, and the bias has the shape
    (output size). *)
Theorem flatten_layout : forall k E layer prefix (out_first : bool),
  linear_wf k E layer ->
  let PO := prod_shape (axis_sizes (Out layer)) in
  let PI := prod_shape (axis_sizes (In layer)) in
  exists sd x,
    flatten_linear_layers prefix layer (Some out_first) = OK sd /\
    dict_get sd (key_of prefix "weight") = Some (VArr x) /\
    shape x = axis_sizes E ++ (if out_first then [PO; PI] else [PI; PO]) /\
    wf_array x /\
    (forall sigma, good E layer sigma ->
       nth (ravel (shape x)
              (map sigma (axis_names E) ++
               (if out_first then [sigma OUT; sigma IN] else [sigma IN; sigma OUT])))
           (data x) NoneObj
       = nget (weight layer) sigma) /\
    match bias layer with
    | Some _ =>
        exists y, dict_get sd (key_of prefix "bias") = Some (VArr y) /\
                  shape y = axis_sizes E ++ [PO] /\ wf_array y
    | None => dict_get sd (key_of prefix "bias") = None
    end.
Proof.
  intros k E layer prefix b Hwf PO PI.
  destruct (collapse_weight k E layer Hwf) as [w1 [w2 [H1 [H2 [Hax2 [Hw2 Hg2]]]]]].
  destruct (reorder k E layer Hwf w2 (LinearAdapter.out_first layer) b Hw2 Hax2)
    as [w3 [H3 [Hax3 [Hw3 Hg3]]]].
  assert (Ho : orient w2 (Some b) = OK w3) by (unfold orient; destruct b; exact H3).
  destruct (oriented_layout k E layer w3 b Hw3 Hax3) as [x [Hx [Hshape [Hwfx Helt]]]].
  { intros sigma Hs. rewrite (Hg3 sigma Hs). exact (Hg2 sigma Hs). }
  destruct (lw_weight k E layer Hwf) as [x0 [Hx0 _]].
  assert (Hkeys := weight_bias_keys prefix).
  destruct (bias layer) as [b0|] eqn:Hb.
  - destruct (collapse_bias k E layer b0 Hwf Hb) as [b1 [G1 [Gax [y [Hy [_ [Gsh Gwf]]]]]]].
    exists (emit prefix w3 (Some b1)), x. split; [|split; [|split; [|split; [|split]]]].
    + unfold flatten_linear_layers, _flatten_linear, collapse_linear.
      rewrite Hx0, H1. cbn [bind]. rewrite H2. cbn [bind]. rewrite Hb, G1.
      cbn [bind fst snd]. rewrite Ho. reflexivity.
    + unfold emit. rewrite dict_get_set_ne by (intros HH; now apply Hkeys).
      now rewrite dict_get_set_eq, Hx.
    + exact Hshape.
    + exact Hwfx.
    + exact Helt.
    + exists y. split; [|split; [|exact Gwf]].
      * unfold emit. now rewrite dict_get_set_eq, Hy.
      * rewrite Gsh, Gax, sizes_app. reflexivity.
  - exists (emit prefix w3 None), x. split; [|split; [|split; [|split; [|split]]]].
    + unfold flatten_linear_layers, _flatten_linear, collapse_linear.
      rewrite Hx0, H1. cbn [bind]. rewrite H2. cbn [bind]. rewrite Hb.
      cbn [bind fst snd]. rewrite Ho. reflexivity.
    + unfold emit. now rewrite dict_get_set_eq, Hx.
    + exact Hshape.
    + exact Hwfx.
    + exact Helt.
    + unfold emit. rewrite dict_get_set_ne by exact Hkeys. reflexivity.
Qed.

Lemma flatten_layout_witness :
  linear_wf Jax [] example_layer /\
  exists sd x,
    flatten_linear_layers (Some "c_fc") example_layer (Some true) = OK sd /\
    dict_get sd (key_of (Some "c_fc") "weight") = Some (VArr x) /\
    shape x = axis_sizes [] ++ [prod_shape (axis_sizes (Out example_layer));
                                prod_shape (axis_sizes (In example_layer))] /\
    wf_array x /\
    (forall sigma, good [] example_layer sigma ->
       nth (ravel (shape x) (map sigma (axis_names []) ++ [sigma OUT; sigma IN]))
           (data x) NoneObj
       = nget (weight example_layer) sigma) /\
    exists y, dict_get sd (key_of (Some "c_fc") "bias") = Some (VArr y) /\
              shape y = axis_sizes [] ++ [prod_shape (axis_sizes (Out example_layer))] /\
              wf_array y.
Proof.
  split; [exact example_layer_wf|].
  exact (flatten_layout Jax [] example_layer (Some "c_fc") true example_layer_wf).
Defined.

End LinearAdapterLayout.
